(** * Mortgage scenario comparison: the amortization engine

    A shallow embedding of [generateAmortizationSchedule], [calculateMortgage]
    and [calculateComparison] of the mortgage comparison calculator, of the
    functions that prepare the data of its charts and of the handlers of its
    inputs, and the properties established on it.

    Numbers.  A JavaScript [number] is modelled by [num]: a finite value is an
    exact rational in lowest terms (no rounding is modelled), and the three
    special values of IEEE-754 arithmetic, [+Infinity], [-Infinity] and [NaN],
    are kept, so that a division by zero behaves as it does in the program.
    The model has one zero, which stands for [+0].

    Integers.  [amortizationPeriod], [term] and [paymentsPerYear] are
    integer-valued in the program (select boxes and the frequency table) and
    are modelled in [Z]; they are injected in [num] where the program does
    arithmetic with them. *)

From Stdlib Require Import ZArith QArith Qcanon Qpower Qfield Qround.
From Stdlib Require Import String Ascii DecimalString List Bool Lia Lra Psatz.
Import ListNotations.

Open Scope Qc_scope.
Open Scope Z_scope.

(** ** Numbers *)

Inductive num : Type :=
| Fin (q : Qc)
| PInf
| NInf
| NaN.

Declare Scope num_scope.
Delimit Scope num_scope with num.
Bind Scope num_scope with num.

Definition Qcleb (a b : Qc) : bool := Qle_bool a b.
Definition Qcltb (a b : Qc) : bool := negb (Qle_bool b a).
Definition Qceqb (a b : Qc) : bool := Qeq_bool a b.

(** [a ^ n] for an integer exponent, in lowest terms. *)
Definition Qcpowz (a : Qc) (n : Z) : Qc := Q2Qc (Qpower a n).

Definition ofZ (z : Z) : num := Fin (Q2Qc (inject_Z z)).

Definition nneg (x : num) : num :=
  match x with
  | Fin a => Fin (- a)
  | PInf => NInf
  | NInf => PInf
  | NaN => NaN
  end.

Definition nadd (x y : num) : num :=
  match x, y with
  | NaN, _ | _, NaN => NaN
  | Fin a, Fin b => Fin (a + b)
  | PInf, NInf | NInf, PInf => NaN
  | PInf, _ | _, PInf => PInf
  | NInf, _ | _, NInf => NInf
  end.

Definition nsub (x y : num) : num := nadd x (nneg y).

(** An infinity of sign [pos] multiplied by the finite value [q]. *)
Definition scale_inf (pos : bool) (q : Qc) : num :=
  if Qceqb q 0 then NaN
  else if Bool.eqb pos (Qcltb 0 q) then PInf else NInf.

Definition nmul (x y : num) : num :=
  match x, y with
  | NaN, _ | _, NaN => NaN
  | Fin a, Fin b => Fin (a * b)
  | PInf, Fin b => scale_inf true b
  | NInf, Fin b => scale_inf false b
  | Fin a, PInf => scale_inf true a
  | Fin a, NInf => scale_inf false a
  | PInf, PInf | NInf, NInf => PInf
  | PInf, NInf | NInf, PInf => NInf
  end.

Definition ndiv (x y : num) : num :=
  match x, y with
  | NaN, _ | _, NaN => NaN
  | Fin a, Fin b =>
      if Qceqb b 0 then
        (if Qceqb a 0 then NaN else if Qcltb 0 a then PInf else NInf)
      else Fin (a / b)
  | Fin _, (PInf | NInf) => Fin 0
  | PInf, Fin b => if Qcltb b 0 then NInf else PInf
  | NInf, Fin b => if Qcltb b 0 then PInf else NInf
  | (PInf | NInf), (PInf | NInf) => NaN
  end.

(** [Math.pow] at an integer exponent. *)
Definition npow (x : num) (n : Z) : num :=
  if (n =? 0)%Z then Fin 1
  else match x with
       | NaN => NaN
       | Fin a => if (n <? 0)%Z && Qceqb a 0 then PInf else Fin (Qcpowz a n)
       | PInf => if (0 <? n)%Z then PInf else Fin 0
       | NInf => if (0 <? n)%Z then (if Z.odd n then NInf else PInf) else Fin 0
       end.

(** [x <= y], [x < y] and [x > y]: every comparison with [NaN] is false. *)
Definition nleb (x y : num) : bool :=
  match x, y with
  | NaN, _ | _, NaN => false
  | Fin a, Fin b => Qcleb a b
  | NInf, _ | _, PInf => true
  | PInf, _ | _, NInf => false
  end.

Definition nltb (x y : num) : bool :=
  match x, y with
  | NaN, _ | _, NaN => false
  | Fin a, Fin b => Qcltb a b
  | PInf, _ | _, NInf => false
  | NInf, _ | _, PInf => true
  end.

Definition ngtb (x y : num) : bool := nltb y x.

(** [Math.min] of two arguments. *)
Definition nmin (x y : num) : num :=
  match x, y with
  | NaN, _ | _, NaN => NaN
  | _, _ => if nleb x y then x else y
  end.

(** [x === 0]. *)
Definition is_zero (x : num) : bool :=
  match x with
  | Fin a => Qceqb a 0
  | _ => false
  end.

Infix "+" := nadd : num_scope.
Infix "-" := nsub : num_scope.
Infix "*" := nmul : num_scope.
Infix "/" := ndiv : num_scope.
Infix "<=?" := nleb : num_scope.
Infix ">?" := ngtb : num_scope.

(** Decidable equality of values ([NaN] is a value like the others here:
    this is not the [===] of the program). *)
Definition num_eqb (x y : num) : bool :=
  match x, y with
  | Fin a, Fin b => Qceqb a b
  | PInf, PInf | NInf, NInf | NaN, NaN => true
  | _, _ => false
  end.

(** The order of the values: [nle x y] is [x <= y] of the program. *)
Definition nle (x y : num) : Prop := nleb x y = true.

Definition finite (x : num) : Prop :=
  match x with Fin _ => True | _ => False end.

(** ** Data model *)

Record ScenarioState : Type := {
  purchasePrice : num;
  downPayment : num;
  downPaymentType : string;
  interestRate : num;
  amortizationPeriod : Z;
  term : Z;
  paymentFrequency : string;
  extraPayment : num;
  paymentIncrease : num;
  annualPrepayment : num
}.

Record AmortizationItem : Type := {
  year : Z;
  principalPaid : num;
  interestPaid : num;
  extraPayments : num;
  endingBalance : num
}.

Record MortgageResult : Type := {
  monthlyPayment : num;
  totalMortgage : num;
  totalInterestTerm : num;
  totalInterestLifetime : num;
  balanceAtEndOfTerm : num;
  effectiveAmortization : num;
  amortizationSchedule : list AmortizationItem
}.

Record Frequency : Type := {
  value : string;
  label : string;
  paymentsPerYear : Z
}.

Definition PAYMENT_FREQUENCIES : list Frequency :=
  [ {| value := "monthly"; label := "Monthly"; paymentsPerYear := 12 |};
    {| value := "biweekly"; label := "Bi-Weekly"; paymentsPerYear := 26 |};
    {| value := "accelerated_biweekly"; label := "Accelerated Bi-Weekly";
       paymentsPerYear := 26 |};
    {| value := "weekly"; label := "Weekly"; paymentsPerYear := 52 |};
    {| value := "accelerated_weekly"; label := "Accelerated Weekly";
       paymentsPerYear := 52 |} ].

(** ** Loops

    [for (i = start; i <= ...; i++) body], run for at most [n] iterations:
    the body returns the new state and whether it executed [break]. *)
Fixpoint for_range {S : Type} (body : Z -> S -> S * bool)
    (n : nat) (i : Z) (s : S) : S :=
  match n with
  | O => s
  | Datatypes.S n' =>
      let (s', brk) := body i s in
      if brk then s' else for_range body n' (i + 1) s'
  end.

(** ** The schedule generator *)

(** The mutable variables of [generateAmortizationSchedule]; the three
    yearly accumulators are declared anew in every iteration of the loop
    over the years. *)
Module Var.
Record Locals : Type := {
  balance : num;
  totalInterestPaid : num;
  yearlySchedule : list AmortizationItem;
  totalInterestPaidOverTerm : num;
  balanceAtEndOfTerm : num;
  lastPaymentNumber : Z;
  yearlyPrincipalPaid : num;
  yearlyInterestPaid : num;
  yearlyExtraPayments : num
}.
End Var.

(** The object returned by [generateAmortizationSchedule]. *)
Module Sched.
Record Result : Type := {
  yearlySchedule : list AmortizationItem;
  totalInterestPaid : num;
  totalInterestPaidOverTerm : num;
  balanceAtEndOfTerm : num;
  effectiveAmortizationYears : num
}.
End Sched.

Section Schedule.

Variables (principal annualInterestRate : num) (amortizationYears : Z)
          (paymentAmount : num) (paymentsPerYear_ term_ : Z)
          (extraPayment_ paymentIncrease_ annualPrepayment_ : num).

Definition interestRatePerPayment : num :=
  ((annualInterestRate / ofZ 100) / ofZ paymentsPerYear_)%num.

Definition adjustedPayment : num :=
  (paymentAmount * (ofZ 1 + paymentIncrease_ / ofZ 100))%num.

Definition initLocals : Var.Locals :=
  {| Var.balance := principal;
     Var.totalInterestPaid := ofZ 0;
     Var.yearlySchedule := [];
     Var.totalInterestPaidOverTerm := ofZ 0;
     Var.balanceAtEndOfTerm := ofZ 0;
     Var.lastPaymentNumber := 0;
     Var.yearlyPrincipalPaid := ofZ 0;
     Var.yearlyInterestPaid := ofZ 0;
     Var.yearlyExtraPayments := ofZ 0 |}.

(** The amounts of one payment, from the balance before it: the interest,
    the principal before the extra payment, the extra principal
    ([0] unless [extraPayment > 0]) and the principal paid. *)
Definition interestForPayment (l : Var.Locals) : num :=
  (Var.balance l * interestRatePerPayment)%num.

Definition regularPrincipal (l : Var.Locals) : num :=
  nmin (adjustedPayment - interestForPayment l)%num (Var.balance l).

Definition extraPrincipalPaid (l : Var.Locals) : num :=
  if (extraPayment_ >? ofZ 0)%num
  then nmin extraPayment_ (Var.balance l - regularPrincipal l)%num
  else ofZ 0.

Definition principalForPayment (l : Var.Locals) : num :=
  if (extraPayment_ >? ofZ 0)%num
  then (regularPrincipal l + extraPrincipalPaid l)%num
  else regularPrincipal l.

(** One payment, from "Calculate interest and principal for this payment"
    to "Record balance at end of term". *)
Definition payment (year_ i : Z) (l : Var.Locals) : Var.Locals :=
  let balance' := (Var.balance l - principalForPayment l)%num in
  let totalInterestPaid' :=
    (Var.totalInterestPaid l + interestForPayment l)%num in
  let atTermEnd := (year_ =? term_) && (i =? paymentsPerYear_) in
  {| Var.balance := balance';
     Var.totalInterestPaid := totalInterestPaid';
     Var.yearlySchedule := Var.yearlySchedule l;
     Var.totalInterestPaidOverTerm :=
       if atTermEnd then totalInterestPaid'
       else Var.totalInterestPaidOverTerm l;
     Var.balanceAtEndOfTerm :=
       if atTermEnd then balance' else Var.balanceAtEndOfTerm l;
     Var.lastPaymentNumber := Var.lastPaymentNumber l;
     Var.yearlyPrincipalPaid :=
       (Var.yearlyPrincipalPaid l + principalForPayment l)%num;
     Var.yearlyInterestPaid :=
       (Var.yearlyInterestPaid l + interestForPayment l)%num;
     Var.yearlyExtraPayments :=
       if (extraPayment_ >? ofZ 0)%num
       then (Var.yearlyExtraPayments l + extraPrincipalPaid l)%num
       else Var.yearlyExtraPayments l |}.

(** [lastPaymentNumber++]. *)
Definition countPayment (l : Var.Locals) : Var.Locals :=
  {| Var.balance := Var.balance l;
     Var.totalInterestPaid := Var.totalInterestPaid l;
     Var.yearlySchedule := Var.yearlySchedule l;
     Var.totalInterestPaidOverTerm := Var.totalInterestPaidOverTerm l;
     Var.balanceAtEndOfTerm := Var.balanceAtEndOfTerm l;
     Var.lastPaymentNumber := Var.lastPaymentNumber l + 1;
     Var.yearlyPrincipalPaid := Var.yearlyPrincipalPaid l;
     Var.yearlyInterestPaid := Var.yearlyInterestPaid l;
     Var.yearlyExtraPayments := Var.yearlyExtraPayments l |}.

(** The body of the loop over the payments of a year. *)
Definition paymentIter (year_ i : Z) (l : Var.Locals) : Var.Locals * bool :=
  let l1 := countPayment l in
  if (Var.balance l1 <=? ofZ 0)%num then (l1, true)
  else (payment year_ i l1, false).

Definition paymentsOfYear (year_ : Z) (l : Var.Locals) : Var.Locals :=
  for_range (paymentIter year_) (Z.to_nat paymentsPerYear_) 1 l.

(** The declarations at the head of the loop over the years. *)
Definition yearStart (l : Var.Locals) : Var.Locals :=
  {| Var.balance := Var.balance l;
     Var.totalInterestPaid := Var.totalInterestPaid l;
     Var.yearlySchedule := Var.yearlySchedule l;
     Var.totalInterestPaidOverTerm := Var.totalInterestPaidOverTerm l;
     Var.balanceAtEndOfTerm := Var.balanceAtEndOfTerm l;
     Var.lastPaymentNumber := Var.lastPaymentNumber l;
     Var.yearlyPrincipalPaid := ofZ 0;
     Var.yearlyInterestPaid := ofZ 0;
     Var.yearlyExtraPayments := ofZ 0 |}.

(** "Apply annual prepayment if specified". *)
Definition annualPrepaymentAmount (l : Var.Locals) : num :=
  nmin (principal * (annualPrepayment_ / ofZ 100))%num (Var.balance l).

Definition applyPrepayment (l : Var.Locals) : Var.Locals :=
  if (annualPrepayment_ >? ofZ 0)%num && (Var.balance l >? ofZ 0)%num then
    let annualPrepaymentAmount := annualPrepaymentAmount l in
    {| Var.balance := (Var.balance l - annualPrepaymentAmount)%num;
       Var.totalInterestPaid := Var.totalInterestPaid l;
       Var.yearlySchedule := Var.yearlySchedule l;
       Var.totalInterestPaidOverTerm := Var.totalInterestPaidOverTerm l;
       Var.balanceAtEndOfTerm := Var.balanceAtEndOfTerm l;
       Var.lastPaymentNumber := Var.lastPaymentNumber l;
       Var.yearlyPrincipalPaid :=
         (Var.yearlyPrincipalPaid l + annualPrepaymentAmount)%num;
       Var.yearlyInterestPaid := Var.yearlyInterestPaid l;
       Var.yearlyExtraPayments :=
         (Var.yearlyExtraPayments l + annualPrepaymentAmount)%num |}
  else l.

(** "Add year to schedule". *)
Definition pushYear (year_ : Z) (l : Var.Locals) : Var.Locals :=
  {| Var.balance := Var.balance l;
     Var.totalInterestPaid := Var.totalInterestPaid l;
     Var.yearlySchedule :=
       Var.yearlySchedule l ++
       [ {| year := year_;
            principalPaid := Var.yearlyPrincipalPaid l;
            interestPaid := Var.yearlyInterestPaid l;
            extraPayments := Var.yearlyExtraPayments l;
            endingBalance := Var.balance l |} ];
     Var.totalInterestPaidOverTerm := Var.totalInterestPaidOverTerm l;
     Var.balanceAtEndOfTerm := Var.balanceAtEndOfTerm l;
     Var.lastPaymentNumber := Var.lastPaymentNumber l;
     Var.yearlyPrincipalPaid := Var.yearlyPrincipalPaid l;
     Var.yearlyInterestPaid := Var.yearlyInterestPaid l;
     Var.yearlyExtraPayments := Var.yearlyExtraPayments l |}.

(** The body of the loop over the years. *)
Definition yearIter (year_ : Z) (l : Var.Locals) : Var.Locals * bool :=
  let l1 := paymentsOfYear year_ (yearStart l) in
  let l2 := pushYear year_ (applyPrepayment l1) in
  (l2, (Var.balance l2 <=? ofZ 0)%num).

Definition scheduleLoop : Var.Locals :=
  for_range yearIter (Z.to_nat amortizationYears) 1 initLocals.

Definition generateAmortizationSchedule : Sched.Result :=
  let l := scheduleLoop in
  {| Sched.yearlySchedule := Var.yearlySchedule l;
     Sched.totalInterestPaid := Var.totalInterestPaid l;
     Sched.totalInterestPaidOverTerm := Var.totalInterestPaidOverTerm l;
     Sched.balanceAtEndOfTerm := Var.balanceAtEndOfTerm l;
     Sched.effectiveAmortizationYears :=
       (ofZ (Var.lastPaymentNumber l) / ofZ paymentsPerYear_)%num |}.

End Schedule.

(** ** The engine *)

(** [PAYMENT_FREQUENCIES.find(f => f.value === v) ?? PAYMENT_FREQUENCIES[0]] *)
Definition paymentFrequencyObj (v : string) : Frequency :=
  match find (fun f => String.eqb (value f) v) PAYMENT_FREQUENCIES with
  | Some f => f
  | None => {| value := "monthly"; label := "Monthly"; paymentsPerYear := 12 |}
  end.

Definition mortgageAmount (s : ScenarioState) : num :=
  let downPaymentAmount :=
    if String.eqb (downPaymentType s) "amount" then downPayment s
    else (purchasePrice s * (downPayment s / ofZ 100))%num in
  (purchasePrice s - downPaymentAmount)%num.

(** The value of the variable [paymentAmount] of [calculateMortgage] when the
    schedule is generated. *)
Definition paymentAmountOf (s : ScenarioState) : num :=
  let paymentsPerYear := paymentsPerYear (paymentFrequencyObj (paymentFrequency s)) in
  let annualInterestRate := (interestRate s / ofZ 100)%num in
  let interestRatePerPayment := (annualInterestRate / ofZ paymentsPerYear)%num in
  let totalPayments := amortizationPeriod s * paymentsPerYear in
  let paymentAmount :=
    if is_zero (interestRate s) then
      (mortgageAmount s / ofZ totalPayments)%num
    else
      (mortgageAmount s
       * (interestRatePerPayment
          * npow (ofZ 1 + interestRatePerPayment) totalPayments)
       / (npow (ofZ 1 + interestRatePerPayment) totalPayments - ofZ 1))%num in
  if String.eqb (paymentFrequency s) "accelerated_biweekly" then
    let monthlyEquivalent :=
      (mortgageAmount s
       * (annualInterestRate / ofZ 12
          * npow (ofZ 1 + annualInterestRate / ofZ 12) (amortizationPeriod s * 12))
       / (npow (ofZ 1 + annualInterestRate / ofZ 12) (amortizationPeriod s * 12)
          - ofZ 1))%num in
    (monthlyEquivalent / ofZ 2)%num
  else if String.eqb (paymentFrequency s) "accelerated_weekly" then
    let monthlyEquivalent :=
      (mortgageAmount s
       * (annualInterestRate / ofZ 12
          * npow (ofZ 1 + annualInterestRate / ofZ 12) (amortizationPeriod s * 12))
       / (npow (ofZ 1 + annualInterestRate / ofZ 12) (amortizationPeriod s * 12)
          - ofZ 1))%num in
    (monthlyEquivalent / ofZ 4)%num
  else paymentAmount.

Definition calculateMortgage (s : ScenarioState) : MortgageResult :=
  let paymentsPerYear := paymentsPerYear (paymentFrequencyObj (paymentFrequency s)) in
  let paymentAmount := paymentAmountOf s in
  let monthlyPayment :=
    if String.eqb (paymentFrequency s) "monthly" then paymentAmount
    else (paymentAmount * ofZ paymentsPerYear / ofZ 12)%num in
  let scheduleResult :=
    generateAmortizationSchedule
      (mortgageAmount s) (interestRate s) (amortizationPeriod s)
      paymentAmount paymentsPerYear (term s)
      (extraPayment s) (paymentIncrease s) (annualPrepayment s) in
  {| monthlyPayment := monthlyPayment;
     totalMortgage := mortgageAmount s;
     totalInterestTerm := Sched.totalInterestPaidOverTerm scheduleResult;
     totalInterestLifetime := Sched.totalInterestPaid scheduleResult;
     balanceAtEndOfTerm := Sched.balanceAtEndOfTerm scheduleResult;
     effectiveAmortization := Sched.effectiveAmortizationYears scheduleResult;
     amortizationSchedule := Sched.yearlySchedule scheduleResult |}.

(** ** Comparison *)

Module Diff.
Record Differences : Type := {
  monthlyPayment : num;
  totalInterestTerm : num;
  totalInterestLifetime : num;
  balanceAtEndOfTerm : num;
  timeShaved : num
}.
End Diff.

Record ComparisonState : Type := {
  scenarioA : MortgageResult;
  scenarioB : MortgageResult;
  differences : Diff.Differences
}.

(** [calculateComparison] reads the two scenarios of the component's state
    and stores the comparison: the state read is passed in, the state
    written is returned. *)
Definition calculateComparison (stateA stateB : ScenarioState) : ComparisonState :=
  let resultA := calculateMortgage stateA in
  let resultB := calculateMortgage stateB in
  {| scenarioA := resultA;
     scenarioB := resultB;
     differences :=
       {| Diff.monthlyPayment :=
            (monthlyPayment resultB - monthlyPayment resultA)%num;
          Diff.totalInterestTerm :=
            (totalInterestTerm resultB - totalInterestTerm resultA)%num;
          Diff.totalInterestLifetime :=
            (totalInterestLifetime resultB - totalInterestLifetime resultA)%num;
          Diff.balanceAtEndOfTerm :=
            (balanceAtEndOfTerm resultB - balanceAtEndOfTerm resultA)%num;
          Diff.timeShaved :=
            (effectiveAmortization resultA - effectiveAmortization resultB)%num |} |}.

(** ** The payments executed

    The program keeps no record of the payments it executes.  To speak of
    them, the two loops are run once more with a log: an event is appended
    each time the body of the inner loop runs past its [break], that is each
    time a payment is executed; it holds the year, the index of the payment
    in the year, and the variables before and after the iteration.  The log
    is write-only, and the logged run computes the same variables as the
    plain one ([scheduleLoopT_erase]). *)

Record Event : Type := {
  ev_year : Z;
  ev_index : Z;
  ev_before : Var.Locals;
  ev_after : Var.Locals
}.

Definition logged {S E : Type} (ev : Z -> S -> S -> E) (body : Z -> S -> S * bool)
    (i : Z) (st : S * list E) : (S * list E) * bool :=
  let (s', brk) := body i (fst st) in
  ((s', if brk then snd st else snd st ++ [ev i (fst st) s']), brk).

Section ScheduleLog.

Variables (principal annualInterestRate : num) (amortizationYears : Z)
          (paymentAmount : num) (paymentsPerYear_ term_ : Z)
          (extraPayment_ paymentIncrease_ annualPrepayment_ : num).

Let paymentIter' :=
  paymentIter annualInterestRate paymentAmount paymentsPerYear_ term_
              extraPayment_ paymentIncrease_.

Definition paymentsOfYearT (year_ : Z) (st : Var.Locals * list Event)
  : Var.Locals * list Event :=
  for_range (logged (fun i l l' => {| ev_year := year_; ev_index := i;
                                      ev_before := l; ev_after := l' |})
                    (paymentIter' year_))
            (Z.to_nat paymentsPerYear_) 1 st.

Definition yearIterT (year_ : Z) (st : Var.Locals * list Event)
  : (Var.Locals * list Event) * bool :=
  let st1 := paymentsOfYearT year_ (yearStart (fst st), snd st) in
  let l2 := pushYear year_ (applyPrepayment principal annualPrepayment_ (fst st1)) in
  ((l2, snd st1), (Var.balance l2 <=? ofZ 0)%num).

Definition scheduleLoopT : Var.Locals * list Event :=
  for_range yearIterT (Z.to_nat amortizationYears) 1 (initLocals principal, []).

(** The payments executed by [generateAmortizationSchedule], in order. *)
Definition paymentsExecuted : list Event := snd scheduleLoopT.

End ScheduleLog.

(** The payments executed by [calculateMortgage]. *)
Definition paymentsOf (s : ScenarioState) : list Event :=
  paymentsExecuted
    (mortgageAmount s) (interestRate s) (amortizationPeriod s)
    (paymentAmountOf s)
    (paymentsPerYear (paymentFrequencyObj (paymentFrequency s))) (term s)
    (extraPayment s) (paymentIncrease s) (annualPrepayment s).

(** ** Quantities the properties speak of *)

Definition paymentsPerYearOf (s : ScenarioState) : Z :=
  paymentsPerYear (paymentFrequencyObj (paymentFrequency s)).

(** The periodic rate [interestRate/100/paymentsPerYear] and the number of
    payments [amortizationPeriod * paymentsPerYear] of a scenario. *)
Definition periodicRate (s : ScenarioState) : num :=
  (interestRate s / ofZ 100 / ofZ (paymentsPerYearOf s))%num.

Definition totalPayments (s : ScenarioState) : Z :=
  amortizationPeriod s * paymentsPerYearOf s.

(** The annuity formula as the specification writes it,
    [P = principal * r(1+r)^n / ((1+r)^n - 1)]; the program's own
    expressions are in [paymentAmountOf]. *)
Definition annuityFormula (principal r : num) (n : Z) : num :=
  (principal * (r * npow (ofZ 1 + r) n) / (npow (ofZ 1 + r) n - ofZ 1))%num.

Definition withFrequency (f : string) (s : ScenarioState) : ScenarioState :=
  {| purchasePrice := purchasePrice s;
     downPayment := downPayment s;
     downPaymentType := downPaymentType s;
     interestRate := interestRate s;
     amortizationPeriod := amortizationPeriod s;
     term := term s;
     paymentFrequency := f;
     extraPayment := extraPayment s;
     paymentIncrease := paymentIncrease s;
     annualPrepayment := annualPrepayment s |}.

Definition withExtraPayment (e : num) (s : ScenarioState) : ScenarioState :=
  {| purchasePrice := purchasePrice s;
     downPayment := downPayment s;
     downPaymentType := downPaymentType s;
     interestRate := interestRate s;
     amortizationPeriod := amortizationPeriod s;
     term := term s;
     paymentFrequency := paymentFrequency s;
     extraPayment := e;
     paymentIncrease := paymentIncrease s;
     annualPrepayment := annualPrepayment s |}.

Definition withInterestRate (r : num) (s : ScenarioState) : ScenarioState :=
  {| purchasePrice := purchasePrice s;
     downPayment := downPayment s;
     downPaymentType := downPaymentType s;
     interestRate := r;
     amortizationPeriod := amortizationPeriod s;
     term := term s;
     paymentFrequency := paymentFrequency s;
     extraPayment := extraPayment s;
     paymentIncrease := paymentIncrease s;
     annualPrepayment := annualPrepayment s |}.

Definition accelerated (f : string) : bool :=
  String.eqb f "accelerated_biweekly" || String.eqb f "accelerated_weekly".

(** The sum of a column of the schedule. *)
Definition sumOf (f : AmortizationItem -> num) (l : list AmortizationItem) : num :=
  fold_left (fun acc it => (acc + f it)%num) l (ofZ 0).

(** ** Scenarios *)

(** The two scenarios the component starts with. *)
Definition initialScenarioA : ScenarioState :=
  {| purchasePrice := ofZ 500000;
     downPayment := ofZ 100000;
     downPaymentType := "amount";
     interestRate := Fin (Q2Qc (55 # 10));
     amortizationPeriod := 25;
     term := 5;
     paymentFrequency := "monthly";
     extraPayment := ofZ 0;
     paymentIncrease := ofZ 0;
     annualPrepayment := ofZ 0 |}.

Definition initialScenarioB : ScenarioState :=
  {| purchasePrice := ofZ 500000;
     downPayment := ofZ 100000;
     downPaymentType := "amount";
     interestRate := Fin (Q2Qc (45 # 10));
     amortizationPeriod := 25;
     term := 5;
     paymentFrequency := "accelerated_biweekly";
     extraPayment := ofZ 200;
     paymentIncrease := ofZ 0;
     annualPrepayment := ofZ 0 |}.

(** Scenario B with the interest rate field set to 0. *)
Definition zeroRateAccelerated : ScenarioState :=
  withInterestRate (ofZ 0) initialScenarioB.

(** A loan of 60000 at rate 0 over 5 years, paid monthly, with 1000 more
    at each payment: 2000 per payment, so the 30th payment, the 6th of
    year 3, clears the balance. *)
Definition zeroRateExtra : ScenarioState :=
  {| purchasePrice := ofZ 60000;
     downPayment := ofZ 0;
     downPaymentType := "amount";
     interestRate := ofZ 0;
     amortizationPeriod := 5;
     term := 5;
     paymentFrequency := "monthly";
     extraPayment := ofZ 1000;
     paymentIncrease := ofZ 0;
     annualPrepayment := ofZ 0 |}.

(** Scenario A at rate 0, paid every two weeks. *)
Definition zeroRateBiweekly : ScenarioState :=
  withFrequency "biweekly" (withInterestRate (ofZ 0) initialScenarioA).

(** A loan of 100000 at 6% over 5 years, paid every two weeks at the
    accelerated amount. *)
Definition acceleratedFiveYears : ScenarioState :=
  {| purchasePrice := ofZ 100000;
     downPayment := ofZ 0;
     downPaymentType := "amount";
     interestRate := ofZ 6;
     amortizationPeriod := 5;
     term := 5;
     paymentFrequency := "accelerated_biweekly";
     extraPayment := ofZ 0;
     paymentIncrease := ofZ 0;
     annualPrepayment := ofZ 0 |}.

(** A loan of 10000 at 6% over 5 years with a term of 5 years, paid
    monthly with 5000 more at each payment: the second payment clears the
    balance, in year 1. *)
Definition quickPayoff : ScenarioState :=
  {| purchasePrice := ofZ 10000;
     downPayment := ofZ 0;
     downPaymentType := "amount";
     interestRate := ofZ 6;
     amortizationPeriod := 5;
     term := 5;
     paymentFrequency := "monthly";
     extraPayment := ofZ 5000;
     paymentIncrease := ofZ 0;
     annualPrepayment := ofZ 0 |}.

(** ** The schedule as a chain of balances *)

(** Every year's ending balance is the balance the year started from
    minus the year's [principalPaid]. *)
Fixpoint chained (prev : num) (sched : list AmortizationItem) : Prop :=
  match sched with
  | [] => True
  | it :: rest =>
      endingBalance it = (prev - principalPaid it)%num /\
      chained (endingBalance it) rest
  end.

(** The ending balance of the last year, [prev] for the empty schedule. *)
Definition lastBalance (prev : num) (sched : list AmortizationItem) : num :=
  fold_left (fun _ it => endingBalance it) sched prev.

(** Within a year: the balance is the balance at the start of the year
    minus the principal paid so far in the year, and the schedule is not
    touched. *)
Definition yearInv (start : num) (sched : list AmortizationItem)
    (l : Var.Locals) : Prop :=
  Var.balance l = (start - Var.yearlyPrincipalPaid l)%num /\
  Var.yearlySchedule l = sched.

(** Between the years: the schedule is chained from the principal and the
    balance is its last ending balance. *)
Definition scheduleInv (principal : num) (l : Var.Locals) : Prop :=
  chained principal (Var.yearlySchedule l) /\
  Var.balance l = lastBalance principal (Var.yearlySchedule l).

(** ** The log of payments *)

(** The payment logged by [e] is the last payment of the year [term_]. *)
Definition atTermEnd (term_ paymentsPerYear_ : Z) (e : Event) : bool :=
  (ev_year e =? term_) && (ev_index e =? paymentsPerYear_).

(** The payment logged by [e] comes before payment [i] of year [y]. *)
Definition before (y i : Z) (e : Event) : Prop :=
  ev_year e < y \/ (ev_year e = y /\ ev_index e < i).

(** The two term-end variables, in terms of the log, before payment [i] of
    year [y]: they hold the balance and the cumulative interest left by the
    last payment of the year [term_] if it is in the log, and 0 if not. *)
Definition termInv (term_ paymentsPerYear_ : Z) (y i : Z)
    (st : Var.Locals * list Event) : Prop :=
  Forall (before y i) (snd st) /\
  (forall e, In e (snd st) -> atTermEnd term_ paymentsPerYear_ e = true ->
     Var.balanceAtEndOfTerm (fst st) = Var.balance (ev_after e) /\
     Var.totalInterestPaidOverTerm (fst st) = Var.totalInterestPaid (ev_after e)) /\
  ((forall e, In e (snd st) -> atTermEnd term_ paymentsPerYear_ e = false) ->
     Var.balanceAtEndOfTerm (fst st) = ofZ 0 /\
     Var.totalInterestPaidOverTerm (fst st) = ofZ 0).

(** ** A payment on finite values

    On finite values the balance a payment leaves has a closed form: with
    [r] the periodic rate, [A] the adjusted payment and [e] the extra
    payment, the regular payment leaves [max (b(1+r) - A) 0], and the extra
    payment, when positive, is subtracted from it down to 0. *)

Definition qmax (a b : Qc) : Qc := if Qcleb a b then b else a.

Definition owed (r A b : Qc) : Qc := qmax (b * (1 + r) - A)%Qc 0%Qc.

Definition extraPart (e : Qc) : Qc := if Qcltb 0%Qc e then e else 0%Qc.

Definition stepBalance (r A e b : Qc) : Qc :=
  qmax (owed r A b - extraPart e)%Qc 0%Qc.

(** The balance the annual prepayment [pre] leaves. *)
Definition prepaid (pre b : Qc) : Qc := qmax (b - pre)%Qc 0%Qc.

Definition withTerm (t : Z) (s : ScenarioState) : ScenarioState :=
  {| purchasePrice := purchasePrice s;
     downPayment := downPayment s;
     downPaymentType := downPaymentType s;
     interestRate := interestRate s;
     amortizationPeriod := amortizationPeriod s;
     term := t;
     paymentFrequency := paymentFrequency s;
     extraPayment := extraPayment s;
     paymentIncrease := paymentIncrease s;
     annualPrepayment := annualPrepayment s |}.

(** ** Two runs of the schedule loop

    [ahead l l']: the variables [l'] are reached from [l] by running the
    loop further: the interest paid and the payment counter have not
    decreased, and the balance has stayed non-negative if it was. *)
Definition ahead (l l' : Var.Locals) : Prop :=
  exists b t b' t' : Qc,
    Var.balance l = Fin b /\ Var.totalInterestPaid l = Fin t /\
    Var.balance l' = Fin b' /\ Var.totalInterestPaid l' = Fin t' /\
    (t <= t')%Qc /\
    Var.lastPaymentNumber l <= Var.lastPaymentNumber l' /\
    ((0 <= b)%Qc -> (0 <= b')%Qc).

(** [dominates l1 l2]: at the same point of the two loops, the run [l2]
    (with the larger extra payment) owes no more, has paid no more
    interest and has counted no more payments than the run [l1]. *)
Definition dominates (l1 l2 : Var.Locals) : Prop :=
  exists b1 t1 b2 t2 : Qc,
    Var.balance l1 = Fin b1 /\ Var.totalInterestPaid l1 = Fin t1 /\
    Var.balance l2 = Fin b2 /\ Var.totalInterestPaid l2 = Fin t2 /\
    (b2 <= b1)%Qc /\ (t2 <= t1)%Qc /\
    Var.lastPaymentNumber l2 <= Var.lastPaymentNumber l1.

(** ** Paying the loan off

    [refBalance r A M k]: the balance after [k] payments of [A] on a loan of
    [M] at the periodic rate [r], were nothing else paid and the balance
    allowed below zero.  The balance of the program never exceeds it while
    it is positive. *)
Fixpoint refBalance (r A M : Qc) (k : nat) : Qc :=
  match k with
  | O => M
  | Datatypes.S k' => (refBalance r A M k' * (1 + r) - A)%Qc
  end.

(** The invariant of the loops after [k] payment slots: the balance is
    finite and non-negative, it is zero or at most the reference balance,
    and so are the ending balances in the schedule so far. *)
Definition payoffInv (r A M : Qc) (k : nat) (l : Var.Locals) : Prop :=
  exists b : Qc,
    Var.balance l = Fin b /\ (0 <= b)%Qc /\
    ((b <= 0)%Qc \/ (b <= refBalance r A M k)%Qc) /\
    Forall (fun it => finite (endingBalance it)) (Var.yearlySchedule l).

(** The loan of [zeroRateExtra] without the extra payment: 60 payments of
    1000 over the 5 years. *)
Definition zeroRatePlain : ScenarioState :=
  withExtraPayment (ofZ 0) zeroRateExtra.

(** The principal paid by the payments of year [y] before any extra
    payment: the sum of [regularPrincipal] over the payments of the year in
    the log. *)
Definition regularOfYear (annualInterestRate paymentAmount : num)
    (paymentsPerYear_ : Z) (paymentIncrease_ : num) (y : Z)
    (log : list Event) : num :=
  fold_left
    (fun acc e =>
       if ev_year e =? y
       then (acc + regularPrincipal annualInterestRate paymentAmount
                     paymentsPerYear_ paymentIncrease_ (ev_before e))%num
       else acc)
    log (ofZ 0).

(** Before the year [y]: the log and the schedule hold earlier years
    only, and in every year of the schedule [principalPaid] is the regular
    principal of the year plus its [extraPayments]. *)
Definition accountInv (annualInterestRate paymentAmount : num)
    (paymentsPerYear_ : Z) (paymentIncrease_ : num) (y : Z)
    (st : Var.Locals * list Event) : Prop :=
  Forall (fun e => ev_year e < y) (snd st) /\
  Forall (fun it =>
            year it < y /\
            principalPaid it
            = (regularOfYear annualInterestRate paymentAmount paymentsPerYear_
                 paymentIncrease_ (year it) (snd st) + extraPayments it)%num)
         (Var.yearlySchedule (fst st)).

(** Within the year [y]: as [accountInv], with the payments of the year
    [y] in the log and their amounts in the accumulators. *)
Definition accountYearInv (annualInterestRate paymentAmount : num)
    (paymentsPerYear_ : Z) (paymentIncrease_ : num) (y : Z)
    (st : Var.Locals * list Event) : Prop :=
  Forall (fun e => ev_year e <= y) (snd st) /\
  Forall (fun it =>
            year it < y /\
            principalPaid it
            = (regularOfYear annualInterestRate paymentAmount paymentsPerYear_
                 paymentIncrease_ (year it) (snd st) + extraPayments it)%num)
         (Var.yearlySchedule (fst st)) /\
  Var.yearlyPrincipalPaid (fst st)
  = (regularOfYear annualInterestRate paymentAmount paymentsPerYear_
       paymentIncrease_ y (snd st) + Var.yearlyExtraPayments (fst st))%num.

(** ** Finite results *)

Definition finiteItem (it : AmortizationItem) : Prop :=
  finite (principalPaid it) /\ finite (interestPaid it) /\
  finite (extraPayments it) /\ finite (endingBalance it).

Definition finiteLocals (l : Var.Locals) : Prop :=
  finite (Var.balance l) /\ finite (Var.totalInterestPaid l) /\
  finite (Var.totalInterestPaidOverTerm l) /\ finite (Var.balanceAtEndOfTerm l) /\
  finite (Var.yearlyPrincipalPaid l) /\ finite (Var.yearlyInterestPaid l) /\
  finite (Var.yearlyExtraPayments l) /\
  Forall finiteItem (Var.yearlySchedule l).

Definition finiteResult (r : MortgageResult) : Prop :=
  finite (monthlyPayment r) /\ finite (totalMortgage r) /\
  finite (totalInterestTerm r) /\ finite (totalInterestLifetime r) /\
  finite (balanceAtEndOfTerm r) /\ finite (effectiveAmortization r) /\
  Forall finiteItem (amortizationSchedule r).

(** ** Further quantities of the schedule loop *)

Definition withAnnualPrepayment (a : num) (s : ScenarioState) : ScenarioState :=
  {| purchasePrice := purchasePrice s;
     downPayment := downPayment s;
     downPaymentType := downPaymentType s;
     interestRate := interestRate s;
     amortizationPeriod := amortizationPeriod s;
     term := term s;
     paymentFrequency := paymentFrequency s;
     extraPayment := extraPayment s;
     paymentIncrease := paymentIncrease s;
     annualPrepayment := a |}.

(** A loan of 60000 at rate 0 over 5 years with a term of 1 year, paid
    monthly, with 10% of the principal prepaid at the end of each year:
    the 12 payments of year 1 leave 48000, the prepayment 42000. *)
Definition zeroRatePrepaid : ScenarioState :=
  {| purchasePrice := ofZ 60000;
     downPayment := ofZ 0;
     downPaymentType := "amount";
     interestRate := ofZ 0;
     amortizationPeriod := 5;
     term := 1;
     paymentFrequency := "monthly";
     extraPayment := ofZ 0;
     paymentIncrease := ofZ 0;
     annualPrepayment := ofZ 10 |}.

(** Between the years the interest paid so far is the sum of the
    [interestPaid] of the schedule. *)
Definition interestSummed (l : Var.Locals) : Prop :=
  Var.totalInterestPaid l = sumOf interestPaid (Var.yearlySchedule l).

(** The balance the annual prepayment leaves from the balance [b] at the
    end of a year. *)
Definition afterPrepayment (principal annualPrepayment_ b : num) : num :=
  if (annualPrepayment_ >? ofZ 0)%num && (b >? ofZ 0)%num
  then (b - nmin (principal * (annualPrepayment_ / ofZ 100))%num b)%num
  else b.

(** The two term-end variables are as they were initialized. *)
Definition termUnset (l : Var.Locals) : Prop :=
  Var.balanceAtEndOfTerm l = ofZ 0 /\ Var.totalInterestPaidOverTerm l = ofZ 0.

(** The two term-end variables of [l'] are those of [l]. *)
Definition sameTermEnd (l l' : Var.Locals) : Prop :=
  Var.balanceAtEndOfTerm l' = Var.balanceAtEndOfTerm l /\
  Var.totalInterestPaidOverTerm l' = Var.totalInterestPaidOverTerm l.

(** Once the year [term] is in the schedule with an ending balance that is
    not [<= 0], the interest over the term is the interest of the years up
    to [term], and the ending balance of the year [term] is what the annual
    prepayment leaves of the balance at the end of the term. *)
Definition termRecorded (principal annualPrepayment_ : num) (term_ : Z)
    (l : Var.Locals) : Prop :=
  forall it,
    nth_error (Var.yearlySchedule l) (Z.to_nat (term_ - 1)) = Some it ->
    (endingBalance it <=? ofZ 0)%num = false ->
    Var.totalInterestPaidOverTerm l
    = sumOf interestPaid (firstn (Z.to_nat term_) (Var.yearlySchedule l)) /\
    endingBalance it
    = afterPrepayment principal annualPrepayment_ (Var.balanceAtEndOfTerm l).

(** Every value of the list is [>= 0] and [<=] the value before it,
    [prev] for the first. *)
Fixpoint nonincreasing (prev : num) (bs : list num) : Prop :=
  match bs with
  | [] => True
  | b :: rest => nle (ofZ 0) b /\ nle b prev /\ nonincreasing b rest
  end.

(** The variables of a loan with non-negative amounts whose payment covers
    the interest on the principal [M]: the balances so far never increase
    and never fall below 0, and the interest amounts are not negative. *)
Definition soundLocals (M : Qc) (l : Var.Locals) : Prop :=
  exists b t tt bt yi : Qc,
    Var.balance l = Fin b /\ Var.totalInterestPaid l = Fin t /\
    Var.totalInterestPaidOverTerm l = Fin tt /\
    Var.balanceAtEndOfTerm l = Fin bt /\
    Var.yearlyInterestPaid l = Fin yi /\
    (0 <= tt)%Qc /\ (tt <= t)%Qc /\ (0 <= bt)%Qc /\ (bt <= M)%Qc /\
    (0 <= yi)%Qc /\
    nonincreasing (Fin M)
      (map endingBalance (Var.yearlySchedule l) ++ [Fin b]) /\
    Forall (fun it => nle (ofZ 0) (interestPaid it)) (Var.yearlySchedule l).

(** The variables [l] and [l'] differ in the two term-end variables at
    most. *)
Definition sameButTermEnd (l l' : Var.Locals) : Prop :=
  Var.balance l' = Var.balance l /\
  Var.totalInterestPaid l' = Var.totalInterestPaid l /\
  Var.yearlySchedule l' = Var.yearlySchedule l /\
  Var.lastPaymentNumber l' = Var.lastPaymentNumber l /\
  Var.yearlyPrincipalPaid l' = Var.yearlyPrincipalPaid l /\
  Var.yearlyInterestPaid l' = Var.yearlyInterestPaid l /\
  Var.yearlyExtraPayments l' = Var.yearlyExtraPayments l.

(** ** The data of the charts *)

(** [Math.abs]. *)
Definition nabs (x : num) : num :=
  match x with
  | Fin a => if Qcltb a 0 then Fin (- a) else Fin a
  | PInf | NInf => PInf
  | NaN => NaN
  end.

(** A point of the balance chart. *)
Module Point.
Record t : Type := {
  year : Z;
  scenarioA : num;
  scenarioB : num
}.
End Point.

(** [i < schedule.length ? schedule[i].endingBalance : 0] *)
Definition endingBalanceAt (schedule : list AmortizationItem) (i : Z) : num :=
  if i <? Z.of_nat (length schedule) then
    match nth_error schedule (Z.to_nat i) with
    | Some it => endingBalance it
    | None => NaN (* not reached: [i] is an index of the schedule *)
    end
  else ofZ 0.

(** [prepareBalanceComparisonData] reads the comparison of the component's
    state, which is passed in. *)
Definition prepareBalanceComparisonData (comparison : ComparisonState)
  : list Point.t :=
  let scheduleA := amortizationSchedule (scenarioA comparison) in
  let scheduleB := amortizationSchedule (scenarioB comparison) in
  if (length scheduleA =? 0)%nat || (length scheduleB =? 0)%nat then []
  else
    let maxYears := Nat.max (length scheduleA) (length scheduleB) in
    for_range
      (fun i data =>
         (data ++ [ {| Point.year := i + 1;
                       Point.scenarioA := endingBalanceAt scheduleA i;
                       Point.scenarioB := endingBalanceAt scheduleB i |} ],
          false))
      maxYears 0 [].

(** A row of the interest chart. *)
Module InterestRow.
Record t : Type := {
  name : string;
  scenarioA : num;
  scenarioB : num;
  savings : num
}.
End InterestRow.

Definition prepareInterestComparisonData (comparison : ComparisonState)
  : list InterestRow.t :=
  [ {| InterestRow.name := "Over Term";
       InterestRow.scenarioA := totalInterestTerm (scenarioA comparison);
       InterestRow.scenarioB := totalInterestTerm (scenarioB comparison);
       InterestRow.savings :=
         nabs (Diff.totalInterestTerm (differences comparison)) |};
    {| InterestRow.name := "Lifetime";
       InterestRow.scenarioA := totalInterestLifetime (scenarioA comparison);
       InterestRow.scenarioB := totalInterestLifetime (scenarioB comparison);
       InterestRow.savings :=
         nabs (Diff.totalInterestLifetime (differences comparison)) |} ].

(** The "Better Option" of the summary card:
    [differences.totalInterestLifetime <= 0 ? 'Scenario A' : 'Scenario B']. *)
Definition betterOption (comparison : ComparisonState) : string :=
  if (Diff.totalInterestLifetime (differences comparison) <=? ofZ 0)%num
  then "Scenario A" else "Scenario B".

(** The "Lifetime Savings" of the summary card, before formatting. *)
Definition lifetimeSavings (comparison : ComparisonState) : num :=
  nabs (Diff.totalInterestLifetime (differences comparison)).

(** ** The input handlers *)

(** [Math.round]: the nearest integer, a tie going up. *)
Definition nround (x : num) : num :=
  match x with
  | Fin a => Fin (Q2Qc (inject_Z (Qfloor (this a + (1 # 2)))))
  | _ => x
  end.

(** A value held by a field of a scenario at run time.  The type of the
    scenarios declares numbers and strings, and the handlers store the
    empty string in the numeric fields. *)
Inductive jsvalue : Type :=
| JNum (n : num)
| JStr (s : string).

(** The object of a scenario: its keys with their values, in order. *)
Definition object : Type := list (string * jsvalue).

(** [o[k]]; [None] is [undefined]. *)
Fixpoint get (o : object) (k : string) : option jsvalue :=
  match o with
  | [] => None
  | (k', v) :: rest => if String.eqb k' k then Some v else get rest k
  end.

(** [{ ...o, [k]: v }] *)
Fixpoint set (o : object) (k : string) (v : jsvalue) : object :=
  match o with
  | [] => [(k, v)]
  | (k', v') :: rest =>
      if String.eqb k' k then (k', v) :: rest else (k', v') :: set rest k v
  end.

(** [v === s] for a string [s]. *)
Definition isString (s : string) (v : jsvalue) : bool :=
  match v with
  | JStr s' => String.eqb s' s
  | JNum _ => false
  end.

(** [o[k] === s] for a string [s]. *)
Definition fieldIs (o : object) (k s : string) : bool :=
  match get o k with
  | Some v => isString s v
  | None => false
  end.

(** [typeof o[k] === 'number'] *)
Definition isNumberField (o : object) (k : string) : bool :=
  match get o k with
  | Some (JNum _) => true
  | _ => false
  end.

(** [typeof o[k] === 'number' ? o[k] : 0] *)
Definition numberOrZero (v : option jsvalue) : num :=
  match v with
  | Some (JNum n) => n
  | _ => ofZ 0
  end.

Definition isDigit (c : ascii) : bool :=
  let n := nat_of_ascii c in (48 <=? n)%nat && (n <=? 57)%nat.

(** [s.replace(/^0+(?=\d)/, '')]: the zeros at the head of [s] that are
    followed by a digit are removed. *)
Fixpoint stripLeadingZeros (s : string) : string :=
  match s with
  | String "0"%char (String c rest as tl) =>
      if isDigit c then stripLeadingZeros tl else s
  | _ => s
  end.

(** The number written by a string of decimal digits, from the left with
    the accumulator [acc]; [None] when a character is not a digit. *)
Fixpoint digitsValue (acc : Z) (s : string) : option Z :=
  match s with
  | EmptyString => Some acc
  | String c rest =>
      if isDigit c
      then digitsValue (10 * acc + (Z.of_nat (nat_of_ascii c) - 48)) rest
      else None
  end.

(** A conversion of strings to numbers that is [Number] on the strings of
    decimal digits, for the examples; every other string is given [NaN]. *)
Definition numberOfDigits (s : string) : num :=
  match digitsValue 0 s with
  | Some z => ofZ z
  | None => NaN
  end.

Section Handlers.

(** [Number(s)] and [String(n)] of the language are not modelled: the
    handlers are embedded for every conversion of strings to numbers and of
    numbers to strings. *)
Variable Number_ : string -> num.
Variable String_ : num -> string.

(** [Number(v)] *)
Definition toNumber (v : jsvalue) : num :=
  match v with
  | JNum n => n
  | JStr s => Number_ s
  end.

(** The body of [handleScenarioAChange] and of [handleScenarioBChange],
    which differ in the scenario they read and set only: the scenario read
    is passed in, the scenario set is returned. *)
Definition handleScenarioChange (scenario : object) (name : string)
    (value : jsvalue) : object :=
  if isString "" value then set scenario name (JStr "")
  else
    let value :=
      if isNumberField scenario name then
        let numericValue :=
          match value with
          | JStr s => stripLeadingZeros s
          | JNum n => String_ n
          end in
        JNum (Number_ numericValue)
      else value in
    let updatedInputs := set scenario name value in
    if String.eqb name "purchasePrice"
       && fieldIs scenario "downPaymentType" "percent" then
      let purchasePrice := numberOrZero (Some value) in
      let downPaymentPercent := numberOrZero (get scenario "downPayment") in
      set updatedInputs "downPayment"
        (JNum (nround (purchasePrice * (downPaymentPercent / ofZ 100)
                       / ofZ 100) * ofZ 100)%num)
    else if String.eqb name "downPayment" then
      if fieldIs scenario "downPaymentType" "percent" then
        let numValue := toNumber value in
        let value := if (numValue >? ofZ 100)%num then JNum (ofZ 100) else value in
        set updatedInputs "downPayment" (JNum (toNumber value))
      else
        let purchasePrice := numberOrZero (get scenario "purchasePrice") in
        let numValue := toNumber value in
        let value :=
          if (numValue >? purchasePrice)%num then JNum purchasePrice else value in
        set updatedInputs "downPayment" (JNum (toNumber value))
    else if String.eqb name "downPaymentType" then
      let purchasePrice := numberOrZero (get scenario "purchasePrice") in
      let downPayment := numberOrZero (get scenario "downPayment") in
      if isString "percent" value then
        set updatedInputs "downPayment"
          (JNum (nround (downPayment / purchasePrice * ofZ 100)%num))
      else
        set updatedInputs "downPayment"
          (JNum (nround (purchasePrice * (downPayment / ofZ 100) / ofZ 100)
                 * ofZ 100)%num)
    else updatedInputs.

(** The two scenarios of the component's state. *)
Record Inputs : Type := {
  inputA : object;
  inputB : object
}.

Definition handleScenarioAChange (name : string) (value : jsvalue)
    (st : Inputs) : Inputs :=
  {| inputA := handleScenarioChange (inputA st) name value;
     inputB := inputB st |}.

Definition handleScenarioBChange (name : string) (value : jsvalue)
    (st : Inputs) : Inputs :=
  {| inputA := inputA st;
     inputB := handleScenarioChange (inputB st) name value |}.

End Handlers.

(** [if (scenario[name] === '') set({ ...prev, [name]: 0 })] *)
Definition blurField (scenario : object) (name : string) : object :=
  if fieldIs scenario name "" then set scenario name (JNum (ofZ 0))
  else scenario.

(** [handleBlur]: [inA] is [scenario === 'A']. *)
Definition handleBlur (inA : bool) (name : string) (st : Inputs) : Inputs :=
  if inA then {| inputA := blurField (inputA st) name; inputB := inputB st |}
  else {| inputA := inputA st; inputB := blurField (inputB st) name |}.

(** [Object.values(o).some(value => value === '')]: the comparison is not
    calculated while this holds of either scenario. *)
Definition someEmpty (o : object) : bool :=
  existsb (fun kv => isString "" (snd kv)) o.

(** The object of a scenario whose fields hold their declared types. *)
Definition objectOf (s : ScenarioState) : object :=
  [ ("purchasePrice", JNum (purchasePrice s));
    ("downPayment", JNum (downPayment s));
    ("downPaymentType", JStr (downPaymentType s));
    ("interestRate", JNum (interestRate s));
    ("amortizationPeriod", JNum (ofZ (amortizationPeriod s)));
    ("term", JNum (ofZ (term s)));
    ("paymentFrequency", JStr (paymentFrequency s));
    ("extraPayment", JNum (extraPayment s));
    ("paymentIncrease", JNum (paymentIncrease s));
    ("annualPrepayment", JNum (annualPrepayment s)) ]%string.

(** Scenario A with a down payment of 20 percent. *)
Definition percentScenario : ScenarioState :=
  {| purchasePrice := ofZ 500000;
     downPayment := ofZ 20;
     downPaymentType := "percent";
     interestRate := Fin (Q2Qc (55 # 10));
     amortizationPeriod := 25;
     term := 5;
     paymentFrequency := "monthly";
     extraPayment := ofZ 0;
     paymentIncrease := ofZ 0;
     annualPrepayment := ofZ 0 |}.

(** The string starts with a zero followed by a digit. *)
Definition leadingZero (s : string) : bool :=
  match s with
  | String "0"%char (String c _) => isDigit c
  | _ => false
  end.

(** A conversion of numbers to strings that is [String] on the integers,
    for the examples. *)
Definition stringOfInteger (n : num) : string :=
  match n with
  | Fin q => NilZero.string_of_int (Z.to_int (Qfloor q))
  | PInf => "Infinity"
  | NInf => "-Infinity"
  | NaN => "NaN"
  end.

(** * Properties *)

(** ** Rationals in lowest terms *)

Lemma Qcleb_le (a b : Qc) : Qcleb a b = true <-> (a <= b)%Qc.
Proof. unfold Qcleb, Qcle. apply Qle_bool_iff. Qed.

Lemma Qcleb_gt (a b : Qc) : Qcleb a b = false <-> (b < a)%Qc.
Proof.
  unfold Qcleb, Qclt. split; intros H.
  - apply Qnot_le_lt. intros Hle. apply Qle_bool_iff in Hle. congruence.
  - destruct (Qle_bool a b) eqn:E; [|reflexivity].
    apply Qle_bool_iff in E. exfalso. apply (Qlt_not_le _ _ H E).
Qed.

Lemma Qcltb_lt (a b : Qc) : Qcltb a b = true <-> (a < b)%Qc.
Proof.
  unfold Qcltb. rewrite negb_true_iff. apply (Qcleb_gt b a).
Qed.

Lemma Qcltb_ge (a b : Qc) : Qcltb a b = false <-> (b <= a)%Qc.
Proof.
  unfold Qcltb. rewrite negb_false_iff. apply (Qcleb_le b a).
Qed.

Lemma Qceqb_eq (a b : Qc) : Qceqb a b = true <-> a = b.
Proof.
  unfold Qceqb. rewrite Qeq_bool_iff. split.
  - apply Qc_is_canon.
  - intros ->. reflexivity.
Qed.

Lemma Qceqb_neq (a b : Qc) : Qceqb a b = false <-> a <> b.
Proof.
  split.
  - intros H E. apply Qceqb_eq in E. congruence.
  - intros H. destruct (Qceqb a b) eqn:E; [|reflexivity].
    apply Qceqb_eq in E. contradiction.
Qed.

Lemma Qc_eq_Qeq (x y : Qc) : x = y <-> (this x == this y)%Q.
Proof. split; [intros ->; reflexivity | apply Qc_is_canon]. Qed.

Lemma this_plus (x y : Qc) : (this (x + y) == this x + this y)%Q.
Proof. unfold Qcplus, Q2Qc; cbn [this]. apply Qred_correct. Qed.

Lemma this_mult (x y : Qc) : (this (x * y) == this x * this y)%Q.
Proof. unfold Qcmult, Q2Qc; cbn [this]. apply Qred_correct. Qed.

Lemma this_opp (x : Qc) : (this (- x) == - this x)%Q.
Proof. unfold Qcopp, Q2Qc; cbn [this]. apply Qred_correct. Qed.

Lemma this_minus (x y : Qc) : (this (x - y) == this x - this y)%Q.
Proof. unfold Qcminus. rewrite this_plus, this_opp. reflexivity. Qed.

Lemma this_Q2Qc (q : Q) : (this (Q2Qc q) == q)%Q.
Proof. apply Qred_correct. Qed.

(** Goals and hypotheses of the ordered field [Qc], without division, are
    sent to [Q], where [lra] and [nra] decide them. *)
Ltac qc2q :=
  repeat match goal with
  | H : @eq Qc _ _ |- _ => apply Qc_eq_Qeq in H
  | H : ~ @eq Qc _ _ |- _ => rewrite Qc_eq_Qeq in H
  | |- @eq Qc _ _ => apply Qc_is_canon
  | |- ~ @eq Qc _ _ => rewrite Qc_eq_Qeq
  end;
  unfold Qcle, Qclt in *;
  repeat first
    [ rewrite this_minus in * | rewrite this_plus in *
    | rewrite this_mult in * | rewrite this_opp in *
    | rewrite this_Q2Qc in * ];
  cbn [this] in *; unfold inject_Z in *.

Ltac qc_lra := qc2q; lra.

(** Comparisons of the program, reflected. *)
Ltac reflect_cmp :=
  repeat match goal with
  | H : Qcleb _ _ = true |- _ => apply Qcleb_le in H
  | H : Qcleb _ _ = false |- _ => apply Qcleb_gt in H
  | H : Qcltb _ _ = true |- _ => apply Qcltb_lt in H
  | H : Qcltb _ _ = false |- _ => apply Qcltb_ge in H
  | H : Qceqb _ _ = true |- _ => apply Qceqb_eq in H
  | H : Qceqb _ _ = false |- _ => apply Qceqb_neq in H
  end.

Lemma Fin_inj (a b : Qc) : Fin a = Fin b -> a = b.
Proof.
  intros H.
  exact (f_equal (fun x => match x with Fin q => q | _ => a end) H).
Qed.

Lemma num_eqb_eq (x y : num) : num_eqb x y = true <-> x = y.
Proof.
  destruct x, y; simpl; try (split; [discriminate | congruence]);
    try (split; reflexivity).
  rewrite Qceqb_eq. split; [congruence | apply Fin_inj].
Qed.

(** ** Numbers *)

Lemma ofZ_mul a b : ofZ (a * b) = (ofZ a * ofZ b)%num.
Proof.
  unfold ofZ. simpl. f_equal. apply Qc_is_canon.
  rewrite this_mult, !this_Q2Qc, inject_Z_mult. reflexivity.
Qed.

Lemma ndiv_fin (a b : Qc) : b <> 0%Qc -> (Fin a / Fin b)%num = Fin (a / b).
Proof. intros H. simpl. apply Qceqb_neq in H. rewrite H. reflexivity. Qed.

Lemma Q2Qc_inject_neq0 (z : Z) : z <> 0 -> Q2Qc (inject_Z z) <> 0%Qc.
Proof.
  intros Hz H. apply Qc_eq_Qeq in H. rewrite !this_Q2Qc in H.
  unfold Qeq, inject_Z in H; simpl in H. lia.
Qed.

Lemma Q2Qc_inject_pos (z : Z) : 0 < z -> (0 < Q2Qc (inject_Z z))%Qc.
Proof.
  intros Hz. unfold Qclt. rewrite !this_Q2Qc.
  unfold Qlt, inject_Z; simpl. lia.
Qed.

Lemma this_inv (x : Qc) : (this (/ x) == / this x)%Q.
Proof. unfold Qcinv, Q2Qc; cbn [this]. apply Qred_correct. Qed.

Lemma this_div (x y : Qc) : (this (x / y) == this x / this y)%Q.
Proof. unfold Qcdiv. rewrite this_mult, this_inv. reflexivity. Qed.

Lemma this_powz (x : Qc) (n : Z) : (this (Qcpowz x n) == this x ^ n)%Q.
Proof. apply this_Q2Qc. Qed.

Arguments Qcplus : simpl never.
Arguments Qcmult : simpl never.
Arguments Qcopp : simpl never.
Arguments Qcminus : simpl never.
Arguments Qcinv : simpl never.
Arguments Qcdiv : simpl never.
Arguments Q2Qc : simpl never.
Arguments Qcpowz : simpl never.
Arguments Qcleb : simpl never.
Arguments Qcltb : simpl never.
Arguments Qceqb : simpl never.

Lemma ofZ_1 : ofZ 1 = Fin 1%Qc.
Proof. reflexivity. Qed.
Lemma ofZ_0 : ofZ 0 = Fin 0%Qc.
Proof. reflexivity. Qed.

Lemma npow_fin_pos (a : Qc) (n : Z) : 0 < n -> npow (Fin a) n = Fin (Qcpowz a n).
Proof.
  intros Hn. unfold npow.
  destruct (Z.eqb_spec n 0); [lia|].
  destruct (Z.ltb_spec n 0); [lia|]. reflexivity.
Qed.

Lemma Qcpowz_gt1 (a : Qc) (n : Z) : (1 < a)%Qc -> 0 < n -> (1 < Qcpowz a n)%Qc.
Proof.
  intros Ha Hn. unfold Qclt in *. rewrite this_powz.
  apply Qpower_1_lt; assumption.
Qed.

Lemma periodic_fin (R : Qc) (p : Z) :
  0 < p ->
  (Fin R / ofZ 100 / ofZ p)%num = Fin (R / Q2Qc 100 / Q2Qc (inject_Z p)).
Proof.
  intros Hp. unfold ofZ.
  rewrite ndiv_fin by (apply Q2Qc_inject_neq0; lia).
  rewrite ndiv_fin by (apply Q2Qc_inject_neq0; lia).
  reflexivity.
Qed.

Lemma Qcdiv_pos (a b : Qc) : (0 < a)%Qc -> (0 < b)%Qc -> (0 < a / b)%Qc.
Proof.
  intros Ha Hb. unfold Qclt in *. rewrite this_div.
  change (this 0%Qc) with 0%Q in *.
  apply Qlt_shift_div_l; [assumption|]. rewrite Qmult_0_l. assumption.
Qed.

Lemma periodic_pos (R : Qc) (p : Z) :
  (0 < R)%Qc -> 0 < p -> (0 < R / Q2Qc 100 / Q2Qc (inject_Z p))%Qc.
Proof.
  intros HR Hp. apply Qcdiv_pos; [apply Qcdiv_pos|].
  - assumption.
  - apply (Q2Qc_inject_pos 100). lia.
  - apply Q2Qc_inject_pos. assumption.
Qed.

(** The annuity formula on finite arguments, at a positive rate. *)
Lemma annuityFormula_fin (m r : Qc) (n : Z) :
  (0 < r)%Qc -> 0 < n ->
  let X := Qcpowz (1 + r) n in
  (1 < X)%Qc /\
  annuityFormula (Fin m) (Fin r) n = Fin (m * (r * X) / (X - 1)).
Proof.
  intros Hr Hn X.
  assert (HX : (1 < X)%Qc).
  { apply Qcpowz_gt1; [|assumption]. qc_lra. }
  split; [assumption|].
  unfold annuityFormula. rewrite ofZ_1. cbn [nadd].
  rewrite npow_fin_pos by assumption. fold X.
  cbn [nmul nsub nneg nadd].
  rewrite ndiv_fin.
  - reflexivity.
  - intros H. qc_lra.
Qed.

(** ** Loops *)

Lemma for_range_logged {S E : Type} (ev : Z -> S -> S -> E) body n :
  forall i s t, fst (for_range (logged ev body) n i (s, t)) = for_range body n i s.
Proof.
  induction n as [|n IH]; intros i s t; simpl; [reflexivity|].
  unfold logged at 1; simpl. destruct (body i s) as [s' [|]]; simpl.
  - reflexivity.
  - apply IH.
Qed.

Section Erase.

Variables (principal annualInterestRate : num) (amortizationYears : Z)
          (paymentAmount : num) (paymentsPerYear_ term_ : Z)
          (extraPayment_ paymentIncrease_ annualPrepayment_ : num).

Lemma paymentsOfYearT_erase y l t :
  fst (paymentsOfYearT annualInterestRate paymentAmount paymentsPerYear_ term_
         extraPayment_ paymentIncrease_ y (l, t))
  = paymentsOfYear annualInterestRate paymentAmount paymentsPerYear_ term_
      extraPayment_ paymentIncrease_ y l.
Proof. apply for_range_logged. Qed.

Lemma yearLoopT_erase n :
  forall y l t,
    fst (for_range
           (yearIterT principal annualInterestRate paymentAmount paymentsPerYear_
              term_ extraPayment_ paymentIncrease_ annualPrepayment_) n y (l, t))
    = for_range
        (yearIter principal annualInterestRate paymentAmount paymentsPerYear_
           term_ extraPayment_ paymentIncrease_ annualPrepayment_) n y l.
Proof.
  induction n as [|n IH]; intros y l t; simpl; [reflexivity|].
  unfold yearIterT at 1, yearIter at 1; cbn [fst snd].
  rewrite paymentsOfYearT_erase.
  match goal with |- context [if ?c then _ else _] => destruct c end.
  - reflexivity.
  - match goal with |- context [for_range _ n _ (?a, ?b)] => apply (IH _ a b) end.
Qed.

(** The logged run computes the variables of the plain run. *)
Lemma scheduleLoopT_erase :
  fst (scheduleLoopT principal annualInterestRate amortizationYears paymentAmount
         paymentsPerYear_ term_ extraPayment_ paymentIncrease_ annualPrepayment_)
  = scheduleLoop principal annualInterestRate amortizationYears paymentAmount
      paymentsPerYear_ term_ extraPayment_ paymentIncrease_ annualPrepayment_.
Proof. apply yearLoopT_erase. Qed.

End Erase.

(** ** Invariants of the loops *)

Lemma for_range_inv {St : Type} (body : Z -> St -> St * bool)
    (P : Z -> St -> Prop) (Q : St -> Prop) :
  (forall i s, P i s -> snd (body i s) = false -> P (i + 1) (fst (body i s))) ->
  (forall i s, P i s -> snd (body i s) = true -> Q (fst (body i s))) ->
  forall n i s,
    P i s -> (forall s', P (i + Z.of_nat n) s' -> Q s') ->
    Q (for_range body n i s).
Proof.
  intros Hstep Hbrk. induction n as [|n IH]; intros i s HP Hend.
  - simpl. apply Hend. rewrite Z.add_0_r. assumption.
  - simpl. specialize (Hstep i s HP). specialize (Hbrk i s HP).
    destruct (body i s) as [s' [|]]; cbn [fst snd] in *.
    + apply Hbrk. reflexivity.
    + apply IH.
      * apply Hstep. reflexivity.
      * intros s'' H. apply Hend.
        replace (i + Z.of_nat (S n)) with (i + 1 + Z.of_nat n) by lia.
        assumption.
Qed.

(** An invariant that does not depend on the index. *)
Lemma for_range_preserves {St : Type} (body : Z -> St -> St * bool) (P : St -> Prop) :
  (forall i s, P s -> P (fst (body i s))) ->
  forall n i s, P s -> P (for_range body n i s).
Proof.
  intros Hstep n i s HP.
  apply (for_range_inv body (fun _ => P) P); auto.
Qed.

Section LogSound.

Variables (principal annualInterestRate : num) (amortizationYears : Z)
          (paymentAmount : num) (paymentsPerYear_ term_ : Z)
          (extraPayment_ paymentIncrease_ annualPrepayment_ : num).

(** Every event of the log is a payment the loop executed: the balance
    before it was not [<= 0], and the variables after it are those the
    payment leaves. *)
Let executed (e : Event) : Prop :=
  (Var.balance (ev_before e) <=? ofZ 0)%num = false /\
  ev_after e
  = payment annualInterestRate paymentAmount paymentsPerYear_ term_
      extraPayment_ paymentIncrease_ (ev_year e) (ev_index e)
      (countPayment (ev_before e)).

Lemma paymentsExecuted_sound :
  Forall executed
    (paymentsExecuted principal annualInterestRate amortizationYears
       paymentAmount paymentsPerYear_ term_ extraPayment_ paymentIncrease_
       annualPrepayment_).
Proof.
  unfold paymentsExecuted, scheduleLoopT.
  apply (for_range_preserves _ (fun st => Forall executed (snd st)));
    [|constructor].
  intros y st Hst. unfold yearIterT; cbn [fst snd]. unfold paymentsOfYearT.
  apply (for_range_preserves _ (fun st => Forall executed (snd st)));
    [|exact Hst].
  intros i [l log] Hlog. unfold logged, paymentIter; cbn [fst snd] in *.
  destruct (nleb _ _) eqn:E; cbn [fst snd]; [exact Hlog|].
  apply Forall_app. split; [exact Hlog|].
  constructor; [|constructor]. split; [exact E | reflexivity].
Qed.

End LogSound.

(** ** What the annual prepayment leaves untouched *)

Lemma applyPrepayment_interest principal ap l :
  Var.totalInterestPaid (applyPrepayment principal ap l) = Var.totalInterestPaid l.
Proof. unfold applyPrepayment. destruct (_ && _); reflexivity. Qed.

Lemma applyPrepayment_count principal ap l :
  Var.lastPaymentNumber (applyPrepayment principal ap l) = Var.lastPaymentNumber l.
Proof. unfold applyPrepayment. destruct (_ && _); reflexivity. Qed.

Lemma applyPrepayment_schedule principal ap l :
  Var.yearlySchedule (applyPrepayment principal ap l) = Var.yearlySchedule l.
Proof. unfold applyPrepayment. destruct (_ && _); reflexivity. Qed.

Lemma nleb_fin_0 (b : Qc) : (Fin b <=? ofZ 0)%num = Qcleb b 0%Qc.
Proof. reflexivity. Qed.

(** ** Compounding more often

    [(1 + x/12)^12 <= (1 + x/26)^26] and [(1 + x/12)^12 <= (1 + x/52)^52]
    for a rate [x >= 0]: with [s = x/156] they follow from
    [(1+13s)^6 <= (1+6s)^13] and [(1+13s)^3 <= (1+3s)^13], whose differences
    are polynomials in [s] with non-negative coefficients. *)

Section Compounding.

Local Open Scope Q_scope.

Lemma horner_nonneg (c s t : Q) : 0 <= c -> 0 <= s -> 0 <= t -> 0 <= c + s * t.
Proof.
intros Hc Hs Ht. setoid_replace 0 with (0 + 0) by ring.
apply Qplus_le_compat; [assumption | apply Qmult_le_0_compat; assumption].
Qed.

Lemma compound_13_6 (s : Q) : 0 <= s ->
(1 + 13 * s) ^ 6 <= (1 + 6 * s) ^ 13.
Proof.
intros Hs. apply Qle_minus_iff.
assert (E : (1 + 6 * s) ^ 13 + - (1 + 13 * s) ^ 6
            == s * (s * (273 + s * (17836 + s * (498225 + s * (7779954 + s *
               (75234887 + s * (480370176 + s * (2161665792 + s *
               (7205552640 + s * (17293326336 + s * (28298170368 + s
               * (28298170368 + s * 13060694016))))))))))))) by ring.
rewrite E.
repeat first [ apply Qmult_le_0_compat; [exact Hs|]
             | apply horner_nonneg; [discriminate | exact Hs |]
             | discriminate ].
Qed.

Lemma compound_13_3 (s : Q) : 0 <= s ->
(1 + 13 * s) ^ 3 <= (1 + 3 * s) ^ 13.
Proof.
intros Hs. apply Qle_minus_iff.
assert (E : (1 + 3 * s) ^ 13 + - (1 + 13 * s) ^ 3
            == s * (s * (195 + s * (5525 + s * (57915 + s * (312741 + s * (1250964 +
               s * (3752892 + s * (8444007 + s * (14073345 + s *
               (16888014 + s * (13817466 + s * (6908733 + s *
               1594323))))))))))))) by ring.
rewrite E.
repeat first [ apply Qmult_le_0_compat; [exact Hs|]
             | apply horner_nonneg; [discriminate | exact Hs |]
             | discriminate ].
Qed.

Lemma Qpower_le_base (a b : Q) (n : nat) :
0 <= a -> a <= b -> a ^ Z.of_nat n <= b ^ Z.of_nat n.
Proof.
intros Ha Hab. induction n as [|n IH].
- simpl. apply Qle_refl.
- rewrite Nat2Z.inj_succ. unfold Z.succ.
  rewrite !Qpower_plus' by lia. rewrite !Qpower_1_r.
  assert (H1 : 0 <= a ^ Z.of_nat n) by (apply Qpower_0_le; assumption).
  generalize dependent (a ^ Z.of_nat n). generalize (b ^ Z.of_nat n).
  intros u v Huv Hv. nra.
Qed.

Lemma accelerated_gap_2 (M x X Z : Q) :
0 < M -> 0 < x -> 1 < X -> X <= Z ->
M * (x / 26 * Z) / (Z - 1) < M * (x / 12 * X) / (X - 1) / 2.
Proof.
intros HM Hx HX HZ.
apply Qlt_minus_iff.
setoid_replace (M * (x / 12 * X) / (X - 1) / 2 + - (M * (x / 26 * Z) / (Z - 1)))
  with (M * x * (X * (Z - 1) + 12 * (Z - X)) / (312 * ((X - 1) * (Z - 1))))
  by (field; split; lra).
apply Qlt_shift_div_l.
- assert (0 < (X - 1) * (Z - 1)) by nra. lra.
- rewrite Qmult_0_l.
  assert (0 < M * x) by nra.
  assert (0 < X * (Z - 1) + 12 * (Z - X)) by nra.
  nra.
Qed.

Lemma accelerated_gap_4 (M x X Z : Q) :
0 < M -> 0 < x -> 1 < X -> X <= Z ->
M * (x / 52 * Z) / (Z - 1) < M * (x / 12 * X) / (X - 1) / 4.
Proof.
intros HM Hx HX HZ.
apply Qlt_minus_iff.
setoid_replace (M * (x / 12 * X) / (X - 1) / 4 + - (M * (x / 52 * Z) / (Z - 1)))
  with (M * x * (X * (Z - 1) + 12 * (Z - X)) / (624 * ((X - 1) * (Z - 1))))
  by (field; split; lra).
apply Qlt_shift_div_l.
- assert (0 < (X - 1) * (Z - 1)) by nra. lra.
- rewrite Qmult_0_l.
  assert (0 < M * x) by nra.
  assert (0 < X * (Z - 1) + 12 * (Z - X)) by nra.
  nra.
Qed.

Lemma accelerated_gap_2_le (M x X Z : Q) :
  0 <= M -> 0 < x -> 1 < X -> X <= Z ->
  M * (x / 26 * Z) / (Z - 1) <= M * (x / 12 * X) / (X - 1) / 2.
Proof.
  intros HM Hx HX HZ. destruct (Qlt_le_dec 0 M) as [Hpos|Hle].
  - apply Qlt_le_weak, accelerated_gap_2; assumption.
  - assert (E : M == 0) by lra. rewrite E. unfold Qdiv.
    rewrite !Qmult_0_l. apply Qle_refl.
Qed.

Lemma accelerated_gap_4_le (M x X Z : Q) :
  0 <= M -> 0 < x -> 1 < X -> X <= Z ->
  M * (x / 52 * Z) / (Z - 1) <= M * (x / 12 * X) / (X - 1) / 4.
Proof.
  intros HM Hx HX HZ. destruct (Qlt_le_dec 0 M) as [Hpos|Hle].
  - apply Qlt_le_weak, accelerated_gap_4; assumption.
  - assert (E : M == 0) by lra. rewrite E. unfold Qdiv.
    rewrite !Qmult_0_l. apply Qle_refl.
Qed.

Lemma compound_26_12 (x : Q) (Y : Z) :
0 <= x -> (0 <= Y)%Z ->
(1 + x / 12) ^ (Y * 12) <= (1 + x / 26) ^ (Y * 26).
Proof.
intros Hx HY.
assert (Hs : 0 <= x / 156).
{ apply Qle_shift_div_l; [reflexivity | lra]. }
setoid_replace (1 + x / 12) with (1 + 13 * (x / 156)) by field.
setoid_replace (1 + x / 26) with (1 + 6 * (x / 156)) by field.
replace (Y * 12)%Z with (6 * Z.of_nat (Z.to_nat (2 * Y)))%Z by lia.
replace (Y * 26)%Z with (13 * Z.of_nat (Z.to_nat (2 * Y)))%Z by lia.
rewrite !Qpower_mult.
apply Qpower_le_base.
- apply Qpower_0_le. lra.
- apply compound_13_6. assumption.
Qed.

Lemma compound_52_12 (x : Q) (Y : Z) :
0 <= x -> (0 <= Y)%Z ->
(1 + x / 12) ^ (Y * 12) <= (1 + x / 52) ^ (Y * 52).
Proof.
intros Hx HY.
assert (Hs : 0 <= x / 156).
{ apply Qle_shift_div_l; [reflexivity | lra]. }
setoid_replace (1 + x / 12) with (1 + 13 * (x / 156)) by field.
setoid_replace (1 + x / 52) with (1 + 3 * (x / 156)) by field.
replace (Y * 12)%Z with (3 * Z.of_nat (Z.to_nat (4 * Y)))%Z by lia.
replace (Y * 52)%Z with (13 * Z.of_nat (Z.to_nat (4 * Y)))%Z by lia.
rewrite !Qpower_mult.
apply Qpower_le_base.
- apply Qpower_0_le. lra.
- apply compound_13_3. assumption.
Qed.

End Compounding.

(** ** The frequency table *)

Lemma paymentsPerYear_table (f : string) :
  paymentsPerYear (paymentFrequencyObj f) = 12 \/
  paymentsPerYear (paymentFrequencyObj f) = 26 \/
  paymentsPerYear (paymentFrequencyObj f) = 52.
Proof.
  unfold paymentFrequencyObj, PAYMENT_FREQUENCIES. cbn [find value].
  repeat match goal with
         | |- context [String.eqb ?a ?b] => destruct (String.eqb a b)
         end; cbn [paymentsPerYear]; auto.
Qed.

Lemma paymentsPerYearOf_pos (s : ScenarioState) : 0 < paymentsPerYearOf s.
Proof.
  unfold paymentsPerYearOf.
  destruct (paymentsPerYear_table (paymentFrequency s)) as [H|[H|H]]; rewrite H; lia.
Qed.

Lemma accelerated_false (f : string) :
  accelerated f = false ->
  String.eqb f "accelerated_biweekly" = false /\
  String.eqb f "accelerated_weekly" = false.
Proof. unfold accelerated. apply orb_false_iff. Qed.

Lemma paymentAmountOf_standard (s : ScenarioState) :
  accelerated (paymentFrequency s) = false ->
  paymentAmountOf s =
    if is_zero (interestRate s)
    then (mortgageAmount s / ofZ (totalPayments s))%num
    else annuityFormula (mortgageAmount s) (periodicRate s) (totalPayments s).
Proof.
  intros H. apply accelerated_false in H as [H1 H2].
  unfold paymentAmountOf. rewrite H1, H2. reflexivity.
Qed.

Lemma paymentAmountOf_biweekly (s : ScenarioState) :
  paymentFrequency s = "accelerated_biweekly"%string ->
  paymentAmountOf s =
    (annuityFormula (mortgageAmount s) (interestRate s / ofZ 100 / ofZ 12)
       (amortizationPeriod s * 12) / ofZ 2)%num.
Proof.
  intros H. unfold paymentAmountOf. rewrite H. reflexivity.
Qed.

Lemma paymentAmountOf_weekly (s : ScenarioState) :
  paymentFrequency s = "accelerated_weekly"%string ->
  paymentAmountOf s =
    (annuityFormula (mortgageAmount s) (interestRate s / ofZ 100 / ofZ 12)
       (amortizationPeriod s * 12) / ofZ 4)%num.
Proof.
  intros H. unfold paymentAmountOf. rewrite H. reflexivity.
Qed.

(** At a non-zero rate the monthly path computes the same formula. *)
Lemma paymentAmountOf_monthly (s : ScenarioState) :
  is_zero (interestRate s) = false ->
  paymentAmountOf (withFrequency "monthly" s) =
    annuityFormula (mortgageAmount s) (interestRate s / ofZ 100 / ofZ 12)
       (amortizationPeriod s * 12).
Proof.
  intros H. unfold paymentAmountOf. simpl. rewrite H. reflexivity.
Qed.

(** ** Evaluation

    Equalities between closed values are decided by computation. *)

Ltac num_compute := apply num_eqb_eq; vm_compute; reflexivity.

(** ** Comparison *)

(** C8.  The differences stored by [calculateComparison] are the
    subtractions of the two results field by field: B minus A for the
    monthly payment, the interest over the term, the interest over the
    lifetime and the balance at the end of the term, and A minus B for the
    effective amortization ([timeShaved]); the two results are stored as
    computed. *)
Theorem comparison_differences (a b : ScenarioState) :
  let A := calculateMortgage a in
  let B := calculateMortgage b in
  let c := calculateComparison a b in
  scenarioA c = A /\ scenarioB c = B /\
  Diff.monthlyPayment (differences c) = (monthlyPayment B - monthlyPayment A)%num /\
  Diff.totalInterestTerm (differences c)
    = (totalInterestTerm B - totalInterestTerm A)%num /\
  Diff.totalInterestLifetime (differences c)
    = (totalInterestLifetime B - totalInterestLifetime A)%num /\
  Diff.balanceAtEndOfTerm (differences c)
    = (balanceAtEndOfTerm B - balanceAtEndOfTerm A)%num /\
  Diff.timeShaved (differences c)
    = (effectiveAmortization A - effectiveAmortization B)%num.
Proof. cbv zeta. unfold calculateComparison. cbn. repeat split. Qed.

(** ** The payment of a period *)

Lemma accelerated_cases (f : string) :
  accelerated f = true ->
  f = "accelerated_biweekly"%string \/ f = "accelerated_weekly"%string.
Proof.
  unfold accelerated. intros H. apply orb_true_iff in H as [H|H];
    apply String.eqb_eq in H; auto.
Qed.

(** The accelerated payment is at least the annuity payment at the true
    periodic rate, and exceeds it when the principal is positive. *)
Lemma accelerated_vs_periodic (s : ScenarioState) (m R : Qc) :
  mortgageAmount s = Fin m -> interestRate s = Fin R ->
  (0 <= m)%Qc -> (0 < R)%Qc -> 1 <= amortizationPeriod s ->
  accelerated (paymentFrequency s) = true ->
  exists a p : Qc,
    paymentAmountOf s = Fin a /\
    annuityFormula (mortgageAmount s) (periodicRate s) (totalPayments s) = Fin p /\
    (p <= a)%Qc /\ ((0 < m)%Qc -> (p < a)%Qc).
Proof.
  intros Hm HR Hm0 HRpos HY Hacc.
  assert (H12 : (0 < R / Q2Qc 100 / Q2Qc (inject_Z 12))%Qc)
    by (apply periodic_pos; [assumption | lia]).
  destruct (annuityFormula_fin m _ (amortizationPeriod s * 12) H12 ltac:(lia))
    as [HX EX].
  set (X := Qcpowz (1 + R / Q2Qc 100 / Q2Qc (inject_Z 12)) (amortizationPeriod s * 12)) in *.
  destruct (accelerated_cases _ Hacc) as [Hf|Hf].
  - assert (H26 : (0 < R / Q2Qc 100 / Q2Qc (inject_Z 26))%Qc)
      by (apply periodic_pos; [assumption | lia]).
    destruct (annuityFormula_fin m _ (amortizationPeriod s * 26) H26 ltac:(lia))
      as [HZ EZ].
    set (Zz := Qcpowz (1 + R / Q2Qc 100 / Q2Qc (inject_Z 26)) (amortizationPeriod s * 26)) in *.
    eexists. eexists. split; [|split; [|split; [|intros Hmpos]]].
    + rewrite (paymentAmountOf_biweekly s Hf), Hm, HR.
      rewrite (periodic_fin R 12) by lia. rewrite EX.
      apply ndiv_fin. apply (Q2Qc_inject_neq0 2). lia.
    + unfold periodicRate, totalPayments, paymentsPerYearOf. rewrite Hf, Hm, HR.
      change (paymentsPerYear (paymentFrequencyObj "accelerated_biweekly")) with 26.
      rewrite (periodic_fin R 26) by lia. exact EZ.
    + assert (HXZ : (X <= Zz)%Qc).
      { unfold X, Zz, Qcle. rewrite !this_powz.
        rewrite !this_plus, !this_div, !this_Q2Qc.
        change (this 1%Qc) with 1%Q.
        apply compound_26_12; [|lia].
        apply Qle_shift_div_l; [reflexivity|].
        unfold Qclt in HRpos. change (this 0%Qc) with 0%Q in HRpos. lra. }
      unfold Qclt, Qcle in *.
      rewrite !this_div, !this_mult, !this_minus, !this_div, !this_Q2Qc.
      change (this 1%Qc) with 1%Q in *. change (this 0%Qc) with 0%Q in *.
      change (inject_Z 2) with 2%Q. change (inject_Z 12) with 12%Q.
      change (inject_Z 26) with 26%Q.
      apply accelerated_gap_2_le; try assumption.
      apply Qlt_shift_div_l; [reflexivity|]. lra.
    + assert (HXZ : (X <= Zz)%Qc).
      { unfold X, Zz, Qcle. rewrite !this_powz.
        rewrite !this_plus, !this_div, !this_Q2Qc.
        change (this 1%Qc) with 1%Q.
        apply compound_26_12; [|lia].
        apply Qle_shift_div_l; [reflexivity|].
        unfold Qclt in HRpos. change (this 0%Qc) with 0%Q in HRpos. lra. }
      unfold Qclt, Qcle in *.
      rewrite !this_div, !this_mult, !this_minus, !this_div, !this_Q2Qc.
      change (this 1%Qc) with 1%Q in *. change (this 0%Qc) with 0%Q in *.
      change (inject_Z 2) with 2%Q. change (inject_Z 12) with 12%Q.
      change (inject_Z 26) with 26%Q.
      apply accelerated_gap_2; try assumption.
      apply Qlt_shift_div_l; [reflexivity|]. lra.
  - assert (H52 : (0 < R / Q2Qc 100 / Q2Qc (inject_Z 52))%Qc)
      by (apply periodic_pos; [assumption | lia]).
    destruct (annuityFormula_fin m _ (amortizationPeriod s * 52) H52 ltac:(lia))
      as [HZ EZ].
    set (Zz := Qcpowz (1 + R / Q2Qc 100 / Q2Qc (inject_Z 52)) (amortizationPeriod s * 52)) in *.
    eexists. eexists. split; [|split; [|split; [|intros Hmpos]]].
    + rewrite (paymentAmountOf_weekly s Hf), Hm, HR.
      rewrite (periodic_fin R 12) by lia. rewrite EX.
      apply ndiv_fin. apply (Q2Qc_inject_neq0 4). lia.
    + unfold periodicRate, totalPayments, paymentsPerYearOf. rewrite Hf, Hm, HR.
      change (paymentsPerYear (paymentFrequencyObj "accelerated_weekly")) with 52.
      rewrite (periodic_fin R 52) by lia. exact EZ.
    + assert (HXZ : (X <= Zz)%Qc).
      { unfold X, Zz, Qcle. rewrite !this_powz.
        rewrite !this_plus, !this_div, !this_Q2Qc.
        change (this 1%Qc) with 1%Q.
        apply compound_52_12; [|lia].
        apply Qle_shift_div_l; [reflexivity|].
        unfold Qclt in HRpos. change (this 0%Qc) with 0%Q in HRpos. lra. }
      unfold Qclt, Qcle in *.
      rewrite !this_div, !this_mult, !this_minus, !this_div, !this_Q2Qc.
      change (this 1%Qc) with 1%Q in *. change (this 0%Qc) with 0%Q in *.
      change (inject_Z 4) with 4%Q. change (inject_Z 12) with 12%Q.
      change (inject_Z 52) with 52%Q.
      apply accelerated_gap_4_le; try assumption.
      apply Qlt_shift_div_l; [reflexivity|]. lra.
    + assert (HXZ : (X <= Zz)%Qc).
      { unfold X, Zz, Qcle. rewrite !this_powz.
        rewrite !this_plus, !this_div, !this_Q2Qc.
        change (this 1%Qc) with 1%Q.
        apply compound_52_12; [|lia].
        apply Qle_shift_div_l; [reflexivity|].
        unfold Qclt in HRpos. change (this 0%Qc) with 0%Q in HRpos. lra. }
      unfold Qclt, Qcle in *.
      rewrite !this_div, !this_mult, !this_minus, !this_div, !this_Q2Qc.
      change (this 1%Qc) with 1%Q in *. change (this 0%Qc) with 0%Q in *.
      change (inject_Z 4) with 4%Q. change (inject_Z 12) with 12%Q.
      change (inject_Z 52) with 52%Q.
      apply accelerated_gap_4; try assumption.
      apply Qlt_shift_div_l; [reflexivity|]. lra.
Qed.



(** C3, as amended.  With a frequency that is not accelerated, the payment
    of every period is the annuity formula at the periodic rate with
    [amortizationPeriod * paymentsPerYear] payments when the rate is not 0,
    and principal/n when it is 0; at a positive rate and for at least one
    year it satisfies the annuity identity
    [payment * ((1+r)^n - 1)/r = principal * (1+r)^n]. *)
Theorem standard_payment_annuity (s : ScenarioState) :
  accelerated (paymentFrequency s) = false ->
  let r := periodicRate s in
  let n := totalPayments s in
  (is_zero (interestRate s) = false ->
   paymentAmountOf s = annuityFormula (mortgageAmount s) r n) /\
  (is_zero (interestRate s) = true ->
   paymentAmountOf s = (mortgageAmount s / ofZ n)%num) /\
  (forall m R : Qc,
     mortgageAmount s = Fin m -> interestRate s = Fin R ->
     (0 < R)%Qc -> 1 <= amortizationPeriod s ->
     (paymentAmountOf s * (npow (ofZ 1 + r) n - ofZ 1) / r
      = mortgageAmount s * npow (ofZ 1 + r) n)%num).
Proof.
  intros Hacc r n.
  pose proof (paymentAmountOf_standard s Hacc) as Hstd.
  split; [|split].
  - intros Hz. rewrite Hstd, Hz. reflexivity.
  - intros Hz. rewrite Hstd, Hz. reflexivity.
  - intros m R Hm HR HRpos HY.
    assert (Hz : is_zero (interestRate s) = false).
    { rewrite HR. simpl. apply Qceqb_neq. intros E. rewrite E in HRpos.
      discriminate HRpos. }
    rewrite Hstd, Hz. subst r n. unfold periodicRate.
    pose proof (paymentsPerYearOf_pos s) as Hp.
    rewrite Hm, HR, (periodic_fin R _ Hp).
    set (rq := (R / Q2Qc 100 / Q2Qc (inject_Z (paymentsPerYearOf s)))%Qc).
    assert (Hrq : (0 < rq)%Qc) by (apply periodic_pos; assumption).
    assert (Hn : 0 < totalPayments s) by (unfold totalPayments; nia).
    destruct (annuityFormula_fin m rq _ Hrq Hn) as [HX EX].
    rewrite EX. rewrite ofZ_1. cbn [nadd]. rewrite npow_fin_pos by assumption.
    set (X := Qcpowz (1 + rq) (totalPayments s)) in *.
    cbn [nsub nneg nadd nmul].
    rewrite ndiv_fin by (intros E; rewrite E in Hrq; discriminate Hrq).
    clearbody rq X. clear EX.
    f_equal. field. split; intros E; qc_lra.
Qed.

Lemma standard_payment_annuity_witness :
  paymentAmountOf initialScenarioA
  = annuityFormula (ofZ 400000) (periodicRate initialScenarioA) 300 /\
  (paymentAmountOf initialScenarioA
   * (npow (ofZ 1 + periodicRate initialScenarioA) 300 - ofZ 1)
   / periodicRate initialScenarioA
   = ofZ 400000 * npow (ofZ 1 + periodicRate initialScenarioA) 300)%num /\
  paymentAmountOf zeroRateBiweekly = (ofZ 400000 / ofZ 650)%num.
Proof.
  destruct (standard_payment_annuity initialScenarioA eq_refl) as (H1 & _ & H3).
  destruct (standard_payment_annuity zeroRateBiweekly eq_refl) as (_ & H2 & _).
  split; [|split].
  - apply H1. reflexivity.
  - apply (H3 (Q2Qc 400000) (Q2Qc (55 # 10)));
      [reflexivity | reflexivity | reflexivity | simpl; lia].
  - apply H2. reflexivity.
Defined.

(** C3, counterexample.  At 6% the accelerated biweekly payment is not the
    annuity formula at the periodic rate 6%/26 with 5 x 26 payments. *)
Lemma accelerated_not_periodic_formula :
  is_zero (interestRate acceleratedFiveYears) = false /\
  paymentAmountOf acceleratedFiveYears
  <> annuityFormula (mortgageAmount acceleratedFiveYears)
       (periodicRate acceleratedFiveYears) (totalPayments acceleratedFiveYears).
Proof.
  split; [reflexivity|].
  intros H. apply num_eqb_eq in H. vm_compute in H. discriminate.
Qed.

(** ** Subtraction of an accumulated amount *)

Lemma nsub_0 (x : num) : (x - ofZ 0)%num = x.
Proof.
  destruct x; try reflexivity. unfold nsub, nneg, ofZ, nadd. f_equal.
  apply Qc_is_canon. rewrite this_plus, this_opp, this_Q2Qc. simpl. ring.
Qed.

Lemma nsub_nadd (s y p : num) : (s - y - p)%num = (s - (y + p))%num.
Proof.
  destruct s, y, p; try reflexivity.
  unfold nsub, nneg, nadd. f_equal. ring.
Qed.

Lemma chained_app prev sched it :
  chained prev (sched ++ [it]) <->
  chained prev sched /\
  endingBalance it = (lastBalance prev sched - principalPaid it)%num.
Proof.
  revert prev. induction sched as [|x rest IH]; intros prev; simpl.
  - unfold lastBalance; simpl. tauto.
  - rewrite IH. unfold lastBalance; simpl. tauto.
Qed.

Lemma lastBalance_app prev sched it :
  lastBalance prev (sched ++ [it]) = endingBalance it.
Proof. unfold lastBalance. rewrite fold_left_app. reflexivity. Qed.

Section Chain.

Variables (principal annualInterestRate : num) (amortizationYears : Z)
          (paymentAmount : num) (paymentsPerYear_ term_ : Z)
          (extraPayment_ paymentIncrease_ annualPrepayment_ : num).

Let payment' :=
  payment annualInterestRate paymentAmount paymentsPerYear_ term_
          extraPayment_ paymentIncrease_.
Let paymentIter' :=
  paymentIter annualInterestRate paymentAmount paymentsPerYear_ term_
              extraPayment_ paymentIncrease_.
Let paymentsOfYear' :=
  paymentsOfYear annualInterestRate paymentAmount paymentsPerYear_ term_
                 extraPayment_ paymentIncrease_.
Let yearIter' :=
  yearIter principal annualInterestRate paymentAmount paymentsPerYear_ term_
           extraPayment_ paymentIncrease_ annualPrepayment_.

Lemma payment_yearInv start sched y i l :
  yearInv start sched l -> yearInv start sched (payment' y i l).
Proof.
  intros [Hb Hs]. unfold yearInv, payment', payment;
    cbn [Var.balance Var.yearlyPrincipalPaid Var.yearlySchedule].
  split; [|assumption].
  rewrite Hb. apply nsub_nadd.
Qed.

Lemma paymentsOfYear_yearInv start sched y l :
  yearInv start sched l -> yearInv start sched (paymentsOfYear' y l).
Proof.
  intros H. unfold paymentsOfYear', paymentsOfYear.
  apply for_range_preserves; [|assumption].
  intros i s Hs. unfold paymentIter.
  destruct (nleb _ _); cbn [fst].
  - exact Hs.
  - apply payment_yearInv. exact Hs.
Qed.

Lemma applyPrepayment_yearInv start sched l :
  yearInv start sched l ->
  yearInv start sched (applyPrepayment principal annualPrepayment_ l).
Proof.
  intros [Hb Hs]. unfold applyPrepayment.
  destruct (_ && _); [|split; assumption].
  split; cbn [Var.balance Var.yearlyPrincipalPaid Var.yearlySchedule]; [|assumption].
  generalize (annualPrepaymentAmount principal annualPrepayment_ l).
  intros amt. rewrite Hb. apply nsub_nadd.
Qed.

Lemma yearIter_scheduleInv y l :
  scheduleInv principal l -> scheduleInv principal (fst (yearIter' y l)).
Proof.
  intros [Hc Hb]. unfold yearIter', yearIter; cbn [fst].
  assert (H0 : yearInv (Var.balance l) (Var.yearlySchedule l) (yearStart l)).
  { split; [|reflexivity]. cbn. symmetry. apply nsub_0. }
  apply (paymentsOfYear_yearInv _ _ y) in H0.
  apply applyPrepayment_yearInv in H0. destruct H0 as [Hb' Hs'].
  unfold paymentsOfYear' in *.
  unfold scheduleInv, pushYear; cbn [Var.yearlySchedule Var.balance].
  rewrite Hs'. split.
  - apply chained_app. split; [assumption|].
    cbn [endingBalance principalPaid]. rewrite <- Hb. exact Hb'.
  - rewrite lastBalance_app. reflexivity.
Qed.

Lemma scheduleLoop_chained :
  scheduleInv principal
    (scheduleLoop principal annualInterestRate amortizationYears paymentAmount
       paymentsPerYear_ term_ extraPayment_ paymentIncrease_ annualPrepayment_).
Proof.
  unfold scheduleLoop. apply for_range_preserves.
  - intros i s. apply yearIter_scheduleInv.
  - split; [exact I | reflexivity].
Qed.

End Chain.

(** ** What [principalPaid] is made of *)

Lemma nadd_comm (x y : num) : (x + y)%num = (y + x)%num.
Proof. destruct x, y; try reflexivity. unfold nadd. f_equal. ring. Qed.

Lemma nadd_assoc (x y z : num) : (x + (y + z))%num = (x + y + z)%num.
Proof. destruct x, y, z; try reflexivity. unfold nadd. f_equal. ring. Qed.

Lemma nadd_swap (a b c d : num) :
  (a + b + (c + d))%num = (a + c + (b + d))%num.
Proof.
  rewrite !nadd_assoc. f_equal.
  rewrite <- !nadd_assoc. f_equal. apply nadd_comm.
Qed.

Lemma nadd_0_0 : (ofZ 0 + ofZ 0)%num = ofZ 0.
Proof. apply num_eqb_eq. reflexivity. Qed.

Section Account.

Variables (principal annualInterestRate : num) (amortizationYears : Z)
          (paymentAmount : num) (paymentsPerYear_ term_ : Z)
          (extraPayment_ paymentIncrease_ annualPrepayment_ : num).

Let regular :=
  regularOfYear annualInterestRate paymentAmount paymentsPerYear_ paymentIncrease_.
Let inv :=
  accountInv annualInterestRate paymentAmount paymentsPerYear_ paymentIncrease_.
Let yinv :=
  accountYearInv annualInterestRate paymentAmount paymentsPerYear_ paymentIncrease_.

Lemma regular_app y log e :
  regular y (log ++ [e])
  = if ev_year e =? y
    then (regular y log
          + regularPrincipal annualInterestRate paymentAmount paymentsPerYear_
              paymentIncrease_ (ev_before e))%num
    else regular y log.
Proof. unfold regular, regularOfYear. rewrite fold_left_app. reflexivity. Qed.

Lemma regular_none y log :
  Forall (fun e => ev_year e < y) log -> regular y log = ofZ 0.
Proof.
  induction log as [|e log IH] using rev_ind; intros H; [reflexivity|].
  apply Forall_app in H as [H1 H2]. inversion H2 as [|? ? He _]; subst.
  rewrite regular_app. destruct (Z.eqb_spec (ev_year e) y); [lia|].
  apply IH. exact H1.
Qed.

Lemma account_payment y i st :
  yinv y st ->
  let r :=
    logged (fun i l l' => {| ev_year := y; ev_index := i;
                             ev_before := l; ev_after := l' |})
           (paymentIter annualInterestRate paymentAmount paymentsPerYear_ term_
              extraPayment_ paymentIncrease_ y) i st in
  yinv y (fst r).
Proof.
  destruct st as [l log]. intros (Hlog & Hsched & Hacc). cbv zeta.
  unfold logged, paymentIter; cbn [fst snd] in *.
  destruct (nleb _ _); cbn [fst snd].
  - split; [exact Hlog|]. split; [exact Hsched | exact Hacc].
  - unfold yinv, accountYearInv; cbn [fst snd]. fold regular.
    split; [|split].
    + apply Forall_app. split; [exact Hlog|].
      constructor; [cbn; lia | constructor].
    + unfold payment; cbn [Var.yearlySchedule countPayment].
      eapply Forall_impl; [|exact Hsched]. cbn beta.
      intros it [Hy Hit]. split; [exact Hy|].
      fold regular in Hit. rewrite regular_app. cbn [ev_year].
      destruct (Z.eqb_spec y (year it)); [lia | exact Hit].
    + rewrite regular_app. cbn [ev_year ev_before]. rewrite Z.eqb_refl.
      unfold payment;
        cbn [Var.yearlyPrincipalPaid Var.yearlyExtraPayments countPayment].
      fold regular in Hacc. rewrite Hacc.
      unfold principalForPayment.
      assert (Hreg : regularPrincipal annualInterestRate paymentAmount
                       paymentsPerYear_ paymentIncrease_ (countPayment l)
                     = regularPrincipal annualInterestRate paymentAmount
                         paymentsPerYear_ paymentIncrease_ l) by reflexivity.
      rewrite Hreg. destruct (ngtb extraPayment_ (ofZ 0)).
      * apply nadd_swap.
      * rewrite <- !nadd_assoc. f_equal. apply nadd_comm.
Qed.

Lemma account_paymentsOfYearT y st :
  yinv y st ->
  yinv y (paymentsOfYearT annualInterestRate paymentAmount paymentsPerYear_
            term_ extraPayment_ paymentIncrease_ y st).
Proof.
  intros H. unfold paymentsOfYearT. apply for_range_preserves; [|exact H].
  intros i s Hs. apply (account_payment y i s Hs).
Qed.

Lemma account_yearIterT y st :
  inv y st ->
  inv (y + 1)
    (fst (yearIterT principal annualInterestRate paymentAmount paymentsPerYear_
            term_ extraPayment_ paymentIncrease_ annualPrepayment_ y st)).
Proof.
  intros [Hlog Hsched]. unfold yearIterT; cbn [fst snd].
  assert (H0 : yinv y (yearStart (fst st), snd st)).
  { split; [|split]; cbn [fst snd].
    - eapply Forall_impl; [|exact Hlog]. cbn beta. intros; lia.
    - exact Hsched.
    - cbn [yearStart Var.yearlyPrincipalPaid Var.yearlyExtraPayments].
      fold regular. rewrite (regular_none y _ Hlog). symmetry. apply nadd_0_0. }
  apply account_paymentsOfYearT in H0.
  set (st1 := paymentsOfYearT _ _ _ _ _ _ y _) in *.
  destruct H0 as (Hlog1 & Hsched1 & Hacc1).
  split; cbn [fst snd].
  - eapply Forall_impl; [|exact Hlog1]. cbn beta. intros; lia.
  - unfold pushYear; cbn [Var.yearlySchedule].
    rewrite applyPrepayment_schedule. apply Forall_app. split.
    + eapply Forall_impl; [|exact Hsched1]. cbn beta.
      intros it [Hy Hit]. split; [lia | exact Hit].
    + constructor; [|constructor].
      cbn [year principalPaid extraPayments]. split; [lia|].
      fold regular in Hacc1 |- *.
      unfold applyPrepayment. destruct (_ && _);
        cbn [Var.yearlyPrincipalPaid Var.yearlyExtraPayments].
      * rewrite Hacc1. symmetry. apply nadd_assoc.
      * exact Hacc1.
Qed.

Lemma account_scheduleLoopT :
  exists y,
    inv y (scheduleLoopT principal annualInterestRate amortizationYears
             paymentAmount paymentsPerYear_ term_ extraPayment_
             paymentIncrease_ annualPrepayment_).
Proof.
  unfold scheduleLoopT.
  apply (for_range_inv _ inv (fun st => exists y, inv y st)).
  - intros y s Hs _. apply account_yearIterT. exact Hs.
  - intros y s Hs _. exists (y + 1). apply account_yearIterT. exact Hs.
  - split; constructor.
  - intros s' Hs'. eexists. exact Hs'.
Qed.

End Account.

(** In every year of the schedule [principalPaid] is the principal paid by
    the year's payments before the extra payment, plus the year's
    [extraPayments] (the extra principal of the payments and the annual
    prepayment). *)
Lemma principalPaid_includes_extra (s : ScenarioState) :
  Forall (fun it =>
            principalPaid it
            = (regularOfYear (interestRate s) (paymentAmountOf s)
                 (paymentsPerYearOf s) (paymentIncrease s) (year it)
                 (paymentsOf s)
               + extraPayments it)%num)
         (amortizationSchedule (calculateMortgage s)).
Proof.
  destruct (account_scheduleLoopT (mortgageAmount s) (interestRate s)
              (amortizationPeriod s) (paymentAmountOf s) (paymentsPerYearOf s)
              (term s) (extraPayment s) (paymentIncrease s) (annualPrepayment s))
    as (y & _ & H).
  rewrite scheduleLoopT_erase in H.
  unfold calculateMortgage, generateAmortizationSchedule;
    cbn [amortizationSchedule Sched.yearlySchedule].
  fold (paymentsPerYearOf s).
  eapply Forall_impl; [|exact H]. cbn beta. intros it [_ Hit]. exact Hit.
Qed.

Lemma chained_split prev rest1 it rest2 :
  chained prev (rest1 ++ it :: rest2) ->
  endingBalance it = (lastBalance prev rest1 - principalPaid it)%num.
Proof.
  revert prev. induction rest1 as [|x rest1 IH]; intros prev; cbn [app chained].
  - intros [H _]. exact H.
  - intros [_ H]. unfold lastBalance; cbn [fold_left]. apply (IH _ H).
Qed.



(** ** The term-end snapshot *)

Section TermEnd.

Variables (principal annualInterestRate : num) (amortizationYears : Z)
          (paymentAmount : num) (paymentsPerYear_ term_ : Z)
          (extraPayment_ paymentIncrease_ annualPrepayment_ : num).

Let paymentIter' :=
  paymentIter annualInterestRate paymentAmount paymentsPerYear_ term_
              extraPayment_ paymentIncrease_.

Lemma before_next_year y i e : before y i e -> before (y + 1) 1 e.
Proof. unfold before. lia. Qed.

Lemma before_next_payment y i e : before y i e -> before y (i + 1) e.
Proof. unfold before. lia. Qed.

Lemma before_not_at y i e :
  before y i e -> ev_year e = y -> ev_index e = i -> False.
Proof. unfold before. lia. Qed.

Lemma logged_payment_termInv y i st :
  termInv term_ paymentsPerYear_ y i st ->
  let r :=
    logged (fun i l l' => {| ev_year := y; ev_index := i;
                             ev_before := l; ev_after := l' |})
           (paymentIter' y) i st in
  if snd r then termInv term_ paymentsPerYear_ (y + 1) 1 (fst r)
  else termInv term_ paymentsPerYear_ y (i + 1) (fst r).
Proof.
  destruct st as [l log]. intros (Hbef & Hsome & Hnone).
  unfold logged, paymentIter', paymentIter; cbn [fst snd] in *.
  destruct (nleb _ _); cbn [fst snd].
  - (* break *)
    split; [|split].
    + eapply Forall_impl; [|exact Hbef]. apply before_next_year.
    + exact Hsome.
    + exact Hnone.
  - (* the payment is executed *)
    set (l' := payment _ _ _ _ _ _ y i (countPayment l)).
    split; [|split]; cbn [fst snd].
    + apply Forall_app. split.
      * eapply Forall_impl; [|exact Hbef]. apply before_next_payment.
      * constructor; [|constructor]. right. cbn. lia.
    + intros e He Hat. apply in_app_or in He as [He|[<-|[]]].
      * (* an older payment was the last of the term: this one is not *)
        assert (Hnot : (y =? term_) && (i =? paymentsPerYear_) = false).
        { destruct ((y =? term_) && (i =? paymentsPerYear_)) eqn:E; [|reflexivity].
          exfalso. apply andb_true_iff in E as [E1 E2].
          apply Z.eqb_eq in E1, E2. unfold atTermEnd in Hat.
          apply andb_true_iff in Hat as [A1 A2]. apply Z.eqb_eq in A1, A2.
          rewrite Forall_forall in Hbef.
          apply (before_not_at y i e (Hbef e He)); congruence. }
        subst l'. unfold payment; cbn [Var.balanceAtEndOfTerm Var.totalInterestPaidOverTerm].
        rewrite Hnot. apply (Hsome e He Hat).
      * unfold atTermEnd in Hat; cbn [ev_year ev_index ev_after] in *.
        subst l'. unfold payment;
          cbn [Var.balanceAtEndOfTerm Var.totalInterestPaidOverTerm
               Var.balance Var.totalInterestPaid].
        rewrite Hat. split; reflexivity.
    + intros Hall.
      assert (Hnot : (y =? term_) && (i =? paymentsPerYear_) = false).
      { apply (Hall {| ev_year := y; ev_index := i; ev_before := l; ev_after := l' |}).
        apply in_or_app. right. left. reflexivity. }
      subst l'. unfold payment; cbn [Var.balanceAtEndOfTerm Var.totalInterestPaidOverTerm].
      rewrite Hnot. apply Hnone. intros e He. apply Hall.
      apply in_or_app. left. exact He.
Qed.

Lemma paymentsOfYearT_termInv y st :
  termInv term_ paymentsPerYear_ y 1 st ->
  termInv term_ paymentsPerYear_ (y + 1) 1
    (paymentsOfYearT annualInterestRate paymentAmount paymentsPerYear_ term_
       extraPayment_ paymentIncrease_ y st).
Proof.
  intros H. unfold paymentsOfYearT.
  apply (for_range_inv _ (termInv term_ paymentsPerYear_ y)
           (termInv term_ paymentsPerYear_ (y + 1) 1)).
  - intros i s Hs Hb. pose proof (logged_payment_termInv y i s Hs) as Hl.
    cbv zeta in Hl. unfold paymentIter' in Hl. rewrite Hb in Hl. exact Hl.
  - intros i s Hs Hb. pose proof (logged_payment_termInv y i s Hs) as Hl.
    cbv zeta in Hl. unfold paymentIter' in Hl. rewrite Hb in Hl. exact Hl.
  - exact H.
  - intros s' (Hbef & Hsome & Hnone). split; [|split]; try assumption.
    eapply Forall_impl; [|exact Hbef]. apply before_next_year.
Qed.

Lemma yearIterT_termInv y st :
  termInv term_ paymentsPerYear_ y 1 st ->
  termInv term_ paymentsPerYear_ (y + 1) 1
    (fst (yearIterT principal annualInterestRate paymentAmount paymentsPerYear_
            term_ extraPayment_ paymentIncrease_ annualPrepayment_ y st)).
Proof.
  intros H. unfold yearIterT; cbn [fst snd].
  assert (H0 : termInv term_ paymentsPerYear_ y 1 (yearStart (fst st), snd st)).
  { destruct H as (Hbef & Hsome & Hnone). split; [|split]; assumption. }
  apply paymentsOfYearT_termInv in H0.
  destruct H0 as (Hbef & Hsome & Hnone).
  split; [|split]; cbn [fst snd].
  - exact Hbef.
  - intros e He Hat. unfold pushYear, applyPrepayment.
    destruct (_ && _); cbn [Var.balanceAtEndOfTerm Var.totalInterestPaidOverTerm];
      apply (Hsome e He Hat).
  - intros Hall. unfold pushYear, applyPrepayment.
    destruct (_ && _); cbn [Var.balanceAtEndOfTerm Var.totalInterestPaidOverTerm];
      apply (Hnone Hall).
Qed.

Lemma scheduleLoopT_termInv :
  exists y,
    termInv term_ paymentsPerYear_ y 1
      (scheduleLoopT principal annualInterestRate amortizationYears paymentAmount
         paymentsPerYear_ term_ extraPayment_ paymentIncrease_ annualPrepayment_).
Proof.
  unfold scheduleLoopT.
  apply (for_range_inv _ (fun y st => termInv term_ paymentsPerYear_ y 1 st)
           (fun st => exists y, termInv term_ paymentsPerYear_ y 1 st)).
  - intros i s Hs _. apply yearIterT_termInv. exact Hs.
  - intros i s Hs _. exists (i + 1). apply yearIterT_termInv. exact Hs.
  - split; [constructor|]. split.
    + intros e [].
    + intros _. split; reflexivity.
  - intros s' Hs. eexists. exact Hs.
Qed.

End TermEnd.

(** C5.  The balance at the end of the term and the interest over the term
    are set by the last payment of the year [term] and by no other: when
    that payment is executed they are the balance and the cumulative
    interest it leaves, and when it is never executed (the balance reached
    zero before, or the loop never reaches that year) both keep the value 0
    they were initialized with. *)
Theorem term_end_snapshot (s : ScenarioState) :
  let r := calculateMortgage s in
  let isTermEnd e :=
    ev_year e = term s /\ ev_index e = paymentsPerYearOf s in
  (forall e, In e (paymentsOf s) -> isTermEnd e ->
     balanceAtEndOfTerm r = Var.balance (ev_after e) /\
     totalInterestTerm r = Var.totalInterestPaid (ev_after e)) /\
  ((forall e, In e (paymentsOf s) -> ~ isTermEnd e) ->
     balanceAtEndOfTerm r = ofZ 0 /\ totalInterestTerm r = ofZ 0).
Proof.
  cbv zeta.
  destruct (scheduleLoopT_termInv (mortgageAmount s) (interestRate s)
              (amortizationPeriod s) (paymentAmountOf s) (paymentsPerYearOf s)
              (term s) (extraPayment s) (paymentIncrease s) (annualPrepayment s))
    as (y & _ & Hsome & Hnone).
  rewrite scheduleLoopT_erase in Hsome, Hnone.
  unfold calculateMortgage, generateAmortizationSchedule;
    cbn [balanceAtEndOfTerm totalInterestTerm Sched.balanceAtEndOfTerm
         Sched.totalInterestPaidOverTerm].
  split.
  - intros e He [Hy Hi]. apply (Hsome e He).
    unfold atTermEnd. rewrite Hy, Hi, !Z.eqb_refl. reflexivity.
  - intros Hall. apply Hnone. intros e He.
    unfold atTermEnd. destruct (_ && _) eqn:E; [|reflexivity].
    exfalso. apply andb_true_iff in E as [E1 E2]. apply Z.eqb_eq in E1, E2.
    apply (Hall e He). split; assumption.
Qed.

(** On the loan cleared by its 30th payment with a term of 2 years, the
    24th payment, the 12th of year 2, is executed and leaves 12000.  On the
    loan cleared by its second payment the last payment of year 5 is never
    executed: the interest over the term is 0, though interest was paid. *)
Lemma term_end_snapshot_witness :
  balanceAtEndOfTerm (calculateMortgage (withTerm 2 zeroRateExtra)) = ofZ 12000 /\
  totalInterestTerm (calculateMortgage (withTerm 2 zeroRateExtra)) = ofZ 0 /\
  balanceAtEndOfTerm (calculateMortgage quickPayoff) = ofZ 0 /\
  totalInterestTerm (calculateMortgage quickPayoff) = ofZ 0 /\
  length (paymentsOf quickPayoff) = 2%nat /\
  nltb (ofZ 0) (totalInterestLifetime (calculateMortgage quickPayoff)) = true.
Proof.
  destruct (term_end_snapshot (withTerm 2 zeroRateExtra)) as [Hsome _].
  destruct (term_end_snapshot quickPayoff) as [_ Hnone].
  assert (H2 : balanceAtEndOfTerm (calculateMortgage (withTerm 2 zeroRateExtra))
               = ofZ 12000 /\
               totalInterestTerm (calculateMortgage (withTerm 2 zeroRateExtra))
               = ofZ 0).
  { destruct (nth_error (paymentsOf (withTerm 2 zeroRateExtra)) 23) as [e|] eqn:E;
      [|vm_compute in E; discriminate E].
    destruct (Hsome e (nth_error_In _ _ E)) as [H1 H2].
    - assert (Ee : Some (ev_year e, ev_index e) = Some (2, 12)).
      { change (Some (ev_year e, ev_index e))
          with (option_map (fun e => (ev_year e, ev_index e)) (Some e)).
        rewrite <- E. vm_compute. reflexivity. }
      injection Ee as Ey Ei. split; [exact Ey | exact Ei].
    - assert (Eb : Some (Var.balance (ev_after e), Var.totalInterestPaid (ev_after e))
                   = Some (ofZ 12000, ofZ 0)).
      { change (Some (Var.balance (ev_after e), Var.totalInterestPaid (ev_after e)))
          with (option_map (fun e => (Var.balance (ev_after e),
                                      Var.totalInterestPaid (ev_after e))) (Some e)).
        rewrite <- E. vm_compute. reflexivity. }
      injection Eb as Eb Et. rewrite H1, H2. split; assumption. }
  destruct H2 as [Hb Ht].
  split; [exact Hb|]. split; [exact Ht|].
  assert (Hq : balanceAtEndOfTerm (calculateMortgage quickPayoff) = ofZ 0 /\
               totalInterestTerm (calculateMortgage quickPayoff) = ofZ 0).
  { apply Hnone. intros e He [Hy _].
    assert (Hall : forallb (fun e => negb (ev_year e =? term quickPayoff))
                           (paymentsOf quickPayoff) = true)
      by (vm_compute; reflexivity).
    rewrite forallb_forall in Hall. specialize (Hall e He).
    rewrite Hy, Z.eqb_refl in Hall. discriminate Hall. }
  destruct Hq as [Hqb Hqt].
  split; [exact Hqb|]. split; [exact Hqt|].
  split; vm_compute; reflexivity.
Defined.

(** ** The payment counter *)

Lemma nleb_0_not_gt (x : num) :
  (x <=? ofZ 0)%num = true -> (x >? ofZ 0)%num = false.
Proof.
  destruct x; try reflexivity; try discriminate.
  unfold ngtb, nltb, nleb, ofZ, Qcltb, Qcleb. intros ->. reflexivity.
Qed.

Section Counter.

Variables (principal annualInterestRate : num) (amortizationYears : Z)
          (paymentAmount : num) (paymentsPerYear_ term_ : Z)
          (extraPayment_ paymentIncrease_ annualPrepayment_ : num).

(** While the loops run, the counter is the number of payments executed;
    once the inner loop has executed [break] it is one more, and the
    balance is [<= 0]. *)
Let running (st : Var.Locals * list Event) : Prop :=
  Var.lastPaymentNumber (fst st) = Z.of_nat (length (snd st)).
Let broken (st : Var.Locals * list Event) : Prop :=
  Var.lastPaymentNumber (fst st) = Z.of_nat (length (snd st)) + 1 /\
  (Var.balance (fst st) <=? ofZ 0)%num = true.

Lemma counter_paymentsOfYearT y st :
  running st ->
  let st' := paymentsOfYearT annualInterestRate paymentAmount paymentsPerYear_
               term_ extraPayment_ paymentIncrease_ y st in
  running st' \/ broken st'.
Proof.
  intros H. cbv zeta. unfold paymentsOfYearT.
  apply (for_range_inv _ (fun _ => running) (fun st => running st \/ broken st)).
  - intros i [l log] Hs Hb. unfold logged, paymentIter in *; cbn [fst snd] in *.
    destruct (nleb _ _); [discriminate Hb|]. cbn [fst snd].
    unfold running in *; cbn [fst snd] in *.
    unfold payment; cbn [Var.lastPaymentNumber countPayment].
    rewrite length_app, Hs. cbn [length]. lia.
  - intros i [l log] Hs Hb. unfold logged, paymentIter in *; cbn [fst snd] in *.
    destruct (nleb _ _) eqn:E; [|discriminate Hb]. cbn [fst snd].
    right. unfold running, broken in *; cbn [fst snd] in *.
    split; [cbn [Var.lastPaymentNumber countPayment]; lia | exact E].
  - exact H.
  - intros s' Hs'. left. exact Hs'.
Qed.

Lemma counter_yearIterT y st :
  running st ->
  let r := yearIterT principal annualInterestRate paymentAmount paymentsPerYear_
             term_ extraPayment_ paymentIncrease_ annualPrepayment_ y st in
  if snd r then
    Var.lastPaymentNumber (fst (fst r)) = Z.of_nat (length (snd (fst r))) \/
    Var.lastPaymentNumber (fst (fst r)) = Z.of_nat (length (snd (fst r))) + 1
  else running (fst r).
Proof.
  intros H. cbv zeta. unfold yearIterT; cbn [fst snd].
  assert (H0 : running (yearStart (fst st), snd st)) by exact H.
  apply (counter_paymentsOfYearT y) in H0. cbv zeta in H0.
  set (st1 := paymentsOfYearT _ _ _ _ _ _ y _) in *.
  unfold pushYear at 1; cbn [Var.balance].
  destruct H0 as [Hrun|[Hcnt Hbal]].
  - destruct (nleb _ _).
    + left. unfold pushYear; cbn [Var.lastPaymentNumber].
      rewrite applyPrepayment_count. exact Hrun.
    + unfold running, pushYear; cbn [fst snd Var.lastPaymentNumber].
      rewrite applyPrepayment_count. exact Hrun.
  - assert (Hsame : applyPrepayment principal annualPrepayment_ (fst st1) = fst st1).
    { unfold applyPrepayment. rewrite (nleb_0_not_gt _ Hbal), andb_false_r.
      reflexivity. }
    rewrite Hsame, Hbal. right. unfold pushYear; cbn [Var.lastPaymentNumber].
    exact Hcnt.
Qed.

(** The counter returned is the number of payments executed, or one more. *)
Lemma counter_scheduleLoopT :
  let st := scheduleLoopT principal annualInterestRate amortizationYears
              paymentAmount paymentsPerYear_ term_ extraPayment_
              paymentIncrease_ annualPrepayment_ in
  Var.lastPaymentNumber (fst st) = Z.of_nat (length (snd st)) \/
  Var.lastPaymentNumber (fst st) = Z.of_nat (length (snd st)) + 1.
Proof.
  cbv zeta. unfold scheduleLoopT.
  apply (for_range_inv _ (fun _ => running)
           (fun st => Var.lastPaymentNumber (fst st) = Z.of_nat (length (snd st)) \/
                      Var.lastPaymentNumber (fst st)
                      = Z.of_nat (length (snd st)) + 1)).
  - intros y s Hs Hb. pose proof (counter_yearIterT y s Hs) as H.
    cbv zeta in H. rewrite Hb in H. exact H.
  - intros y s Hs Hb. pose proof (counter_yearIterT y s Hs) as H.
    cbv zeta in H. rewrite Hb in H. exact H.
  - reflexivity.
  - intros s' Hs'. left. exact Hs'.
Qed.

End Counter.

(** X25.  The effective amortization is the number of payments executed,
    or that number plus one, over the payments per year. *)
Lemma effectiveAmortization_counter (s : ScenarioState) :
  let n := Z.of_nat (length (paymentsOf s)) in
  effectiveAmortization (calculateMortgage s)
    = (ofZ n / ofZ (paymentsPerYearOf s))%num \/
  effectiveAmortization (calculateMortgage s)
    = (ofZ (n + 1) / ofZ (paymentsPerYearOf s))%num.
Proof.
  cbv zeta.
  pose proof (counter_scheduleLoopT (mortgageAmount s) (interestRate s)
                (amortizationPeriod s) (paymentAmountOf s) (paymentsPerYearOf s)
                (term s) (extraPayment s) (paymentIncrease s) (annualPrepayment s))
    as H.
  cbv zeta in H. rewrite scheduleLoopT_erase in H.
  unfold calculateMortgage, generateAmortizationSchedule;
    cbn [effectiveAmortization Sched.effectiveAmortizationYears].
  fold (paymentsPerYearOf s). unfold paymentsOf, paymentsExecuted.
  fold (paymentsPerYearOf s).
  destruct H as [H|H]; [left|right]; rewrite H; reflexivity.
Qed.

(** C4.  On the loan cleared by its 30th payment, 30 payments are executed
    and the last of them leaves the balance 0, yet the effective
    amortization returned is 31/12 and not 30/12: the counter is
    incremented by the iteration that only executes [break]. *)
Theorem effective_amortization_counts_break :
  List.length (paymentsOf zeroRateExtra) = 30%nat /\
  option_map (fun e => (ev_year e, ev_index e, Var.balance (ev_after e)))
             (nth_error (paymentsOf zeroRateExtra) 29)
    = Some (3, 6, ofZ 0) /\
  effectiveAmortization (calculateMortgage zeroRateExtra) = (ofZ 31 / ofZ 12)%num /\
  effectiveAmortization (calculateMortgage zeroRateExtra) <> (ofZ 30 / ofZ 12)%num.
Proof.
  split; [vm_compute; reflexivity|].
  split; [vm_compute; reflexivity|].
  split; [num_compute|].
  intros H. apply num_eqb_eq in H. vm_compute in H. discriminate.
Qed.

(** ** Payments on finite values *)

(** Case analysis on the comparisons of the goal, innermost first. *)
Ltac no_cmp t :=
  lazymatch t with
  | context [Qcleb _ _] => fail
  | context [Qcltb _ _] => fail
  | _ => idtac
  end.

Ltac split_cmp :=
  reflect_cmp;
  repeat match goal with
  | |- context [Qcleb ?a ?b] =>
      no_cmp a; no_cmp b; destruct (Qcleb a b) eqn:?; reflect_cmp
  | |- context [Qcltb ?a ?b] =>
      no_cmp a; no_cmp b; destruct (Qcltb a b) eqn:?; reflect_cmp
  end.

Lemma stepBalance_nonneg r A e b : (0 <= stepBalance r A e b)%Qc.
Proof. unfold stepBalance, qmax. split_cmp; qc_lra. Qed.

Lemma owed_nonneg r A b : (0 <= owed r A b)%Qc.
Proof. unfold owed, qmax. split_cmp; qc_lra. Qed.

Lemma extraPart_nonneg e : (0 <= extraPart e)%Qc.
Proof. unfold extraPart. split_cmp; qc_lra. Qed.

Lemma extraPart_mono e1 e2 : (e1 <= e2)%Qc -> (extraPart e1 <= extraPart e2)%Qc.
Proof. intros H. unfold extraPart. split_cmp; qc_lra. Qed.

Lemma owed_mono r A b1 b2 :
  (0 <= r)%Qc -> (b2 <= b1)%Qc -> (owed r A b2 <= owed r A b1)%Qc.
Proof.
  intros Hr Hb. unfold owed, qmax. split_cmp; qc2q; nra.
Qed.

Lemma stepBalance_mono r A e1 e2 b1 b2 :
  (0 <= r)%Qc -> (b2 <= b1)%Qc -> (e1 <= e2)%Qc ->
  (stepBalance r A e2 b2 <= stepBalance r A e1 b1)%Qc.
Proof.
  intros Hr Hb He.
  pose proof (owed_mono r A b1 b2 Hr Hb) as Ho.
  pose proof (extraPart_mono e1 e2 He) as Hx.
  unfold stepBalance, qmax.
  generalize dependent (owed r A b1). generalize dependent (owed r A b2).
  generalize dependent (extraPart e1). generalize dependent (extraPart e2).
  intros. split_cmp; qc_lra.
Qed.

Lemma stepBalance_le_owed r A e b : (stepBalance r A e b <= owed r A b)%Qc.
Proof.
  pose proof (owed_nonneg r A b). pose proof (extraPart_nonneg e).
  unfold stepBalance, qmax.
  generalize dependent (owed r A b). generalize dependent (extraPart e).
  intros. split_cmp; qc_lra.
Qed.

Lemma prepaid_nonneg pre b : (0 <= prepaid pre b)%Qc.
Proof. unfold prepaid, qmax. split_cmp; qc_lra. Qed.

Lemma prepaid_mono pre b1 b2 :
  (b2 <= b1)%Qc -> (prepaid pre b2 <= prepaid pre b1)%Qc.
Proof. intros H. unfold prepaid, qmax. split_cmp; qc_lra. Qed.

Lemma prepaid_le pre b : (0 <= pre)%Qc -> (0 <= b)%Qc -> (prepaid pre b <= b)%Qc.
Proof. intros H1 H2. unfold prepaid, qmax. split_cmp; qc_lra. Qed.

Lemma nmin_fin (a b : Qc) :
  nmin (Fin a) (Fin b) = Fin (if Qcleb a b then a else b).
Proof. simpl. destruct (Qcleb a b); reflexivity. Qed.

Section FiniteRun.

Variables (principal annualInterestRate : num) (amortizationYears : Z)
          (paymentAmount : num) (paymentsPerYear_ term_ : Z)
          (extraPayment_ paymentIncrease_ annualPrepayment_ : num).
Variables (r A e pre : Qc).

Hypothesis Hr : interestRatePerPayment annualInterestRate paymentsPerYear_ = Fin r.
Hypothesis HA : adjustedPayment paymentAmount paymentIncrease_ = Fin A.
Hypothesis He : extraPayment_ = Fin e.
Hypothesis Hpre : (principal * (annualPrepayment_ / ofZ 100))%num = Fin pre.

Let payment' :=
  payment annualInterestRate paymentAmount paymentsPerYear_ term_
          extraPayment_ paymentIncrease_.

Lemma interestForPayment_fin l b :
  Var.balance l = Fin b ->
  interestForPayment annualInterestRate paymentsPerYear_ l = Fin (b * r).
Proof. intros Hb. unfold interestForPayment. rewrite Hb, Hr. reflexivity. Qed.

Lemma principalForPayment_fin l b :
  Var.balance l = Fin b ->
  principalForPayment annualInterestRate paymentAmount paymentsPerYear_
    extraPayment_ paymentIncrease_ l
  = Fin (b - stepBalance r A e b).
Proof.
  intros Hb.
  unfold principalForPayment, extraPrincipalPaid, regularPrincipal.
  rewrite (interestForPayment_fin l b Hb), HA, He, Hb.
  unfold ngtb, nltb, ofZ. cbn [nsub nneg nadd]. rewrite !nmin_fin.
  change (Q2Qc (inject_Z 0)) with 0%Qc.
  unfold stepBalance, owed, extraPart, qmax.
  destruct (Qcltb 0 e) eqn:E0; cbn [nsub nneg nadd]; try rewrite !nmin_fin;
    cbn [nadd]; f_equal; split_cmp; qc_lra.
Qed.

Lemma payment_balance y i l b :
  Var.balance l = Fin b ->
  Var.balance (payment' y i l) = Fin (stepBalance r A e b).
Proof.
  intros Hb. unfold payment', payment; cbn [Var.balance].
  rewrite (principalForPayment_fin l b Hb), Hb. cbn [nsub nneg nadd].
  f_equal. ring.
Qed.

Lemma payment_interest y i l b t :
  Var.balance l = Fin b -> Var.totalInterestPaid l = Fin t ->
  Var.totalInterestPaid (payment' y i l) = Fin (t + b * r).
Proof.
  intros Hb Ht. unfold payment', payment; cbn [Var.totalInterestPaid].
  rewrite (interestForPayment_fin l b Hb), Ht. reflexivity.
Qed.

Lemma applyPrepayment_balance l b :
  Var.balance l = Fin b ->
  Var.balance (applyPrepayment principal annualPrepayment_ l)
  = Fin (if ngtb annualPrepayment_ (ofZ 0) && Qcltb 0 b then prepaid pre b else b).
Proof.
  intros Hb. unfold applyPrepayment, annualPrepaymentAmount.
  rewrite Hb, Hpre. unfold ngtb at 2. unfold nltb, ofZ.
  change (Q2Qc (inject_Z 0)) with 0%Qc.
  destruct (_ && _); cbn [Var.balance]; [|assumption].
  rewrite nmin_fin. cbn [nsub nneg nadd]. f_equal.
  unfold prepaid, qmax. split_cmp; qc_lra.
Qed.

End FiniteRun.

(** ** Invariants of the schedule loop *)

Section LoopRule.

Variables (principal annualInterestRate : num) (amortizationYears : Z)
          (paymentAmount : num) (paymentsPerYear_ term_ : Z)
          (extraPayment_ paymentIncrease_ annualPrepayment_ : num).

Variable P : Var.Locals -> Prop.

Hypothesis P_count : forall l, P l -> P (countPayment l).
Hypothesis P_payment :
  forall y i l, P l -> (Var.balance l <=? ofZ 0)%num = false ->
    P (payment annualInterestRate paymentAmount paymentsPerYear_ term_
         extraPayment_ paymentIncrease_ y i l).
Hypothesis P_start : forall l, P l -> P (yearStart l).
Hypothesis P_prepay :
  forall l, P l -> P (applyPrepayment principal annualPrepayment_ l).
Hypothesis P_push : forall y l, P l -> P (pushYear y l).

Lemma paymentLoop_preserves y n i l :
  P l ->
  P (for_range (paymentIter annualInterestRate paymentAmount paymentsPerYear_
                  term_ extraPayment_ paymentIncrease_ y) n i l).
Proof.
  intros H. apply for_range_preserves; [|exact H].
  intros j s Hs. unfold paymentIter.
  destruct (nleb _ _) eqn:E; cbn [fst].
  - apply P_count. exact Hs.
  - apply P_payment; [apply P_count; exact Hs | exact E].
Qed.

Lemma paymentsOfYear_preserves y l :
  P l ->
  P (paymentsOfYear annualInterestRate paymentAmount paymentsPerYear_ term_
       extraPayment_ paymentIncrease_ y l).
Proof. apply paymentLoop_preserves. Qed.

Lemma yearIter_preserves y l :
  P l ->
  P (fst (yearIter principal annualInterestRate paymentAmount paymentsPerYear_
            term_ extraPayment_ paymentIncrease_ annualPrepayment_ y l)).
Proof.
  intros H. unfold yearIter; cbn [fst].
  apply P_push, P_prepay, paymentsOfYear_preserves, P_start, H.
Qed.

Lemma yearLoop_preserves n y l :
  P l ->
  P (for_range (yearIter principal annualInterestRate paymentAmount
                  paymentsPerYear_ term_ extraPayment_ paymentIncrease_
                  annualPrepayment_) n y l).
Proof.
  intros H. apply for_range_preserves; [|exact H].
  intros i s. apply yearIter_preserves.
Qed.

Lemma scheduleLoop_preserves :
  P (initLocals principal) ->
  P (scheduleLoop principal annualInterestRate amortizationYears paymentAmount
       paymentsPerYear_ term_ extraPayment_ paymentIncrease_ annualPrepayment_).
Proof. apply yearLoop_preserves. Qed.

End LoopRule.

(** ** Rate 0 *)

Lemma is_zero_fin (x : num) : is_zero x = true -> x = Fin 0%Qc.
Proof.
  destruct x; try discriminate. simpl. intros H. apply Qceqb_eq in H.
  congruence.
Qed.

Lemma nmul_fin (a b : Qc) : (Fin a * Fin b)%num = Fin (a * b).
Proof. reflexivity. Qed.

Lemma nadd_fin (a b : Qc) : (Fin a + Fin b)%num = Fin (a + b).
Proof. reflexivity. Qed.

Lemma Q2Qc_inject_mul (a b : Z) :
  Q2Qc (inject_Z (a * b)) = (Q2Qc (inject_Z a) * Q2Qc (inject_Z b))%Qc.
Proof.
  apply Qc_is_canon. rewrite this_mult, !this_Q2Qc, inject_Z_mult. reflexivity.
Qed.

Section ZeroRate.

Variables (s : ScenarioState) (m e inc a : Qc).

Hypothesis Hzero : is_zero (interestRate s) = true.
Hypothesis Hstd : accelerated (paymentFrequency s) = false.
Hypothesis Hm : mortgageAmount s = Fin m.
Hypothesis He : extraPayment s = Fin e.
Hypothesis Hinc : paymentIncrease s = Fin inc.
Hypothesis Ha : annualPrepayment s = Fin a.
Hypothesis HY : 1 <= amortizationPeriod s.

Let n := Q2Qc (inject_Z (totalPayments s)).

Lemma totalPayments_pos : 0 < totalPayments s.
Proof. unfold totalPayments. pose proof (paymentsPerYearOf_pos s). nia. Qed.

Lemma zero_rate_payment : paymentAmountOf s = Fin (m / n).
Proof.
  rewrite (paymentAmountOf_standard s Hstd), Hzero, Hm.
  apply ndiv_fin. apply Q2Qc_inject_neq0. pose proof totalPayments_pos. lia.
Qed.

Lemma zero_rate_interest :
  totalInterestLifetime (calculateMortgage s) = Fin 0%Qc.
Proof.
  unfold calculateMortgage, generateAmortizationSchedule;
    cbn [totalInterestLifetime Sched.totalInterestPaid].
  fold (paymentsPerYearOf s).
  assert (Hr : interestRatePerPayment (interestRate s) (paymentsPerYearOf s)
               = Fin 0%Qc).
  { unfold interestRatePerPayment. rewrite (is_zero_fin _ Hzero).
    rewrite (periodic_fin 0%Qc _ (paymentsPerYearOf_pos s)). f_equal.
    pose proof (paymentsPerYearOf_pos s).
    field. split; apply Q2Qc_inject_neq0; lia. }
  assert (HA : adjustedPayment (paymentAmountOf s) (paymentIncrease s)
               = Fin (m / n * (1 + inc / Q2Qc 100))).
  { unfold adjustedPayment. rewrite zero_rate_payment, Hinc. unfold ofZ.
    rewrite ndiv_fin by (apply (Q2Qc_inject_neq0 100); lia). reflexivity. }
  assert (Hpre : (mortgageAmount s * (annualPrepayment s / ofZ 100))%num
                 = Fin (m * (a / Q2Qc 100))).
  { rewrite Hm, Ha. unfold ofZ.
    rewrite ndiv_fin by (apply (Q2Qc_inject_neq0 100); lia). reflexivity. }
  enough (H : exists b, Var.balance (scheduleLoop (mortgageAmount s) (interestRate s)
               (amortizationPeriod s) (paymentAmountOf s) (paymentsPerYearOf s)
               (term s) (extraPayment s) (paymentIncrease s) (annualPrepayment s))
             = Fin b /\
             Var.totalInterestPaid (scheduleLoop (mortgageAmount s) (interestRate s)
               (amortizationPeriod s) (paymentAmountOf s) (paymentsPerYearOf s)
               (term s) (extraPayment s) (paymentIncrease s) (annualPrepayment s))
             = Fin 0%Qc).
  { destruct H as (b & _ & H). exact H. }
  apply (scheduleLoop_preserves _ _ _ _ _ _ _ _ _
           (fun l => exists b, Var.balance l = Fin b /\
                               Var.totalInterestPaid l = Fin 0%Qc)).
  - intros l H. exact H.
  - intros y i l (b & Hb & Ht) _. eexists. split.
    + apply (payment_balance _ _ _ _ _ _ _ _ _ Hr HA He). exact Hb.
    + rewrite (payment_interest _ _ _ _ _ _ _ Hr y i l b 0%Qc Hb Ht).
      f_equal. ring.
  - intros l H. exact H.
  - intros l (b & Hb & Ht). eexists. split.
    + apply (applyPrepayment_balance _ _ _ Hpre). exact Hb.
    + unfold applyPrepayment. destruct (_ && _); exact Ht.
  - intros y l H. exact H.
  - exists m. split; [exact Hm | reflexivity].
Qed.

Lemma zero_rate_monthlyPayment :
  (monthlyPayment (calculateMortgage s)
   * ofZ (amortizationPeriod s) * ofZ 12)%num = mortgageAmount s.
Proof.
  unfold calculateMortgage; cbn [monthlyPayment].
  fold (paymentsPerYearOf s). rewrite zero_rate_payment, Hm.
  assert (Hn : n = (Q2Qc (inject_Z (amortizationPeriod s))
                    * Q2Qc (inject_Z (paymentsPerYearOf s)))%Qc)
    by apply Q2Qc_inject_mul.
  assert (HYq : Q2Qc (inject_Z (amortizationPeriod s)) <> 0%Qc)
    by (apply Q2Qc_inject_neq0; lia).
  assert (Hpq : Q2Qc (inject_Z (paymentsPerYearOf s)) <> 0%Qc)
    by (apply Q2Qc_inject_neq0; pose proof (paymentsPerYearOf_pos s); lia).
  assert (H12 : Q2Qc (inject_Z 12) <> 0%Qc) by (apply Q2Qc_inject_neq0; lia).
  destruct (String.eqb (paymentFrequency s) "monthly") eqn:Ef.
  - apply String.eqb_eq in Ef.
    assert (Hp : paymentsPerYearOf s = 12)
      by (unfold paymentsPerYearOf; rewrite Ef; reflexivity).
    rewrite Hp in Hn. unfold ofZ. rewrite !nmul_fin. f_equal.
    rewrite Hn. field. split; assumption.
  - unfold ofZ. rewrite nmul_fin, (ndiv_fin _ _ H12), !nmul_fin. f_equal.
    rewrite Hn. field. repeat split; assumption.
Qed.

Lemma zero_rate_payments_sum :
  (paymentAmountOf s * ofZ (totalPayments s))%num = mortgageAmount s.
Proof.
  rewrite zero_rate_payment, Hm. unfold ofZ. rewrite nmul_fin. f_equal.
  fold n. field. apply Q2Qc_inject_neq0. pose proof totalPayments_pos. lia.
Qed.

End ZeroRate.

(** C6, as amended.  At rate 0 with a frequency that is not accelerated
    (finite amounts, at least one year) no interest is ever charged; the
    payment of a period times the number of payments
    [amortizationPeriod * paymentsPerYear] is the principal; and the
    monthly payment, which is the monthly equivalent of the payment of a
    period, times [amortizationPeriod * 12] is the principal: its product
    with [amortizationPeriod * paymentsPerYear] is the principal when the
    frequency is monthly. *)
Theorem zero_rate_scenario (s : ScenarioState) (m e inc a : Qc) :
  is_zero (interestRate s) = true ->
  accelerated (paymentFrequency s) = false ->
  mortgageAmount s = Fin m ->
  extraPayment s = Fin e ->
  paymentIncrease s = Fin inc ->
  annualPrepayment s = Fin a ->
  1 <= amortizationPeriod s ->
  let r := calculateMortgage s in
  totalInterestLifetime r = ofZ 0 /\
  (paymentAmountOf s * ofZ (totalPayments s))%num = mortgageAmount s /\
  (monthlyPayment r * ofZ (amortizationPeriod s) * ofZ 12)%num
    = mortgageAmount s /\
  (paymentFrequency s = "monthly"%string ->
   (monthlyPayment r * ofZ (amortizationPeriod s) * ofZ (paymentsPerYearOf s))%num
     = mortgageAmount s).
Proof.
  intros Hz Hstd Hm He Hinc Ha HY. cbv zeta.
  split; [|split; [|split]].
  - apply (zero_rate_interest s m e inc a); assumption.
  - apply (zero_rate_payments_sum s m); assumption.
  - apply (zero_rate_monthlyPayment s m); assumption.
  - intros Hf.
    replace (paymentsPerYearOf s) with 12
      by (unfold paymentsPerYearOf; rewrite Hf; reflexivity).
    apply (zero_rate_monthlyPayment s m); assumption.
Qed.

Lemma zero_rate_scenario_witness :
  let s := zeroRateBiweekly in
  totalInterestLifetime (calculateMortgage s) = ofZ 0 /\
  (paymentAmountOf s * ofZ 650)%num = ofZ 400000 /\
  (monthlyPayment (calculateMortgage s) * ofZ 25 * ofZ 12)%num = ofZ 400000.
Proof.
  cbv zeta.
  destruct (zero_rate_scenario zeroRateBiweekly
              (Q2Qc 400000) (Q2Qc 0) (Q2Qc 0) (Q2Qc 0)
              eq_refl eq_refl eq_refl eq_refl eq_refl eq_refl)
    as (H1 & H2 & H3 & _).
  - simpl. lia.
  - split; [exact H1 | split; [exact H2 | exact H3]].
Defined.

(** C6, counterexample.  At rate 0 and paid every two weeks, the monthly
    payment times the 25 x 26 payments is 26/12 of the principal. *)
Lemma zero_rate_biweekly_product :
  let s := zeroRateBiweekly in
  is_zero (interestRate s) = true /\
  (monthlyPayment (calculateMortgage s)
   * ofZ (amortizationPeriod s) * ofZ (paymentsPerYearOf s))%num
    = (ofZ 2600000 / ofZ 3)%num /\
  mortgageAmount s = ofZ 400000 /\
  (monthlyPayment (calculateMortgage s)
   * ofZ (amortizationPeriod s) * ofZ (paymentsPerYearOf s))%num
    <> mortgageAmount s.
Proof.
  cbv zeta. split; [reflexivity|].
  split; [num_compute|].
  split; [reflexivity|].
  intros H. apply num_eqb_eq in H. vm_compute in H. discriminate.
Qed.

(** ** A larger extra payment *)

Section Monotone.

Variables (principal annualInterestRate : num) (amortizationYears : Z)
          (paymentAmount : num) (paymentsPerYear_ term_ : Z)
          (paymentIncrease_ annualPrepayment_ : num).
Variables (r A pre e1 e2 : Qc).

Hypothesis Hr : interestRatePerPayment annualInterestRate paymentsPerYear_ = Fin r.
Hypothesis HA : adjustedPayment paymentAmount paymentIncrease_ = Fin A.
Hypothesis Hpre : (principal * (annualPrepayment_ / ofZ 100))%num = Fin pre.
Hypothesis Hr0 : (0 <= r)%Qc.
Hypothesis He12 : (e1 <= e2)%Qc.

(** The pieces of the loop, for the extra payment [e]. *)
Let pay (e : Qc) :=
  payment annualInterestRate paymentAmount paymentsPerYear_ term_
          (Fin e) paymentIncrease_.
Let payIter (e : Qc) :=
  paymentIter annualInterestRate paymentAmount paymentsPerYear_ term_
              (Fin e) paymentIncrease_.
Let yrIter (e : Qc) :=
  yearIter principal annualInterestRate paymentAmount paymentsPerYear_ term_
           (Fin e) paymentIncrease_ annualPrepayment_.
Let prepay := applyPrepayment principal annualPrepayment_.

Lemma ahead_refl l b t :
  Var.balance l = Fin b -> Var.totalInterestPaid l = Fin t -> ahead l l.
Proof.
  intros Hb Ht. exists b, t, b, t.
  repeat split; try assumption; auto using Qcle_refl with zarith.
Qed.

(** Each piece of the loop keeps a run ahead of where it was. *)
Lemma ahead_count l0 l : ahead l0 l -> ahead l0 (countPayment l).
Proof.
  intros (b & t & b' & t' & Hb & Ht & Hb' & Ht' & Hle & HL & Hpos).
  exists b, t, b', t'. cbn. repeat split; try assumption. lia.
Qed.

Lemma ahead_payment e l0 y i l :
  ahead l0 l -> (Var.balance l <=? ofZ 0)%num = false ->
  ahead l0 (pay e y i l).
Proof.
  intros (b & t & b' & t' & Hb & Ht & Hb' & Ht' & Hle & HL & Hpos) Hrun.
  rewrite Hb', nleb_fin_0 in Hrun. apply Qcleb_gt in Hrun.
  exists b, t, (stepBalance r A e b'), (t' + b' * r)%Qc.
  split; [assumption|]. split; [assumption|].
  split; [apply (payment_balance _ _ _ _ _ _ _ _ _ Hr HA eq_refl); assumption|].
  split; [apply (payment_interest _ _ _ _ _ _ _ Hr); assumption|].
  split; [|split].
  - qc2q; nra.
  - exact HL.
  - intros _. apply stepBalance_nonneg.
Qed.

Lemma ahead_start l0 l : ahead l0 l -> ahead l0 (yearStart l).
Proof. intros H. exact H. Qed.

Lemma ahead_prepay l0 l : ahead l0 l -> ahead l0 (prepay l).
Proof.
  intros (b & t & b' & t' & Hb & Ht & Hb' & Ht' & Hle & HL & Hpos).
  pose proof (applyPrepayment_balance _ _ _ Hpre l b' Hb') as Hp.
  eexists b, t, _, t'. split; [assumption|]. split; [assumption|].
  split; [exact Hp|].
  split; [unfold prepay; rewrite applyPrepayment_interest; exact Ht'|].
  split; [assumption|]. split.
  - unfold prepay; rewrite applyPrepayment_count; exact HL.
  - intros H0. destruct (_ && _); [apply prepaid_nonneg | auto].
Qed.

Lemma ahead_push l0 y l : ahead l0 l -> ahead l0 (pushYear y l).
Proof. intros H. exact H. Qed.

Lemma ahead_paymentLoop e l0 y n i l :
  ahead l0 l -> ahead l0 (for_range (payIter e y) n i l).
Proof.
  apply (paymentLoop_preserves _ _ _ _ _ _ (ahead l0)).
  - apply ahead_count.
  - intros. apply ahead_payment; assumption.
Qed.

Lemma ahead_yearLoop e l0 n y l :
  ahead l0 l -> ahead l0 (for_range (yrIter e) n y l).
Proof.
  apply (yearLoop_preserves _ _ _ _ _ _ _ _ (ahead l0)).
  - apply ahead_count.
  - intros. apply ahead_payment; assumption.
  - apply ahead_start.
  - apply ahead_prepay.
  - apply ahead_push.
Qed.

(** A run that has stopped is dominated by the other run, however far
    that one goes on. *)
Lemma dominates_ahead l1 l2 l1' b1 b2 :
  dominates l1 l2 -> ahead l1 l1' ->
  Var.balance l1 = Fin b1 -> (0 <= b1)%Qc ->
  Var.balance l2 = Fin b2 -> (b2 <= 0)%Qc ->
  dominates l1' l2.
Proof.
  intros (c1 & t1 & c2 & t2 & Hb1 & Ht1 & Hb2 & Ht2 & Hb & Ht & HL)
         (b & t & b' & t' & Hb0 & Ht0 & Hb' & Ht' & Hle & HL' & Hpos) E1 P1 E2 N2.
  rewrite Hb0 in E1. apply Fin_inj in E1. subst b.
  rewrite Hb2 in E2. apply Fin_inj in E2. subst c2.
  rewrite Ht0 in Ht1. apply Fin_inj in Ht1. subst t1.
  specialize (Hpos P1).
  exists b', t', b2, t2. repeat split; try assumption.
  - qc_lra.
  - qc_lra.
  - lia.
Qed.

Lemma dominates_count l1 l2 :
  dominates l1 l2 -> dominates (countPayment l1) (countPayment l2).
Proof.
  intros (b1 & t1 & b2 & t2 & Hb1 & Ht1 & Hb2 & Ht2 & Hb & Ht & HL).
  exists b1, t1, b2, t2. cbn. repeat split; try assumption. lia.
Qed.

Lemma dominates_payment y i l1 l2 :
  dominates l1 l2 -> dominates (pay e1 y i l1) (pay e2 y i l2).
Proof.
  intros (b1 & t1 & b2 & t2 & Hb1 & Ht1 & Hb2 & Ht2 & Hb & Ht & HL).
  exists (stepBalance r A e1 b1), (t1 + b1 * r)%Qc,
         (stepBalance r A e2 b2), (t2 + b2 * r)%Qc.
  split; [apply (payment_balance _ _ _ _ _ _ _ _ _ Hr HA eq_refl); assumption|].
  split; [apply (payment_interest _ _ _ _ _ _ _ Hr); assumption|].
  split; [apply (payment_balance _ _ _ _ _ _ _ _ _ Hr HA eq_refl); assumption|].
  split; [apply (payment_interest _ _ _ _ _ _ _ Hr); assumption|].
  split; [|split].
  - apply stepBalance_mono; assumption.
  - qc2q; nra.
  - exact HL.
Qed.

Lemma dominates_prepay l1 l2 :
  dominates l1 l2 -> dominates (prepay l1) (prepay l2).
Proof.
  intros (b1 & t1 & b2 & t2 & Hb1 & Ht1 & Hb2 & Ht2 & Hb & Ht & HL).
  pose proof (applyPrepayment_balance _ _ _ Hpre l1 b1 Hb1) as Hp1.
  pose proof (applyPrepayment_balance _ _ _ Hpre l2 b2 Hb2) as Hp2.
  eexists _, t1, _, t2.
  split; [exact Hp1|].
  split; [unfold prepay; rewrite applyPrepayment_interest; exact Ht1|].
  split; [exact Hp2|].
  split; [unfold prepay; rewrite applyPrepayment_interest; exact Ht2|].
  split; [|split].
  - destruct (ngtb annualPrepayment_ (ofZ 0)); cbn [andb]; [|assumption].
    pose proof (prepaid_nonneg pre b1). pose proof (prepaid_mono pre b1 b2 Hb).
    destruct (Qcltb 0 b1) eqn:E1, (Qcltb 0 b2) eqn:E2; reflect_cmp;
      try assumption; qc_lra.
  - assumption.
  - unfold prepay. rewrite !applyPrepayment_count. exact HL.
Qed.

Lemma dominates_paymentLoop y n :
  forall i l1 l2,
    dominates l1 l2 ->
    dominates (for_range (payIter e1 y) n i l1) (for_range (payIter e2 y) n i l2).
Proof.
  induction n as [|n IH]; intros i l1 l2 H; [exact H|].
  pose proof (dominates_count _ _ H) as Hc.
  destruct H as (b1 & t1 & b2 & t2 & Hb1 & Ht1 & Hb2 & Ht2 & Hb & Ht & HL).
  cbn [for_range]. unfold payIter at 1 3, paymentIter.
  cbn [countPayment Var.balance]. rewrite Hb1, Hb2, !nleb_fin_0.
  destruct (Qcleb b1 0) eqn:E1, (Qcleb b2 0) eqn:E2; reflect_cmp.
  - exact Hc.
  - exfalso. qc_lra.
  - apply (dominates_ahead (countPayment l1) (countPayment l2) _ b1 b2);
      try assumption; [|qc_lra].
    apply ahead_paymentLoop. apply ahead_payment.
    + apply (ahead_refl _ b1 t1); assumption.
    + cbn [countPayment Var.balance]. rewrite Hb1, nleb_fin_0.
      apply Qcleb_gt. assumption.
  - apply IH. apply dominates_payment. exact Hc.
Qed.

Lemma dominates_yearLoop n :
  forall y l1 l2,
    dominates l1 l2 ->
    dominates (for_range (yrIter e1) n y l1) (for_range (yrIter e2) n y l2).
Proof.
  induction n as [|n IH]; intros y l1 l2 H; [exact H|].
  cbn [for_range]. unfold yrIter at 1 3, yearIter.
  assert (H' : dominates
            (pushYear y (prepay (for_range (payIter e1 y)
                                   (Z.to_nat paymentsPerYear_) 1 (yearStart l1))))
            (pushYear y (prepay (for_range (payIter e2 y)
                                   (Z.to_nat paymentsPerYear_) 1 (yearStart l2))))).
  { apply dominates_prepay. apply dominates_paymentLoop. exact H. }
  unfold paymentsOfYear. fold (payIter e1) (payIter e2) prepay.
  set (k1 := pushYear y (prepay (for_range (payIter e1 y) _ 1 (yearStart l1)))) in *.
  set (k2 := pushYear y (prepay (for_range (payIter e2 y) _ 1 (yearStart l2)))) in *.
  pose proof H' as (b1 & t1 & b2 & t2 & Hb1 & Ht1 & Hb2 & Ht2 & Hb & Ht & HL).
  rewrite Hb1, Hb2, !nleb_fin_0.
  destruct (Qcleb b1 0) eqn:E1, (Qcleb b2 0) eqn:E2; reflect_cmp.
  - exact H'.
  - exfalso. qc_lra.
  - apply (dominates_ahead k1 k2 _ b1 b2); try assumption; [|qc_lra].
    apply ahead_yearLoop. apply (ahead_refl _ b1 t1); assumption.
  - apply IH. exact H'.
Qed.

End Monotone.

Lemma ofZ_div_mono (a b p : Z) :
  0 < p -> a <= b -> nle (ofZ a / ofZ p) (ofZ b / ofZ p).
Proof.
  intros Hp Hab. unfold ofZ.
  rewrite !ndiv_fin by (apply Q2Qc_inject_neq0; lia).
  unfold nle, nleb. apply Qcleb_le. unfold Qcle.
  rewrite !this_div, !this_Q2Qc.
  apply Qmult_le_compat_r.
  - rewrite <- Zle_Qle. exact Hab.
  - apply Qinv_le_0_compat. replace 0%Q with (inject_Z 0) by reflexivity.
    rewrite <- Zle_Qle. lia.
Qed.

Lemma adjustedPayment_fin (p inc : Qc) :
  adjustedPayment (Fin p) (Fin inc) = Fin (p * (1 + inc / Q2Qc 100)).
Proof.
  unfold adjustedPayment, ofZ.
  rewrite ndiv_fin by (apply (Q2Qc_inject_neq0 100); lia). reflexivity.
Qed.

Lemma prepaymentAmount_fin (m a : Qc) :
  (Fin m * (Fin a / ofZ 100))%num = Fin (m * (a / Q2Qc 100)).
Proof.
  unfold ofZ. rewrite ndiv_fin by (apply (Q2Qc_inject_neq0 100); lia).
  reflexivity.
Qed.

Lemma periodic_nonneg (R : Qc) (p : Z) :
  (0 <= R)%Qc -> 0 < p -> (0 <= R / Q2Qc 100 / Q2Qc (inject_Z p))%Qc.
Proof.
  intros HR Hp. destruct (Qc_eq_dec R 0) as [->|Hne].
  - replace (0 / Q2Qc 100 / Q2Qc (inject_Z p))%Qc with 0%Qc.
    + apply Qcle_refl.
    + field. split; apply Q2Qc_inject_neq0; lia.
  - apply Qclt_le_weak, periodic_pos; [|assumption].
    destruct (Qcle_lt_or_eq _ _ HR) as [H|H]; [assumption|].
    exfalso. apply Hne. symmetry. exact H.
Qed.



(** ** Paying the loan off *)

Section Payoff.

Variables (principal annualInterestRate : num) (amortizationYears : Z)
          (paymentAmount : num) (paymentsPerYear_ term_ : Z)
          (extraPayment_ paymentIncrease_ annualPrepayment_ : num).
Variables (r A e pre M : Qc).

Hypothesis Hr : interestRatePerPayment annualInterestRate paymentsPerYear_ = Fin r.
Hypothesis HA : adjustedPayment paymentAmount paymentIncrease_ = Fin A.
Hypothesis He : extraPayment_ = Fin e.
Hypothesis Hpre : (principal * (annualPrepayment_ / ofZ 100))%num = Fin pre.
Hypothesis HM : principal = Fin M.
Hypothesis Hr0 : (0 <= r)%Qc.
Hypothesis HM0 : (0 <= M)%Qc.
Hypothesis Hpre0 : ngtb annualPrepayment_ (ofZ 0) = true -> (0 <= pre)%Qc.
Hypothesis Hppy : 0 <= paymentsPerYear_.

Let inv := payoffInv r A M.

Lemma payoff_payment y i k l :
  inv k l -> (Var.balance l <=? ofZ 0)%num = false ->
  inv (S k)
    (payment annualInterestRate paymentAmount paymentsPerYear_ term_
       extraPayment_ paymentIncrease_ y i l).
Proof.
  intros (b & Hb & Hb0 & Hbound & Hs) Hrun.
  rewrite Hb, nleb_fin_0 in Hrun. apply Qcleb_gt in Hrun.
  exists (stepBalance r A e b).
  split; [apply (payment_balance _ _ _ _ _ _ _ _ _ Hr HA He); exact Hb|].
  split; [apply stepBalance_nonneg|]. split; [|exact Hs].
  destruct Hbound as [Hneg|Hle]; [exfalso; qc_lra|].
  pose proof (stepBalance_le_owed r A e b) as H1.
  pose proof (owed_mono r A _ _ Hr0 Hle) as H2.
  cbn [refBalance]. unfold owed at 2 in H2. unfold qmax in H2.
  destruct (Qcleb _ _) eqn:E in H2; reflect_cmp.
  - left. qc_lra.
  - right. qc_lra.
Qed.

Lemma payoff_paymentsOfYear y l :
  1 <= y ->
  inv (Z.to_nat ((y - 1) * paymentsPerYear_)) l ->
  inv (Z.to_nat (y * paymentsPerYear_))
    (paymentsOfYear annualInterestRate paymentAmount paymentsPerYear_ term_
       extraPayment_ paymentIncrease_ y l).
Proof.
  intros Hy H. unfold paymentsOfYear.
  apply (for_range_inv _
           (fun i l => 1 <= i /\
                       inv (Z.to_nat ((y - 1) * paymentsPerYear_ + i - 1)) l)
           (inv (Z.to_nat (y * paymentsPerYear_)))).
  - intros i s [Hi Hs] Hb. unfold paymentIter in *.
    destruct (nleb _ _) eqn:E; [discriminate Hb|]. cbn [fst]. split; [lia|].
    replace (Z.to_nat ((y - 1) * paymentsPerYear_ + (i + 1) - 1))
      with (S (Z.to_nat ((y - 1) * paymentsPerYear_ + i - 1))) by nia.
    apply payoff_payment; [exact Hs | exact E].
  - intros i s [Hi (b & Hb & Hb0 & _ & Hs)] Hbrk. unfold paymentIter in *.
    destruct (nleb _ _) eqn:E; [|discriminate Hbrk]. cbn [fst].
    cbn [countPayment Var.balance] in E. rewrite Hb, nleb_fin_0 in E.
    apply Qcleb_le in E.
    exists b. repeat split; auto.
  - split; [lia|].
    replace ((y - 1) * paymentsPerYear_ + 1 - 1) with ((y - 1) * paymentsPerYear_)
      by lia.
    exact H.
  - intros s' [_ Hs'].
    replace ((y - 1) * paymentsPerYear_
             + (1 + Z.of_nat (Z.to_nat paymentsPerYear_)) - 1)
      with (y * paymentsPerYear_) in Hs' by lia.
    exact Hs'.
Qed.

Lemma payoff_prepay k l :
  inv k l -> inv k (applyPrepayment principal annualPrepayment_ l).
Proof.
  intros (b & Hb & Hb0 & Hbound & Hs).
  pose proof (applyPrepayment_balance _ _ _ Hpre l b Hb) as Hp.
  exists (if ngtb annualPrepayment_ (ofZ 0) && Qcltb 0 b
          then prepaid pre b else b).
  split; [exact Hp|].
  split; [|split; [|rewrite applyPrepayment_schedule; exact Hs]].
  - destruct (_ && _); [apply prepaid_nonneg | exact Hb0].
  - destruct (ngtb annualPrepayment_ (ofZ 0)) eqn:Ea; cbn [andb];
      [|exact Hbound].
    destruct (Qcltb 0 b) eqn:Eb; [|exact Hbound].
    pose proof (prepaid_le pre b (Hpre0 eq_refl) Hb0) as Hle.
    destruct Hbound as [H|H]; [left|right]; qc_lra.
Qed.

Lemma payoff_yearIter y l :
  1 <= y ->
  inv (Z.to_nat ((y - 1) * paymentsPerYear_)) l ->
  inv (Z.to_nat (y * paymentsPerYear_))
    (fst (yearIter principal annualInterestRate paymentAmount paymentsPerYear_
            term_ extraPayment_ paymentIncrease_ annualPrepayment_ y l)).
Proof.
  intros Hy H. unfold yearIter; cbn [fst].
  assert (H0 : inv (Z.to_nat ((y - 1) * paymentsPerYear_)) (yearStart l))
    by exact H.
  apply (payoff_paymentsOfYear y _ Hy), payoff_prepay in H0.
  destruct H0 as (b & Hb & Hb0 & Hbound & Hs).
  exists b. unfold pushYear; cbn [Var.balance Var.yearlySchedule].
  repeat split; try assumption.
  apply Forall_app. split; [exact Hs|].
  constructor; [|constructor]. cbn [endingBalance]. rewrite Hb. exact I.
Qed.

(** If [amortizationYears * paymentsPerYear] payments of [A] pay the
    reference loan off, the loop ends with the balance 0. *)
Lemma payoff_scheduleLoop :
  0 <= amortizationYears ->
  (refBalance r A M (Z.to_nat (amortizationYears * paymentsPerYear_)) <= 0)%Qc ->
  let l := scheduleLoop principal annualInterestRate amortizationYears
             paymentAmount paymentsPerYear_ term_ extraPayment_
             paymentIncrease_ annualPrepayment_ in
  Var.balance l = Fin 0%Qc /\
  Forall (fun it => finite (endingBalance it)) (Var.yearlySchedule l).
Proof.
  intros HY Href. cbv zeta.
  enough (H : inv (Z.to_nat (amortizationYears * paymentsPerYear_))
                (scheduleLoop principal annualInterestRate amortizationYears
                   paymentAmount paymentsPerYear_ term_ extraPayment_
                   paymentIncrease_ annualPrepayment_)).
  { destruct H as (b & Hb & Hb0 & Hbound & Hs). split; [|exact Hs].
    rewrite Hb. f_equal. apply Qcle_antisym; [|exact Hb0].
    destruct Hbound as [H|H]; [exact H|].
    eapply Qcle_trans; [exact H | exact Href]. }
  unfold scheduleLoop.
  apply (for_range_inv _
           (fun y l => 1 <= y /\
                       inv (Z.to_nat ((y - 1) * paymentsPerYear_)) l)
           (inv (Z.to_nat (amortizationYears * paymentsPerYear_)))).
  - intros y s [Hy Hs] _. split; [lia|].
    replace (y + 1 - 1) with y by lia. apply payoff_yearIter; assumption.
  - intros y s [Hy Hs] Hbrk.
    pose proof (payoff_yearIter y s Hy Hs) as (b & Hb & Hb0 & _ & Hsch).
    unfold yearIter in Hbrk; cbn [snd] in Hbrk.
    unfold yearIter in Hb; cbn [fst] in Hb.
    rewrite Hb, nleb_fin_0 in Hbrk. apply Qcleb_le in Hbrk.
    exists b. repeat split; auto.
  - split; [lia|]. exists M. cbn. repeat split; auto.
    right. apply Qcle_refl.
  - intros s' [_ Hs'].
    replace (1 + Z.of_nat (Z.to_nat amortizationYears) - 1)
      with amortizationYears in Hs' by lia.
    exact Hs'.
Qed.

End Payoff.

(** ** The reference balance *)

Lemma Qcpowz_nat (x : Qc) (k : nat) : Qcpowz x (Z.of_nat k) = (x ^ k)%Qc.
Proof.
  induction k as [|k IH].
  - reflexivity.
  - rewrite Nat2Z.inj_succ. unfold Z.succ. cbn [Qcpower]. rewrite <- IH.
    apply Qc_is_canon. rewrite this_mult, !this_powz.
    rewrite Qpower_plus' by lia. rewrite Qpower_1_r. ring.
Qed.

Lemma refBalance_mono (r A1 A2 M : Qc) (k : nat) :
  (0 <= r)%Qc -> (A1 <= A2)%Qc ->
  (refBalance r A2 M k <= refBalance r A1 M k)%Qc.
Proof.
  intros Hr HA. induction k as [|k IH]; cbn [refBalance].
  - apply Qcle_refl.
  - generalize dependent (refBalance r A2 M k).
    generalize dependent (refBalance r A1 M k). intros. qc2q; nra.
Qed.

Lemma refBalance_closed (r A M : Qc) (k : nat) :
  (r * refBalance r A M k
   = M * r * (1 + r) ^ k - A * ((1 + r) ^ k - 1))%Qc.
Proof.
  induction k as [|k IH]; cbn [refBalance Qcpower].
  - ring.
  - replace (r * (refBalance r A M k * (1 + r) - A))%Qc
      with ((r * refBalance r A M k) * (1 + r) - r * A)%Qc by ring.
    rewrite IH. ring.
Qed.

Lemma refBalance_zero_rate (A M : Qc) (k : nat) :
  (refBalance 0 A M k = M - Q2Qc (inject_Z (Z.of_nat k)) * A)%Qc.
Proof.
  induction k as [|k IH]; cbn [refBalance].
  - change (Q2Qc (inject_Z (Z.of_nat 0))) with 0%Qc. ring.
  - rewrite IH. rewrite Nat2Z.inj_succ. unfold Z.succ.
    replace (Q2Qc (inject_Z (Z.of_nat k + 1)))
      with (Q2Qc (inject_Z (Z.of_nat k)) + 1)%Qc.
    + ring.
    + apply Qc_is_canon. rewrite this_plus, !this_Q2Qc, inject_Z_plus.
      reflexivity.
Qed.

(** The annuity payment pays the reference loan off in [n] payments,
    and so does any larger payment. *)
Lemma refBalance_annuity (r A M : Qc) (n : Z) :
  (0 < r)%Qc -> 0 < n ->
  (M * (r * Qcpowz (1 + r) n) / (Qcpowz (1 + r) n - 1) <= A)%Qc ->
  (refBalance r A M (Z.to_nat n) <= 0)%Qc.
Proof.
  intros Hr Hn HA.
  pose proof (Qcpowz_gt1 (1 + r) n) as HX.
  assert (H1 : (1 < 1 + r)%Qc) by qc_lra. specialize (HX H1 Hn).
  pose proof (refBalance_closed r A M (Z.to_nat n)) as Hc.
  rewrite <- Qcpowz_nat, Z2Nat.id in Hc by lia.
  set (X := Qcpowz (1 + r) n) in *.
  assert (HP : (M * (r * X) <= A * (X - 1))%Qc).
  { assert (E : (M * (r * X) = M * (r * X) / (X - 1) * (X - 1))%Qc).
    { field. intros E. qc_lra. }
    rewrite E. apply Qcmult_le_compat_r; [exact HA | qc_lra]. }
  generalize dependent (refBalance r A M (Z.to_nat n)). intros B Hc.
  clearbody X.
  assert (Hneg : (r * B <= 0)%Qc) by (rewrite Hc; qc_lra).
  destruct (Qclt_le_dec 0 B) as [Hpos|Hle]; [|exact Hle].
  exfalso. qc2q; nra.
Qed.

Lemma refBalance_zero_rate_payoff (A M : Qc) (n : Z) :
  0 < n -> (M / Q2Qc (inject_Z n) <= A)%Qc ->
  (refBalance 0 A M (Z.to_nat n) <= 0)%Qc.
Proof.
  intros Hn HA. rewrite refBalance_zero_rate, Z2Nat.id by lia.
  pose proof (Q2Qc_inject_pos n Hn) as Hq.
  set (q := Q2Qc (inject_Z n)) in *. clearbody q.
  assert (E : (M = M / q * q)%Qc) by (field; intros E; qc_lra).
  assert (H : (M / q * q <= A * q)%Qc)
    by (apply Qcmult_le_compat_r; [exact HA | qc_lra]).
  rewrite <- E in H. qc_lra.
Qed.

(** ** The payment covers the annuity *)

Lemma Qcdiv_nonneg (a b : Qc) : (0 <= a)%Qc -> (0 < b)%Qc -> (0 <= a / b)%Qc.
Proof.
  intros Ha Hb. unfold Qcle, Qclt in *. rewrite this_div.
  change (this 0%Qc) with 0%Q in *.
  apply Qle_shift_div_l; [assumption|]. rewrite Qmult_0_l. assumption.
Qed.

Lemma Qcmult_nonneg3 (a b c : Qc) :
  (0 <= a)%Qc -> (0 <= b)%Qc -> (0 <= c)%Qc -> (0 <= a * (b * c))%Qc.
Proof.
  intros Ha Hb Hc. qc2q.
  apply Qmult_le_0_compat; [|apply Qmult_le_0_compat]; assumption.
Qed.

Lemma is_zero_false_pos (R : Qc) :
  (0 <= R)%Qc -> is_zero (Fin R) = false -> (0 < R)%Qc.
Proof.
  intros H0 Hz. simpl in Hz. apply Qceqb_neq in Hz.
  destruct (Qcle_lt_or_eq _ _ H0) as [H|H]; [exact H|].
  exfalso. apply Hz. symmetry. exact H.
Qed.

(** In a scenario with non-negative amounts (and not both the rate 0 and
    an accelerated frequency) the payment is a finite non-negative amount
    that pays the reference loan off in [totalPayments] payments. *)
Lemma payment_pays_off (s : ScenarioState) (m R inc : Qc) :
  mortgageAmount s = Fin m -> (0 <= m)%Qc ->
  interestRate s = Fin R -> (0 <= R)%Qc ->
  paymentIncrease s = Fin inc -> (0 <= inc)%Qc ->
  1 <= amortizationPeriod s ->
  (is_zero (interestRate s) = true -> accelerated (paymentFrequency s) = false) ->
  exists p : Qc,
    paymentAmountOf s = Fin p /\
    (refBalance (R / Q2Qc 100 / Q2Qc (inject_Z (paymentsPerYearOf s)))
       (p * (1 + inc / Q2Qc 100)) m (Z.to_nat (totalPayments s)) <= 0)%Qc.
Proof.
  intros Hm Hm0 HR HR0 Hinc Hinc0 HY Hsound.
  pose proof (paymentsPerYearOf_pos s) as Hppy.
  assert (Hn : 0 < totalPayments s) by (unfold totalPayments; nia).
  assert (Hup : forall p : Qc, (0 <= p)%Qc -> (p <= p * (1 + inc / Q2Qc 100))%Qc).
  { intros p Hp.
    assert (Hi : (0 <= inc / Q2Qc 100)%Qc)
      by (apply Qcdiv_nonneg; [assumption | apply (Q2Qc_inject_pos 100); lia]).
    generalize dependent (inc / Q2Qc 100)%Qc. intros. qc2q; nra. }
  set (r := (R / Q2Qc 100 / Q2Qc (inject_Z (paymentsPerYearOf s)))%Qc).
  destruct (is_zero (interestRate s)) eqn:Hz.
  - (* rate 0: the payment is principal/n *)
    specialize (Hsound eq_refl).
    pose proof (zero_rate_payment s m Hz Hsound Hm HY) as Hp.
    assert (HR' : R = 0%Qc).
    { rewrite HR in Hz. simpl in Hz. apply Qceqb_eq in Hz. exact Hz. }
    assert (Hr : r = 0%Qc).
    { unfold r. rewrite HR'. field. split; apply Q2Qc_inject_neq0; lia. }
    eexists. split; [exact Hp|]. rewrite Hr.
    apply refBalance_zero_rate_payoff; [assumption|].
    apply Hup. apply Qcdiv_nonneg; [assumption|].
    apply Q2Qc_inject_pos. assumption.
  - (* positive rate *)
    rewrite HR in Hz. pose proof (is_zero_false_pos R HR0 Hz) as HRpos.
    assert (Hr : (0 < r)%Qc) by (apply periodic_pos; assumption).
    destruct (annuityFormula_fin m r (totalPayments s) Hr Hn) as [HX EX].
    set (X := Qcpowz (1 + r) (totalPayments s)) in *.
    assert (Hpos : (0 <= m * (r * X) / (X - 1))%Qc).
    { apply Qcdiv_nonneg; [|qc_lra].
      apply Qcmult_nonneg3; [assumption | apply Qclt_le_weak; assumption | qc_lra]. }
    assert (Hf : annuityFormula (mortgageAmount s) (periodicRate s) (totalPayments s)
                 = Fin (m * (r * X) / (X - 1))).
    { unfold periodicRate. rewrite Hm, HR, (periodic_fin R _ Hppy). exact EX. }
    destruct (accelerated (paymentFrequency s)) eqn:Hacc.
    + destruct (accelerated_vs_periodic s m R Hm HR Hm0 HRpos HY Hacc)
        as (a & p & Ha & Hp & Hle & _).
      rewrite Hf in Hp. apply Fin_inj in Hp. subst p.
      exists a. split; [exact Ha|].
      apply refBalance_annuity; try assumption.
      eapply Qcle_trans; [exact Hle|]. apply Hup.
      eapply Qcle_trans; [exact Hpos | exact Hle].
    + exists (m * (r * X) / (X - 1))%Qc. split.
      * rewrite (paymentAmountOf_standard s Hacc), HR, Hz. exact Hf.
      * apply refBalance_annuity; try assumption. apply Hup. exact Hpos.
Qed.

(** ** The sum of the principal paid *)

Lemma nsub_fin_inv (a c : Qc) (x : num) :
  (Fin a - x)%num = Fin c -> x = Fin (a - c).
Proof.
  destruct x as [q| | |]; try discriminate. unfold nsub, nneg, nadd.
  intros H. apply Fin_inj in H. f_equal. qc_lra.
Qed.

Lemma sum_of_chain (sched : list AmortizationItem) :
  forall a acc : Qc,
    chained (Fin a) sched ->
    Forall (fun it => finite (endingBalance it)) sched ->
    exists c : Qc,
      lastBalance (Fin a) sched = Fin c /\
      fold_left (fun acc it => (acc + principalPaid it)%num) sched (Fin acc)
      = Fin (acc + a - c).
Proof.
  induction sched as [|it rest IH]; intros a acc Hc Hfin.
  - exists a. split; [reflexivity|]. cbn. f_equal. ring.
  - destruct Hc as [He Hc]. inversion Hfin as [|? ? Hf Hfin']; subst.
    destruct (endingBalance it) as [c1| | |] eqn:E; try contradiction.
    symmetry in He. apply nsub_fin_inv in He.
    destruct (IH c1 (acc + (a - c1))%Qc Hc Hfin') as (c & Hl & Hs).
    exists c. split.
    + unfold lastBalance in *. cbn [fold_left]. rewrite E. exact Hl.
    + cbn [fold_left]. rewrite He. cbn [nadd]. rewrite Hs. f_equal. ring.
Qed.

(** ** The length of the schedule *)

Section Length.

Variables (principal annualInterestRate : num) (amortizationYears : Z)
          (paymentAmount : num) (paymentsPerYear_ term_ : Z)
          (extraPayment_ paymentIncrease_ annualPrepayment_ : num).

Let yearIter' :=
  yearIter principal annualInterestRate paymentAmount paymentsPerYear_ term_
           extraPayment_ paymentIncrease_ annualPrepayment_.

Lemma yearIter_schedule y l :
  Var.yearlySchedule (fst (yearIter' y l))
  = Var.yearlySchedule l
    ++ [ {| year := y;
            principalPaid := Var.yearlyPrincipalPaid (fst (yearIter' y l));
            interestPaid := Var.yearlyInterestPaid (fst (yearIter' y l));
            extraPayments := Var.yearlyExtraPayments (fst (yearIter' y l));
            endingBalance := Var.balance (fst (yearIter' y l)) |} ].
Proof.
  unfold yearIter', yearIter; cbn [fst]. unfold pushYear; cbn.
  rewrite applyPrepayment_schedule.
  assert (H : yearInv (Var.balance l) (Var.yearlySchedule l) (yearStart l)).
  { split; [|reflexivity]. cbn. symmetry. apply nsub_0. }
  apply (paymentsOfYear_yearInv annualInterestRate paymentAmount paymentsPerYear_
           term_ extraPayment_ paymentIncrease_ _ _ y) in H.
  destruct H as [_ H]. rewrite H. reflexivity.
Qed.

(** The loop either runs all its years, or stops after a year whose
    ending balance is [<= 0]. *)
Lemma yearLoop_schedule n :
  forall y l,
    let l' := for_range yearIter' n y l in
    (exists rest,
       Var.yearlySchedule l' = Var.yearlySchedule l ++ rest /\
       length rest = n) \/
    (exists rest it,
       Var.yearlySchedule l' = rest ++ [it] /\
       nle (endingBalance it) (ofZ 0)).
Proof.
  induction n as [|n IH]; intros y l; cbv zeta.
  - left. exists []. split; [symmetry; apply app_nil_r | reflexivity].
  - cbn [for_range]. pose proof (yearIter_schedule y l) as Hs.
    destruct (yearIter' y l) as [l2 brk] eqn:E.
    assert (Hbrk : brk = (Var.balance l2 <=? ofZ 0)%num).
    { unfold yearIter', yearIter in E. inversion E. reflexivity. }
    cbn [fst] in Hs. destruct brk.
    + right. eexists _, _. split; [exact Hs|]. cbn [endingBalance].
      unfold nle. symmetry. exact Hbrk.
    + destruct (IH (y + 1) l2) as [(rest & Hr & Hlen)|Hstop].
      * left. eexists (_ :: rest). split.
        -- rewrite Hr, Hs, <- app_assoc. reflexivity.
        -- cbn. rewrite Hlen. reflexivity.
      * right. exact Hstop.
Qed.

End Length.

(** ** The schedule of a scenario *)

(** X24.  For every input: the schedule has [amortizationPeriod] years, or
    it ends with a year whose ending balance is [<= 0]. *)
Lemma schedule_length_or_stopped (s : ScenarioState) :
  0 <= amortizationPeriod s ->
  let sched := amortizationSchedule (calculateMortgage s) in
  Z.of_nat (length sched) = amortizationPeriod s \/
  (exists rest it, sched = rest ++ [it] /\ nle (endingBalance it) (ofZ 0)).
Proof.
  intros HY. cbv zeta.
  unfold calculateMortgage, generateAmortizationSchedule;
    cbn [amortizationSchedule Sched.yearlySchedule]. unfold scheduleLoop.
  destruct (yearLoop_schedule (mortgageAmount s) (interestRate s)
              (paymentAmountOf s) (paymentsPerYearOf s) (term s)
              (extraPayment s) (paymentIncrease s) (annualPrepayment s)
              (Z.to_nat (amortizationPeriod s)) 1 (initLocals (mortgageAmount s)))
    as [(rest & Hr & Hlen)|Hstop].
  - left. unfold paymentsPerYearOf in Hr. rewrite Hr. cbn [initLocals Var.yearlySchedule app].
    rewrite Hlen. lia.
  - right. exact Hstop.
Qed.

(** The loan cleared by its 30th payment, in year 3 of 5. *)
Lemma schedule_length_or_stopped_witness :
  let sched := amortizationSchedule (calculateMortgage zeroRateExtra) in
  Z.of_nat (length sched) = amortizationPeriod zeroRateExtra \/
  (exists rest it, sched = rest ++ [it] /\ nle (endingBalance it) (ofZ 0)).
Proof.
  apply (schedule_length_or_stopped zeroRateExtra). simpl. lia.
Defined.



(** ** Finite results *)

Lemma finite_fin (x : num) : finite x <-> exists q, x = Fin q.
Proof.
  destruct x; simpl; split; try contradiction; try (intros [q H]; discriminate).
  - intros _. eexists. reflexivity.
  - intros _. exact I.
Qed.

Lemma finite_nadd (x y : num) : finite x -> finite y -> finite (x + y).
Proof. destruct x, y; simpl; auto. Qed.

Lemma finite_nsub (x y : num) : finite x -> finite y -> finite (x - y).
Proof. destruct x, y; simpl; auto. Qed.

Lemma finite_nmin (x y : num) : finite x -> finite y -> finite (nmin x y).
Proof.
  destruct x, y; simpl; try contradiction. intros _ _.
  destruct (Qcleb q q0); exact I.
Qed.

Section FiniteLoop.

Variables (principal annualInterestRate : num) (amortizationYears : Z)
          (paymentAmount : num) (paymentsPerYear_ term_ : Z)
          (extraPayment_ paymentIncrease_ annualPrepayment_ : num).

Hypothesis Hr : finite (interestRatePerPayment annualInterestRate paymentsPerYear_).
Hypothesis HA : finite (adjustedPayment paymentAmount paymentIncrease_).
Hypothesis He : finite extraPayment_.
Hypothesis Hpre : finite (principal * (annualPrepayment_ / ofZ 100))%num.
Hypothesis HM : finite principal.

Lemma finite_interestForPayment l :
  finite (Var.balance l) ->
  finite (interestForPayment annualInterestRate paymentsPerYear_ l).
Proof.
  intros Hb. unfold interestForPayment.
  destruct (Var.balance l); try contradiction.
  destruct (interestRatePerPayment _ _); try contradiction. exact I.
Qed.

Lemma finite_regularPrincipal l :
  finite (Var.balance l) ->
  finite (regularPrincipal annualInterestRate paymentAmount paymentsPerYear_
            paymentIncrease_ l).
Proof.
  intros Hb. unfold regularPrincipal.
  apply finite_nmin; [|exact Hb].
  apply finite_nsub; [exact HA | apply finite_interestForPayment; exact Hb].
Qed.

Lemma finite_extraPrincipalPaid l :
  finite (Var.balance l) ->
  finite (extraPrincipalPaid annualInterestRate paymentAmount paymentsPerYear_
            extraPayment_ paymentIncrease_ l).
Proof.
  intros Hb. unfold extraPrincipalPaid. destruct (ngtb _ _); [|exact I].
  apply finite_nmin; [exact He|].
  apply finite_nsub; [exact Hb | apply finite_regularPrincipal; exact Hb].
Qed.

Lemma finite_principalForPayment l :
  finite (Var.balance l) ->
  finite (principalForPayment annualInterestRate paymentAmount paymentsPerYear_
            extraPayment_ paymentIncrease_ l).
Proof.
  intros Hb. unfold principalForPayment. destruct (ngtb _ _).
  - apply finite_nadd;
      [apply finite_regularPrincipal | apply finite_extraPrincipalPaid]; exact Hb.
  - apply finite_regularPrincipal; exact Hb.
Qed.

Lemma finite_scheduleLoop :
  finiteLocals
    (scheduleLoop principal annualInterestRate amortizationYears paymentAmount
       paymentsPerYear_ term_ extraPayment_ paymentIncrease_ annualPrepayment_).
Proof.
  apply scheduleLoop_preserves.
  - intros l H. exact H.
  - intros y i l (Hb & Ht & Hto & Hbt & Hyp & Hyi & Hye & Hs) _.
    pose proof (finite_principalForPayment l Hb) as Hp.
    pose proof (finite_interestForPayment l Hb) as Hi.
    pose proof (finite_extraPrincipalPaid l Hb) as Hx.
    unfold finiteLocals, payment;
      cbn [Var.balance Var.totalInterestPaid Var.totalInterestPaidOverTerm
           Var.balanceAtEndOfTerm Var.yearlyPrincipalPaid Var.yearlyInterestPaid
           Var.yearlyExtraPayments Var.yearlySchedule].
    repeat split; try assumption;
      try (destruct (_ && _)); try (destruct (ngtb _ _));
      auto using finite_nadd, finite_nsub.
  - intros l (Hb & Ht & Hto & Hbt & Hyp & Hyi & Hye & Hs).
    unfold finiteLocals, yearStart; cbn. repeat split; assumption.
  - intros l (Hb & Ht & Hto & Hbt & Hyp & Hyi & Hye & Hs).
    assert (Hamt : finite (annualPrepaymentAmount principal annualPrepayment_ l))
      by (apply finite_nmin; assumption).
    unfold applyPrepayment. destruct (_ && _);
      [|repeat split; assumption].
    unfold finiteLocals;
      cbn [Var.balance Var.totalInterestPaid Var.totalInterestPaidOverTerm
           Var.balanceAtEndOfTerm Var.yearlyPrincipalPaid Var.yearlyInterestPaid
           Var.yearlyExtraPayments Var.yearlySchedule].
    repeat split; auto using finite_nadd, finite_nsub.
  - intros y l (Hb & Ht & Hto & Hbt & Hyp & Hyi & Hye & Hs).
    unfold finiteLocals, pushYear;
      cbn [Var.balance Var.totalInterestPaid Var.totalInterestPaidOverTerm
           Var.balanceAtEndOfTerm Var.yearlyPrincipalPaid Var.yearlyInterestPaid
           Var.yearlyExtraPayments Var.yearlySchedule].
    repeat split; try assumption.
    apply Forall_app. split; [exact Hs|].
    constructor; [|constructor]. repeat split; assumption.
  - unfold finiteLocals, initLocals; cbn. repeat split; auto.
Qed.

End FiniteLoop.

(** The payment is a finite number, except at rate 0 with an accelerated
    frequency. *)
Lemma paymentAmountOf_finite (s : ScenarioState) (m R : Qc) :
  mortgageAmount s = Fin m ->
  interestRate s = Fin R -> (0 <= R)%Qc ->
  1 <= amortizationPeriod s ->
  (is_zero (interestRate s) = true -> accelerated (paymentFrequency s) = false) ->
  finite (paymentAmountOf s).
Proof.
  intros Hm HR HR0 HY Hsound.
  pose proof (paymentsPerYearOf_pos s) as Hppy.
  destruct (is_zero (interestRate s)) eqn:Hz.
  - rewrite (zero_rate_payment s m Hz (Hsound eq_refl) Hm HY). exact I.
  - rewrite HR in Hz. pose proof (is_zero_false_pos R HR0 Hz) as HRpos.
    assert (H12 : (0 < R / Q2Qc 100 / Q2Qc (inject_Z 12))%Qc)
      by (apply periodic_pos; [assumption | lia]).
    destruct (annuityFormula_fin m _ (amortizationPeriod s * 12) H12 ltac:(lia))
      as [_ E12].
    destruct (accelerated (paymentFrequency s)) eqn:Hacc.
    + destruct (accelerated_cases _ Hacc) as [Hf|Hf].
      * rewrite (paymentAmountOf_biweekly s Hf), Hm, HR.
        rewrite (periodic_fin R 12) by lia. rewrite E12. unfold ofZ.
        rewrite ndiv_fin by (apply (Q2Qc_inject_neq0 2); lia). exact I.
      * rewrite (paymentAmountOf_weekly s Hf), Hm, HR.
        rewrite (periodic_fin R 12) by lia. rewrite E12. unfold ofZ.
        rewrite ndiv_fin by (apply (Q2Qc_inject_neq0 4); lia). exact I.
    + rewrite (paymentAmountOf_standard s Hacc), HR, Hz.
      unfold periodicRate. rewrite Hm, HR, (periodic_fin R _ Hppy).
      assert (Hr : (0 < R / Q2Qc 100 / Q2Qc (inject_Z (paymentsPerYearOf s)))%Qc)
        by (apply periodic_pos; assumption).
      assert (Hn : 0 < totalPayments s) by (unfold totalPayments; nia).
      destruct (annuityFormula_fin m _ _ Hr Hn) as [_ E]. rewrite E. exact I.
Qed.



(** ** The defect at rate 0 with an accelerated frequency

    The accelerated branches of [calculateMortgage] compute the monthly
    equivalent by the annuity expression without the guard the standard
    path has for the rate 0.  At rate 0 the expression is 0/0, the payment
    is [NaN], and so is every amount derived from it. *)

(** C2.  At rate 0 with the accelerated biweekly frequency the monthly
    equivalent is computed by the annuity expression, which has no guard
    for the rate 0 and evaluates to 0/0: the payment, the monthly payment,
    both interest totals and the balance at the end of the term of the
    result are [NaN], where the standard path returns principal/n. *)
Theorem zero_rate_accelerated_nan :
  is_zero (interestRate zeroRateAccelerated) = true /\
  paymentAmountOf zeroRateAccelerated = NaN /\
  monthlyPayment (calculateMortgage zeroRateAccelerated) = NaN /\
  totalInterestLifetime (calculateMortgage zeroRateAccelerated) = NaN /\
  totalInterestTerm (calculateMortgage zeroRateAccelerated) = NaN /\
  balanceAtEndOfTerm (calculateMortgage zeroRateAccelerated) = NaN /\
  paymentAmountOf (withFrequency "biweekly" zeroRateAccelerated)
    = (ofZ 400000 / ofZ 650)%num.
Proof. vm_compute. repeat split. Qed.

(** C7.  At rate 0 with the accelerated biweekly frequency the interest
    over the lifetime is [NaN] whatever the extra payment, so that it is
    not [<=] itself: raising the extra payment from 0 to 200 does not give
    an interest total [<=] the former one.  (Same defect as C2: the
    accelerated payment is computed without the guard for the rate 0.) *)
Theorem extra_payment_nan :
  let s1 := withExtraPayment (ofZ 0) zeroRateAccelerated in
  let s2 := withExtraPayment (ofZ 200) zeroRateAccelerated in
  nle (extraPayment s1) (extraPayment s2) /\
  totalInterestLifetime (calculateMortgage s1) = NaN /\
  totalInterestLifetime (calculateMortgage s2) = NaN /\
  ~ nle (totalInterestLifetime (calculateMortgage s2))
        (totalInterestLifetime (calculateMortgage s1)).
Proof.
  cbv zeta. split; [reflexivity|].
  assert (H1 : totalInterestLifetime
                 (calculateMortgage (withExtraPayment (ofZ 0) zeroRateAccelerated))
               = NaN) by (vm_compute; reflexivity).
  assert (H2 : totalInterestLifetime
                 (calculateMortgage (withExtraPayment (ofZ 200) zeroRateAccelerated))
               = NaN) by (vm_compute; reflexivity).
  split; [exact H1|]. split; [exact H2|].
  rewrite H1, H2. unfold nle. simpl. discriminate.
Qed.

(** C9.  At rate 0 with the accelerated biweekly frequency the schedule
    has its 25 years, but every amount in it is [NaN]: the principal paid
    does not sum to the 400000 financed.  (Same defect as C2.) *)
Theorem schedule_sum_nan :
  let r := calculateMortgage zeroRateAccelerated in
  length (amortizationSchedule r) = 25%nat /\
  totalMortgage r = ofZ 400000 /\
  sumOf principalPaid (amortizationSchedule r) = NaN /\
  sumOf principalPaid (amortizationSchedule r) <> totalMortgage r.
Proof.
  cbv zeta.
  assert (H : sumOf principalPaid
                (amortizationSchedule (calculateMortgage zeroRateAccelerated))
              = NaN) by (vm_compute; reflexivity).
  split; [vm_compute; reflexivity|]. split; [reflexivity|].
  split; [exact H|]. rewrite H. discriminate.
Qed.

(** ** A frequency that is not in the table *)

Lemma for_range_ext {St : Type} (f g : Z -> St -> St * bool) :
  (forall i s, f i s = g i s) ->
  forall n i s, for_range f n i s = for_range g n i s.
Proof.
  intros H. induction n as [|n IH]; intros i s; [reflexivity|].
  cbn [for_range]. rewrite H. destruct (g i s) as [s' [|]]; [reflexivity|].
  apply IH.
Qed.

(** [x * 12 / 12] is [x], whatever the value. *)
Lemma nmul_ndiv_12 (x : num) : (x * ofZ 12 / ofZ 12)%num = x.
Proof.
  destruct x as [a| | |]; try reflexivity.
  unfold ofZ. rewrite nmul_fin, ndiv_fin by (apply (Q2Qc_inject_neq0 12); lia).
  f_equal. field. apply (Q2Qc_inject_neq0 12). lia.
Qed.

Lemma paymentFrequencyObj_unknown (f : string) :
  ~ In f (map value PAYMENT_FREQUENCIES) ->
  paymentFrequencyObj f = paymentFrequencyObj "monthly" /\
  String.eqb f "monthly" = false /\
  String.eqb f "accelerated_biweekly" = false /\
  String.eqb f "accelerated_weekly" = false.
Proof.
  intros H. cbn in H.
  assert (E : forall g, In g (map value PAYMENT_FREQUENCIES) -> String.eqb g f = false).
  { intros g Hg. apply String.eqb_neq. intros ->. apply H. exact Hg. }
  unfold paymentFrequencyObj, PAYMENT_FREQUENCIES. cbn [find value].
  rewrite !E by (cbn; tauto). cbn.
  repeat split; rewrite String.eqb_sym; apply E; cbn; tauto.
Qed.



(** ** Extras that are not positive, and the accelerated monthly payment *)

Lemma ngtb_0_0 : ngtb (ofZ 0) (ofZ 0) = false.
Proof. reflexivity. Qed.

Lemma payment_no_extra ar pa ppy t e inc y i l :
  ngtb e (ofZ 0) = false ->
  payment ar pa ppy t e inc y i l = payment ar pa ppy t (ofZ 0) inc y i l.
Proof.
  intros H. unfold payment, principalForPayment, extraPrincipalPaid.
  rewrite H, ngtb_0_0. reflexivity.
Qed.

Lemma applyPrepayment_none m a l :
  ngtb a (ofZ 0) = false -> applyPrepayment m a l = l.
Proof. intros H. unfold applyPrepayment. rewrite H. reflexivity. Qed.

Lemma scheduleLoop_no_extra m ar Y pa ppy t e inc a :
  ngtb e (ofZ 0) = false -> ngtb a (ofZ 0) = false ->
  scheduleLoop m ar Y pa ppy t e inc a
  = scheduleLoop m ar Y pa ppy t (ofZ 0) inc (ofZ 0).
Proof.
  intros He Ha. unfold scheduleLoop. apply for_range_ext. intros y l.
  unfold yearIter. rewrite !applyPrepayment_none by (assumption || reflexivity).
  unfold paymentsOfYear.
  rewrite (for_range_ext (paymentIter ar pa ppy t e inc y)
             (paymentIter ar pa ppy t (ofZ 0) inc y)); [reflexivity|].
  intros i l'. unfold paymentIter.
  rewrite (payment_no_extra ar pa ppy t e inc y i _ He). reflexivity.
Qed.

(** X2.  An extra payment and an annual prepayment that are not [> 0]
    (zero, negative or [NaN]) are ignored: the result is the result with
    both set to 0. *)
Theorem not_positive_extras_ignored (s : ScenarioState) (e a : num) :
  ngtb e (ofZ 0) = false -> ngtb a (ofZ 0) = false ->
  calculateMortgage (withExtraPayment e (withAnnualPrepayment a s))
  = calculateMortgage (withExtraPayment (ofZ 0) (withAnnualPrepayment (ofZ 0) s)).
Proof.
  intros He Ha.
  unfold calculateMortgage, generateAmortizationSchedule.
  cbn [paymentFrequency withExtraPayment withAnnualPrepayment
       interestRate amortizationPeriod term extraPayment paymentIncrease
       annualPrepayment].
  change (mortgageAmount (withExtraPayment e (withAnnualPrepayment a s)))
    with (mortgageAmount s).
  change (mortgageAmount (withExtraPayment (ofZ 0) (withAnnualPrepayment (ofZ 0) s)))
    with (mortgageAmount s).
  change (paymentAmountOf (withExtraPayment e (withAnnualPrepayment a s)))
    with (paymentAmountOf s).
  change (paymentAmountOf (withExtraPayment (ofZ 0) (withAnnualPrepayment (ofZ 0) s)))
    with (paymentAmountOf s).
  rewrite (scheduleLoop_no_extra _ _ _ _ _ _ e _ a He Ha). reflexivity.
Qed.

(** An extra payment of -200 and an annual prepayment that is [NaN]. *)
Lemma not_positive_extras_ignored_witness :
  calculateMortgage
    (withExtraPayment (ofZ (-200)) (withAnnualPrepayment NaN initialScenarioA))
  = calculateMortgage
      (withExtraPayment (ofZ 0) (withAnnualPrepayment (ofZ 0) initialScenarioA)).
Proof.
  apply not_positive_extras_ignored; reflexivity.
Defined.

(** [x/2 * 26 / 12] and [x/4 * 52 / 12] are [x * 13 / 12], whatever the
    value. *)
Lemma monthly_of_biweekly (x : num) :
  (x / ofZ 2 * ofZ 26 / ofZ 12)%num = (x * ofZ 13 / ofZ 12)%num.
Proof.
  destruct x as [q| | |]; try reflexivity.
  unfold ofZ.
  rewrite (ndiv_fin q) by (apply (Q2Qc_inject_neq0 2); lia).
  rewrite !nmul_fin, !ndiv_fin by (apply (Q2Qc_inject_neq0 12); lia).
  f_equal. apply Qc_is_canon.
  rewrite !this_div, !this_mult, !this_div, !this_Q2Qc. unfold inject_Z. field.
Qed.

Lemma monthly_of_weekly (x : num) :
  (x / ofZ 4 * ofZ 52 / ofZ 12)%num = (x * ofZ 13 / ofZ 12)%num.
Proof.
  destruct x as [q| | |]; try reflexivity.
  unfold ofZ.
  rewrite (ndiv_fin q) by (apply (Q2Qc_inject_neq0 4); lia).
  rewrite !nmul_fin, !ndiv_fin by (apply (Q2Qc_inject_neq0 12); lia).
  f_equal. apply Qc_is_canon.
  rewrite !this_div, !this_mult, !this_div, !this_Q2Qc. unfold inject_Z. field.
Qed.

(** X3.  At a rate that is not 0 the monthly payment shown for either
    accelerated frequency is 13/12 of the monthly payment of the same loan
    paid monthly: the accelerated schedules pay one monthly payment more a
    year. *)
Theorem accelerated_monthly_equivalent (s : ScenarioState) :
  is_zero (interestRate s) = false ->
  let monthly := monthlyPayment (calculateMortgage (withFrequency "monthly" s)) in
  monthlyPayment (calculateMortgage (withFrequency "accelerated_biweekly" s))
  = (monthly * ofZ 13 / ofZ 12)%num /\
  monthlyPayment (calculateMortgage (withFrequency "accelerated_weekly" s))
  = (monthly * ofZ 13 / ofZ 12)%num.
Proof.
  intros Hz. cbv zeta.
  unfold calculateMortgage; cbn [monthlyPayment].
  rewrite (paymentAmountOf_biweekly (withFrequency "accelerated_biweekly" s) eq_refl).
  rewrite (paymentAmountOf_weekly (withFrequency "accelerated_weekly" s) eq_refl).
  rewrite (paymentAmountOf_monthly s Hz).
  cbn [paymentFrequency withFrequency interestRate amortizationPeriod].
  change (mortgageAmount (withFrequency _ s)) with (mortgageAmount s).
  split.
  - change (paymentsPerYear (paymentFrequencyObj "accelerated_biweekly")) with 26.
    cbn [String.eqb Ascii.eqb Bool.eqb]. apply monthly_of_biweekly.
  - change (paymentsPerYear (paymentFrequencyObj "accelerated_weekly")) with 52.
    cbn [String.eqb Ascii.eqb Bool.eqb]. apply monthly_of_weekly.
Qed.

(** The second scenario the component starts with, at 4.5%. *)
Lemma accelerated_monthly_equivalent_witness :
  let monthly :=
    monthlyPayment (calculateMortgage (withFrequency "monthly" initialScenarioB)) in
  monthlyPayment (calculateMortgage initialScenarioB)
  = (monthly * ofZ 13 / ofZ 12)%num /\
  monthlyPayment (calculateMortgage (withFrequency "accelerated_weekly" initialScenarioB))
  = (monthly * ofZ 13 / ofZ 12)%num.
Proof.
  apply (accelerated_monthly_equivalent initialScenarioB). reflexivity.
Defined.

(** ** The years of the schedule *)

(** The rule of [for_range_inv] with the bounds of the index. *)
Lemma for_range_bounded {St : Type} (body : Z -> St -> St * bool)
    (P : Z -> St -> Prop) (Q : St -> Prop) (n : nat) (i0 : Z) :
  (forall i s, i0 <= i < i0 + Z.of_nat n -> P i s ->
     snd (body i s) = false -> P (i + 1) (fst (body i s))) ->
  (forall i s, i0 <= i < i0 + Z.of_nat n -> P i s ->
     snd (body i s) = true -> Q (fst (body i s))) ->
  (forall s, P (i0 + Z.of_nat n) s -> Q s) ->
  forall s, P i0 s -> Q (for_range body n i0 s).
Proof.
  intros Hstep Hbrk Hend.
  assert (H : forall m i s, i0 <= i -> i + Z.of_nat m = i0 + Z.of_nat n ->
                P i s -> Q (for_range body m i s)).
  { induction m as [|m IH]; intros i s Hi Hm HP.
    - cbn. apply Hend. replace (i0 + Z.of_nat n) with i by lia. exact HP.
    - cbn [for_range].
      assert (Hb : i0 <= i < i0 + Z.of_nat n) by lia.
      specialize (Hstep i s Hb HP). specialize (Hbrk i s Hb HP).
      destruct (body i s) as [s' [|]]; cbn [fst snd] in *.
      + apply Hbrk. reflexivity.
      + apply IH; [lia | lia | apply Hstep; reflexivity]. }
  intros s HP. apply H; [lia | lia | exact HP].
Qed.

Section Years.

Variables (principal annualInterestRate : num) (amortizationYears : Z)
          (paymentAmount : num) (paymentsPerYear_ term_ : Z)
          (extraPayment_ paymentIncrease_ annualPrepayment_ : num).

Let yearIter' :=
  yearIter principal annualInterestRate paymentAmount paymentsPerYear_ term_
           extraPayment_ paymentIncrease_ annualPrepayment_.

(** The years pushed by the loop from the year [y] on are numbered
    [y], [y + 1], ...; there are at most [n] of them, and at least one
    when [n] is not 0. *)
Lemma yearLoop_years n :
  forall y l,
    exists rest,
      Var.yearlySchedule (for_range yearIter' n y l)
      = Var.yearlySchedule l ++ rest /\
      (length rest <= n)%nat /\
      (n <> O -> rest <> []) /\
      map year rest = map (fun k => y + Z.of_nat k) (seq 0 (length rest)).
Proof.
  induction n as [|n IH]; intros y l.
  - exists []. cbn. rewrite app_nil_r. repeat split; [lia | congruence].
  - cbn [for_range].
    pose proof (yearIter_schedule principal annualInterestRate paymentAmount
                  paymentsPerYear_ term_ extraPayment_ paymentIncrease_
                  annualPrepayment_ y l) as Hs.
    fold yearIter' in Hs.
    destruct (yearIter' y l) as [l2 brk]. cbn [fst] in Hs. destruct brk.
    + eexists [_]. split; [exact Hs|]. cbn. repeat split; [lia | discriminate |].
      rewrite Z.add_0_r. reflexivity.
    + destruct (IH (y + 1) l2) as (rest & Hr & Hlen & _ & Hy).
      eexists (_ :: rest). split; [|split; [|split]].
      * rewrite Hr, Hs, <- app_assoc. reflexivity.
      * cbn. lia.
      * discriminate.
      * cbn [map length seq year]. rewrite Z.add_0_r. f_equal.
        rewrite Hy, <- seq_shift, map_map. apply map_ext. intros k. lia.
Qed.

End Years.

(** X4.  The years of the schedule are numbered 1, 2, ... without a gap;
    there are at most [amortizationPeriod] of them, and at least one when
    [amortizationPeriod] is 1 or more. *)
Theorem schedule_years_numbered (s : ScenarioState) :
  let sched := amortizationSchedule (calculateMortgage s) in
  map year sched = map (fun k => 1 + Z.of_nat k) (seq 0 (length sched)) /\
  Z.of_nat (length sched) <= Z.max 0 (amortizationPeriod s) /\
  (1 <= amortizationPeriod s -> sched <> []).
Proof.
  cbv zeta.
  unfold calculateMortgage, generateAmortizationSchedule;
    cbn [amortizationSchedule Sched.yearlySchedule]. unfold scheduleLoop.
  destruct (yearLoop_years (mortgageAmount s) (interestRate s)
              (paymentAmountOf s) (paymentsPerYearOf s) (term s)
              (extraPayment s) (paymentIncrease s) (annualPrepayment s)
              (Z.to_nat (amortizationPeriod s)) 1 (initLocals (mortgageAmount s)))
    as (rest & Hr & Hlen & Hne & Hy).
  unfold paymentsPerYearOf in Hr. rewrite Hr.
  cbn [initLocals Var.yearlySchedule app].
  split; [exact Hy|]. split; [lia|].
  intros HY. apply Hne. lia.
Qed.

(** ** The bounds of the effective amortization *)

Section CounterBound.

Variables (principal annualInterestRate : num) (amortizationYears : Z)
          (paymentAmount : num) (paymentsPerYear_ term_ : Z)
          (extraPayment_ paymentIncrease_ annualPrepayment_ : num).

Let N := Z.of_nat (Z.to_nat paymentsPerYear_).

(** The payments of a year add at most [paymentsPerYear] to the counter. *)
Lemma paymentsOfYear_counter y l :
  let l' := paymentsOfYear annualInterestRate paymentAmount paymentsPerYear_
              term_ extraPayment_ paymentIncrease_ y l in
  Var.lastPaymentNumber l <= Var.lastPaymentNumber l'
  <= Var.lastPaymentNumber l + N.
Proof.
  cbv zeta. unfold paymentsOfYear.
  apply (for_range_bounded _
           (fun i l' => Var.lastPaymentNumber l <= Var.lastPaymentNumber l'
                        <= Var.lastPaymentNumber l + (i - 1))
           (fun l' => Var.lastPaymentNumber l <= Var.lastPaymentNumber l'
                      <= Var.lastPaymentNumber l + N)).
  - intros i s Hi Hs _. unfold paymentIter.
    destruct (nleb _ _); cbn; lia.
  - intros i s Hi Hs _. unfold paymentIter, N.
    destruct (nleb _ _); cbn; lia.
  - intros s Hs. unfold N. lia.
  - lia.
Qed.

Lemma scheduleLoop_counter :
  0 <= Var.lastPaymentNumber
         (scheduleLoop principal annualInterestRate amortizationYears
            paymentAmount paymentsPerYear_ term_ extraPayment_
            paymentIncrease_ annualPrepayment_)
  <= Z.of_nat (Z.to_nat amortizationYears) * N.
Proof.
  unfold scheduleLoop.
  assert (Hyear : forall y l,
            Var.lastPaymentNumber l
            <= Var.lastPaymentNumber
                 (fst (yearIter principal annualInterestRate paymentAmount
                         paymentsPerYear_ term_ extraPayment_ paymentIncrease_
                         annualPrepayment_ y l))
            <= Var.lastPaymentNumber l + N).
  { intros y l. unfold yearIter; cbn [fst]. unfold pushYear; cbn.
    rewrite applyPrepayment_count.
    apply (paymentsOfYear_counter y (yearStart l)). }
  assert (HN : 0 <= N) by (unfold N; lia).
  apply (for_range_bounded _
           (fun y l => 0 <= Var.lastPaymentNumber l <= (y - 1) * N)
           (fun l => 0 <= Var.lastPaymentNumber l
                     <= Z.of_nat (Z.to_nat amortizationYears) * N)).
  - intros y l Hy Hl _. specialize (Hyear y l). nia.
  - intros y l Hy Hl _. specialize (Hyear y l). nia.
  - intros l Hl. nia.
  - cbn. lia.
Qed.

End CounterBound.

Lemma ofZ_div_cancel (a p : Z) : 0 < p -> (ofZ (a * p) / ofZ p)%num = ofZ a.
Proof.
  intros Hp. unfold ofZ.
  rewrite ndiv_fin by (apply Q2Qc_inject_neq0; lia).
  f_equal. apply Qc_is_canon. rewrite this_div, !this_Q2Qc, inject_Z_mult.
  field. intros E. assert (H : (0 < inject_Z p)%Q).
  { replace 0%Q with (inject_Z 0) by reflexivity. rewrite <- Zlt_Qlt. exact Hp. }
  rewrite E in H. apply (Qlt_irrefl _ H).
Qed.

(** X5.  The effective amortization is never negative and never more than
    the amortization period: each year of the loop counts at most
    [paymentsPerYear] payments. *)
Theorem effective_amortization_bounds (s : ScenarioState) :
  let r := calculateMortgage s in
  nle (ofZ 0) (effectiveAmortization r) /\
  nle (effectiveAmortization r) (ofZ (Z.max 0 (amortizationPeriod s))).
Proof.
  cbv zeta. pose proof (paymentsPerYearOf_pos s) as Hppy.
  pose proof (scheduleLoop_counter (mortgageAmount s) (interestRate s)
                (amortizationPeriod s) (paymentAmountOf s) (paymentsPerYearOf s)
                (term s) (extraPayment s) (paymentIncrease s) (annualPrepayment s))
    as [H0 H1].
  unfold calculateMortgage, generateAmortizationSchedule;
    cbn [effectiveAmortization Sched.effectiveAmortizationYears].
  fold (paymentsPerYearOf s).
  assert (EN : Z.of_nat (Z.to_nat (paymentsPerYearOf s)) = paymentsPerYearOf s)
    by lia.
  assert (EY : Z.of_nat (Z.to_nat (amortizationPeriod s))
               = Z.max 0 (amortizationPeriod s)) by lia.
  rewrite EN, EY in H1.
  split.
  - rewrite <- (ofZ_div_cancel 0 (paymentsPerYearOf s) Hppy).
    apply ofZ_div_mono; [exact Hppy | lia].
  - rewrite <- (ofZ_div_cancel (Z.max 0 (amortizationPeriod s))
                  (paymentsPerYearOf s) Hppy).
    apply ofZ_div_mono; [exact Hppy | lia].
Qed.

(** ** The lifetime interest and the schedule *)

(** An invariant [I] between the years and an invariant [J] within a
    year. *)
Section PhaseRule.

Variables (principal annualInterestRate : num) (amortizationYears : Z)
          (paymentAmount : num) (paymentsPerYear_ term_ : Z)
          (extraPayment_ paymentIncrease_ annualPrepayment_ : num).

Variables I J : Var.Locals -> Prop.

Hypothesis J_start : forall l, I l -> J (yearStart l).
Hypothesis J_count : forall l, J l -> J (countPayment l).
Hypothesis J_payment :
  forall y i l, J l -> (Var.balance l <=? ofZ 0)%num = false ->
    J (payment annualInterestRate paymentAmount paymentsPerYear_ term_
         extraPayment_ paymentIncrease_ y i l).
Hypothesis J_prepay :
  forall l, J l -> J (applyPrepayment principal annualPrepayment_ l).
Hypothesis I_push : forall y l, J l -> I (pushYear y l).

Lemma yearIter_phases y l :
  I l ->
  I (fst (yearIter principal annualInterestRate paymentAmount paymentsPerYear_
            term_ extraPayment_ paymentIncrease_ annualPrepayment_ y l)).
Proof.
  intros Hl. unfold yearIter; cbn [fst].
  apply I_push, J_prepay.
  apply (paymentsOfYear_preserves annualInterestRate paymentAmount
           paymentsPerYear_ term_ extraPayment_ paymentIncrease_ J
           J_count J_payment).
  apply J_start, Hl.
Qed.

Lemma scheduleLoop_phases :
  I (initLocals principal) ->
  I (scheduleLoop principal annualInterestRate amortizationYears paymentAmount
       paymentsPerYear_ term_ extraPayment_ paymentIncrease_ annualPrepayment_).
Proof.
  intros H. unfold scheduleLoop. apply for_range_preserves; [|exact H].
  intros y l. apply yearIter_phases.
Qed.

End PhaseRule.

Lemma nadd_0_r (x : num) : (x + ofZ 0)%num = x.
Proof.
  destruct x as [a| | |]; try reflexivity.
  unfold ofZ. rewrite nadd_fin. f_equal. apply Qc_is_canon.
  rewrite this_plus, this_Q2Qc. unfold inject_Z. ring.
Qed.

Lemma sumOf_app f l it : sumOf f (l ++ [it]) = (sumOf f l + f it)%num.
Proof. unfold sumOf. rewrite fold_left_app. reflexivity. Qed.

Lemma yearIter_interest_sum m ar pa ppy t e inc a y l :
  interestSummed l ->
  interestSummed (fst (yearIter m ar pa ppy t e inc a y l)).
Proof.
  apply (yearIter_phases m ar pa ppy t e inc a interestSummed
           (fun l => Var.totalInterestPaid l
                     = (sumOf interestPaid (Var.yearlySchedule l)
                        + Var.yearlyInterestPaid l)%num)).
  - intros l0 H. cbn. rewrite nadd_0_r. exact H.
  - intros l0 H. exact H.
  - intros y0 i l0 H _. cbn. rewrite H, <- nadd_assoc. reflexivity.
  - intros l0 H. rewrite applyPrepayment_interest, applyPrepayment_schedule.
    unfold applyPrepayment. destruct (_ && _); exact H.
  - intros y0 l0 H. unfold interestSummed, pushYear;
      cbn [Var.totalInterestPaid Var.yearlySchedule].
    rewrite sumOf_app. exact H.
Qed.

Lemma scheduleLoop_interest_sum m ar Y pa ppy t e inc a :
  interestSummed (scheduleLoop m ar Y pa ppy t e inc a).
Proof.
  unfold scheduleLoop. apply for_range_preserves; [|reflexivity].
  intros y l. apply yearIter_interest_sum.
Qed.


(** ** The term and the schedule *)

Section TermYear.

Variables (principal annualInterestRate : num) (amortizationYears : Z)
          (paymentAmount : num) (paymentsPerYear_ term_ : Z)
          (extraPayment_ paymentIncrease_ annualPrepayment_ : num).

Let yearIter' :=
  yearIter principal annualInterestRate paymentAmount paymentsPerYear_ term_
           extraPayment_ paymentIncrease_ annualPrepayment_.
Let paymentIter' :=
  paymentIter annualInterestRate paymentAmount paymentsPerYear_ term_
              extraPayment_ paymentIncrease_.

Lemma applyPrepayment_termEnd l :
  sameTermEnd l (applyPrepayment principal annualPrepayment_ l).
Proof.
  unfold sameTermEnd, applyPrepayment. destruct (_ && _); split; reflexivity.
Qed.

(** A year other than [term] leaves the term-end variables as they
    are. *)
Lemma yearIter_other_year y l :
  y <> term_ -> sameTermEnd l (fst (yearIter' y l)).
Proof.
  intros Hy. unfold yearIter', yearIter; cbn [fst].
  destruct (applyPrepayment_termEnd
              (paymentsOfYear annualInterestRate paymentAmount paymentsPerYear_
                 term_ extraPayment_ paymentIncrease_ y (yearStart l)))
    as [Hb Ht].
  unfold sameTermEnd, pushYear;
    cbn [Var.balanceAtEndOfTerm Var.totalInterestPaidOverTerm].
  rewrite Hb, Ht. unfold paymentsOfYear.
  apply (for_range_preserves (paymentIter' y) (sameTermEnd l));
    [|split; reflexivity].
  intros i l0 H. unfold paymentIter', paymentIter.
  destruct (nleb _ _); cbn [fst]; [exact H|].
  unfold sameTermEnd, payment;
    cbn [Var.balanceAtEndOfTerm Var.totalInterestPaidOverTerm].
  apply Z.eqb_neq in Hy. rewrite Hy. exact H.
Qed.

(** The year [term] either stops with a balance [<= 0], or runs its last
    payment, which sets the term-end variables: the year's ending balance
    is then what the annual prepayment leaves of the balance at the end of
    the term. *)
Lemma yearIter_term_year l :
  0 < paymentsPerYear_ ->
  let l2 := fst (yearIter' term_ l) in
  (Var.balance l2 <=? ofZ 0)%num = false ->
  Var.totalInterestPaidOverTerm l2 = Var.totalInterestPaid l2 /\
  Var.balance l2
  = afterPrepayment principal annualPrepayment_ (Var.balanceAtEndOfTerm l2).
Proof.
  intros Hppy. cbv zeta. unfold yearIter', yearIter; cbn [fst].
  set (l1 := paymentsOfYear annualInterestRate paymentAmount paymentsPerYear_
               term_ extraPayment_ paymentIncrease_ term_ (yearStart l)).
  assert (H1 : (Var.balance l1 <=? ofZ 0)%num = true \/
               (Var.totalInterestPaidOverTerm l1 = Var.totalInterestPaid l1 /\
                Var.balanceAtEndOfTerm l1 = Var.balance l1)).
  { unfold l1, paymentsOfYear.
    apply (for_range_bounded (paymentIter' term_)
             (fun i l' => i = paymentsPerYear_ + 1 ->
                Var.totalInterestPaidOverTerm l' = Var.totalInterestPaid l' /\
                Var.balanceAtEndOfTerm l' = Var.balance l')
             (fun l' => (Var.balance l' <=? ofZ 0)%num = true \/
                (Var.totalInterestPaidOverTerm l' = Var.totalInterestPaid l' /\
                 Var.balanceAtEndOfTerm l' = Var.balance l'))).
    - intros i s Hi _ Hb Hlast. unfold paymentIter', paymentIter in *.
      destruct (nleb _ _); [discriminate|]. cbn [fst].
      unfold payment;
        cbn [Var.balanceAtEndOfTerm Var.totalInterestPaidOverTerm
             Var.totalInterestPaid Var.balance].
      replace (i =? paymentsPerYear_) with true by (symmetry; apply Z.eqb_eq; lia).
      rewrite Z.eqb_refl. cbn [andb]. split; reflexivity.
    - intros i s Hi _ Hb. left. unfold paymentIter', paymentIter in *.
      destruct (nleb _ _) eqn:E; [|discriminate]. cbn [fst]. exact E.
    - intros s Hs. right. apply Hs. lia.
    - intros E. lia. }
  unfold pushYear;
    cbn [Var.balance Var.totalInterestPaidOverTerm Var.totalInterestPaid
         Var.balanceAtEndOfTerm].
  destruct (applyPrepayment_termEnd l1) as [Hb Ht].
  rewrite Hb, Ht, applyPrepayment_interest.
  destruct H1 as [Hstop|[Hint Hbal]].
  - intros Hpos. exfalso. revert Hpos. unfold applyPrepayment.
    rewrite (nleb_0_not_gt _ Hstop), andb_false_r. congruence.
  - intros _. split; [exact Hint|].
    rewrite Hbal. unfold applyPrepayment, afterPrepayment, annualPrepaymentAmount.
    destruct (_ && _); reflexivity.
Qed.

End TermYear.

Section TermLoop.

Variables (principal annualInterestRate : num) (amortizationYears : Z)
          (paymentAmount : num) (paymentsPerYear_ term_ : Z)
          (extraPayment_ paymentIncrease_ annualPrepayment_ : num).

Hypothesis Hppy : 0 < paymentsPerYear_.
Hypothesis Hterm : 1 <= term_.

Let yearIter' :=
  yearIter principal annualInterestRate paymentAmount paymentsPerYear_ term_
           extraPayment_ paymentIncrease_ annualPrepayment_.

Let inv (y : Z) (l : Var.Locals) : Prop :=
  Z.of_nat (length (Var.yearlySchedule l)) = y - 1 /\
  interestSummed l /\
  termRecorded principal annualPrepayment_ term_ l.

Lemma yearIter_termRecorded y l :
  inv y l -> inv (y + 1) (fst (yearIter' y l)).
Proof.
  intros (Hlen & Hsum & Hrec).
  pose proof (yearIter_schedule principal annualInterestRate paymentAmount
                paymentsPerYear_ term_ extraPayment_ paymentIncrease_
                annualPrepayment_ y l) as Hs.
  pose proof (yearIter_interest_sum principal annualInterestRate paymentAmount
                paymentsPerYear_ term_ extraPayment_ paymentIncrease_
                annualPrepayment_ y l Hsum) as Hsum'.
  fold yearIter' in Hs, Hsum'.
  set (l2 := fst (yearIter' y l)) in *.
  split; [|split; [exact Hsum'|]].
  - rewrite Hs, length_app. cbn [length]. lia.
  - intros it Hnth Hpos. rewrite Hs in Hnth |- *.
    destruct (Z.lt_trichotomy y term_) as [Hlt|[Heq|Hgt]].
    + exfalso.
      assert (E : nth_error (Var.yearlySchedule l ++
                    [{| year := y;
                        principalPaid := Var.yearlyPrincipalPaid l2;
                        interestPaid := Var.yearlyInterestPaid l2;
                        extraPayments := Var.yearlyExtraPayments l2;
                        endingBalance := Var.balance l2 |}])
                    (Z.to_nat (term_ - 1)) = None).
      { apply nth_error_None. rewrite length_app. cbn [length]. lia. }
      congruence.
    + subst y.
      rewrite nth_error_app2 in Hnth by lia.
      replace (Z.to_nat (term_ - 1) - length (Var.yearlySchedule l))%nat
        with O in Hnth by lia.
      cbn [nth_error] in Hnth. injection Hnth as <-. cbn [endingBalance] in *.
      destruct (yearIter_term_year principal annualInterestRate paymentAmount
                  paymentsPerYear_ term_ extraPayment_ paymentIncrease_
                  annualPrepayment_ l Hppy Hpos) as [Hint Hbal].
      fold yearIter' in Hint, Hbal. fold l2 in Hint, Hbal.
      split; [|exact Hbal].
      rewrite Hint, Hsum', Hs. rewrite firstn_all2; [reflexivity|].
      rewrite length_app. cbn [length]. lia.
    + rewrite nth_error_app1 in Hnth by lia.
      destruct (Hrec it Hnth Hpos) as [Hint Hbal].
      destruct (yearIter_other_year principal annualInterestRate paymentAmount
                  paymentsPerYear_ term_ extraPayment_ paymentIncrease_
                  annualPrepayment_ y l ltac:(lia)) as [Eb Et].
      fold yearIter' in Eb, Et. fold l2 in Eb, Et.
      rewrite Eb, Et. split; [|exact Hbal].
      rewrite Hint. rewrite firstn_app.
      replace (Z.to_nat term_ - length (Var.yearlySchedule l))%nat with O by lia.
      cbn [firstn]. rewrite app_nil_r. reflexivity.
Qed.

Lemma scheduleLoop_termRecorded :
  let l := scheduleLoop principal annualInterestRate amortizationYears
             paymentAmount paymentsPerYear_ term_ extraPayment_
             paymentIncrease_ annualPrepayment_ in
  termRecorded principal annualPrepayment_ term_ l.
Proof.
  cbv zeta. unfold scheduleLoop.
  apply (for_range_inv _ inv
           (termRecorded principal annualPrepayment_ term_)).
  - intros y l Hl _. apply yearIter_termRecorded. exact Hl.
  - intros y l Hl _. apply (yearIter_termRecorded y l Hl).
  - split; [reflexivity|]. split; [reflexivity|].
    intros it Hnth. cbn in Hnth. destruct (Z.to_nat (term_ - 1)); discriminate.
  - intros l Hl. apply Hl.
Qed.

End TermLoop.

Section TermOutside.

Variables (principal annualInterestRate : num) (amortizationYears : Z)
          (paymentAmount : num) (paymentsPerYear_ term_ : Z)
          (extraPayment_ paymentIncrease_ annualPrepayment_ : num).

Hypothesis Hterm : term_ < 1 \/ amortizationYears < term_.

Lemma scheduleLoop_termUnset :
  termUnset (scheduleLoop principal annualInterestRate amortizationYears
               paymentAmount paymentsPerYear_ term_ extraPayment_
               paymentIncrease_ annualPrepayment_).
Proof.
  unfold scheduleLoop.
  apply (for_range_bounded _ (fun _ => termUnset) termUnset).
  - intros y l Hy [Hb Ht] _.
    destruct (yearIter_other_year principal annualInterestRate paymentAmount
                paymentsPerYear_ term_ extraPayment_ paymentIncrease_
                annualPrepayment_ y l ltac:(lia)) as [Eb Et].
    split; congruence.
  - intros y l Hy [Hb Ht] _.
    destruct (yearIter_other_year principal annualInterestRate paymentAmount
                paymentsPerYear_ term_ extraPayment_ paymentIncrease_
                annualPrepayment_ y l ltac:(lia)) as [Eb Et].
    split; congruence.
  - intros l H. exact H.
  - split; reflexivity.
Qed.

End TermOutside.

(** X7.  A term that is not one of the years 1 to [amortizationPeriod]
    leaves the balance at the end of the term and the interest over the
    term at 0: no payment is the last payment of such a year. *)
Theorem term_outside_schedule (s : ScenarioState) :
  term s < 1 \/ amortizationPeriod s < term s ->
  let r := calculateMortgage s in
  balanceAtEndOfTerm r = ofZ 0 /\ totalInterestTerm r = ofZ 0.
Proof.
  intros H. cbv zeta.
  unfold calculateMortgage, generateAmortizationSchedule;
    cbn [balanceAtEndOfTerm totalInterestTerm Sched.balanceAtEndOfTerm
         Sched.totalInterestPaidOverTerm].
  apply scheduleLoop_termUnset. exact H.
Qed.

(** A term of 10 years on a loan amortized over 5. *)
Lemma term_outside_schedule_witness :
  balanceAtEndOfTerm (calculateMortgage (withTerm 10 zeroRateExtra)) = ofZ 0 /\
  totalInterestTerm (calculateMortgage (withTerm 10 zeroRateExtra)) = ofZ 0.
Proof.
  apply (term_outside_schedule (withTerm 10 zeroRateExtra)).
  right. simpl. lia.
Defined.



(** ** Balances and interest of a sound scenario *)

Lemma nle_fin (a b : Qc) : nle (Fin a) (Fin b) <-> (a <= b)%Qc.
Proof. unfold nle, nleb. apply Qcleb_le. Qed.

Lemma nle_0_fin (a : Qc) : nle (ofZ 0) (Fin a) <-> (0 <= a)%Qc.
Proof. apply nle_fin. Qed.

Lemma nle_trans (x y z : num) : nle x y -> nle y z -> nle x z.
Proof.
  unfold nle. destruct x, y, z; cbn; try congruence.
  intros H1 H2. apply Qcleb_le in H1, H2. apply Qcleb_le.
  eapply Qcle_trans; eassumption.
Qed.

Lemma nonincreasing_last p bs b :
  nonincreasing p (bs ++ [b]) -> nle (ofZ 0) b /\ nle b p.
Proof.
  revert p. induction bs as [|x bs IH]; intros p; cbn.
  - tauto.
  - intros (_ & Hx & H). destruct (IH _ H) as [H0 Hb].
    split; [exact H0 | eapply nle_trans; eassumption].
Qed.

Lemma nonincreasing_replace p bs b b' :
  nonincreasing p (bs ++ [b]) -> nle (ofZ 0) b' -> nle b' b ->
  nonincreasing p (bs ++ [b']).
Proof.
  revert p. induction bs as [|x bs IH]; intros p; cbn.
  - intros (_ & Hb & _) H0 Hle. repeat split; [exact H0|].
    eapply nle_trans; eassumption.
  - intros (H0 & Hx & H) H0' Hle. repeat split; try assumption.
    apply IH; assumption.
Qed.

Lemma nonincreasing_push p bs b :
  nonincreasing p (bs ++ [b]) -> nonincreasing p ((bs ++ [b]) ++ [b]).
Proof.
  revert p. induction bs as [|x bs IH]; intros p; cbn.
  - intros (H0 & Hb & _). repeat split; try assumption.
    revert H0. unfold nle. destruct b; cbn; try congruence.
    intros _. apply Qcleb_le, Qcle_refl.
  - intros (H0 & Hx & H). repeat split; try assumption. apply IH, H.
Qed.

Lemma nonincreasing_front p bs b :
  nonincreasing p (bs ++ [b]) -> nonincreasing p bs.
Proof.
  revert p. induction bs as [|x bs IH]; intros p; cbn; [tauto|].
  intros (H0 & Hx & H). repeat split; try assumption. apply IH, H.
Qed.

Lemma owed_le r A b : (0 <= b)%Qc -> (b * r <= A)%Qc -> (owed r A b <= b)%Qc.
Proof. intros Hb H. unfold owed, qmax. split_cmp; qc_lra. Qed.

Lemma Qcmult_le_r (a b r : Qc) : (a <= b)%Qc -> (0 <= r)%Qc -> (a * r <= b * r)%Qc.
Proof. intros H Hr. qc2q. apply Qmult_le_compat_r; assumption. Qed.

Lemma Qcmult_nonneg (a b : Qc) : (0 <= a)%Qc -> (0 <= b)%Qc -> (0 <= a * b)%Qc.
Proof. intros Ha Hb. qc2q. apply Qmult_le_0_compat; assumption. Qed.

(** A payment below the interest on the loan never reduces the reference
    balance. *)
Lemma refBalance_above (r A M : Qc) (k : nat) :
  (0 <= r)%Qc -> (0 <= M)%Qc -> (A < M * r)%Qc -> (1 <= k)%nat ->
  (M < refBalance r A M k)%Qc.
Proof.
  intros Hr HM HA. induction k as [|k IH]; [lia|]. intros _.
  cbn [refBalance]. destruct k as [|k].
  - cbn [refBalance]. qc_lra.
  - specialize (IH ltac:(lia)).
    pose proof (Qcmult_le_r M (refBalance r A M (S k)) r
                  (Qclt_le_weak _ _ IH) Hr) as Hmul.
    generalize dependent (refBalance r A M (S k)). intros q Hq Hmul.
    qc_lra.
Qed.

Lemma applyPrepayment_yearlyInterest principal ap l :
  Var.yearlyInterestPaid (applyPrepayment principal ap l)
  = Var.yearlyInterestPaid l.
Proof. unfold applyPrepayment. destruct (_ && _); reflexivity. Qed.

Section Sound.

Variables (principal annualInterestRate : num) (amortizationYears : Z)
          (paymentAmount : num) (paymentsPerYear_ term_ : Z)
          (extraPayment_ paymentIncrease_ annualPrepayment_ : num).
Variables (r A e pre M : Qc).

Hypothesis Hr : interestRatePerPayment annualInterestRate paymentsPerYear_ = Fin r.
Hypothesis HA : adjustedPayment paymentAmount paymentIncrease_ = Fin A.
Hypothesis He : extraPayment_ = Fin e.
Hypothesis Hpre : (principal * (annualPrepayment_ / ofZ 100))%num = Fin pre.
Hypothesis HM : principal = Fin M.
Hypothesis Hr0 : (0 <= r)%Qc.
Hypothesis HM0 : (0 <= M)%Qc.
Hypothesis Hpre0 : ngtb annualPrepayment_ (ofZ 0) = true -> (0 <= pre)%Qc.
Hypothesis HAr : (M * r <= A)%Qc.

Lemma sound_payment y i l :
  soundLocals M l -> (Var.balance l <=? ofZ 0)%num = false ->
  soundLocals M
    (payment annualInterestRate paymentAmount paymentsPerYear_ term_
       extraPayment_ paymentIncrease_ y i l).
Proof.
  intros (b & t & tt & bt & yi & Hb & Ht & Htt & Hbt & Hyi
          & H1 & H2 & H3 & H4 & H5 & Hdesc & Hint) Hpos.
  rewrite Hb, nleb_fin_0 in Hpos. apply Qcleb_gt in Hpos.
  destruct (nonincreasing_last _ _ _ Hdesc) as [_ HbM]. apply nle_fin in HbM.
  assert (Hbr : (0 <= b * r)%Qc)
    by (apply Qcmult_nonneg; [apply Qclt_le_weak; exact Hpos | exact Hr0]).
  assert (HbA : (b * r <= A)%Qc).
  { eapply Qcle_trans; [|exact HAr]. apply Qcmult_le_r; assumption. }
  assert (Hstep0 : (0 <= stepBalance r A e b)%Qc) by apply stepBalance_nonneg.
  assert (Hstep : (stepBalance r A e b <= b)%Qc).
  { eapply Qcle_trans; [apply stepBalance_le_owed|].
    apply owed_le; [apply Qclt_le_weak; exact Hpos | exact HbA]. }
  pose proof (payment_balance annualInterestRate paymentAmount paymentsPerYear_
                term_ extraPayment_ paymentIncrease_ r A e Hr HA He y i l b Hb)
    as Eb.
  pose proof (payment_interest annualInterestRate paymentAmount paymentsPerYear_
                term_ extraPayment_ paymentIncrease_ r Hr y i l b t Hb Ht)
    as Et.
  exists (stepBalance r A e b), (t + b * r)%Qc,
    (if (y =? term_) && (i =? paymentsPerYear_) then (t + b * r)%Qc else tt),
    (if (y =? term_) && (i =? paymentsPerYear_) then stepBalance r A e b else bt),
    (yi + b * r)%Qc.
  split; [exact Eb|]. split; [exact Et|].
  split.
  { unfold payment in Et |- *.
    cbn [Var.totalInterestPaidOverTerm Var.totalInterestPaid] in Et |- *.
    destruct (_ && _); [exact Et | exact Htt]. }
  split.
  { unfold payment in Eb |- *.
    cbn [Var.balanceAtEndOfTerm Var.balance] in Eb |- *.
    destruct (_ && _); [exact Eb | exact Hbt]. }
  split.
  { unfold payment; cbn [Var.yearlyInterestPaid].
    rewrite (interestForPayment_fin annualInterestRate paymentsPerYear_ r Hr l b Hb),
      Hyi. reflexivity. }
  split; [destruct (_ && _); qc_lra|].
  split; [destruct (_ && _); qc_lra|].
  split; [destruct (_ && _); qc_lra|].
  split; [destruct (_ && _); qc_lra|].
  split; [qc_lra|].
  split.
  - unfold payment; cbn [Var.yearlySchedule].
    apply (nonincreasing_replace _ _ (Fin b)); [exact Hdesc| |];
      apply nle_fin; assumption.
  - exact Hint.
Qed.

Lemma sound_prepay l :
  soundLocals M l ->
  soundLocals M (applyPrepayment principal annualPrepayment_ l).
Proof.
  intros (b & t & tt & bt & yi & Hb & Ht & Htt & Hbt & Hyi
          & H1 & H2 & H3 & H4 & H5 & Hdesc & Hint).
  pose proof (applyPrepayment_balance principal annualPrepayment_ pre Hpre l b Hb)
    as Eb.
  destruct (nonincreasing_last _ _ _ Hdesc) as [Hb0 _]. apply nle_0_fin in Hb0.
  destruct (applyPrepayment_termEnd principal annualPrepayment_ l) as [E1 E2].
  exists (if ngtb annualPrepayment_ (ofZ 0) && Qcltb 0 b
          then prepaid pre b else b), t, tt, bt, yi.
  split; [exact Eb|].
  split; [rewrite applyPrepayment_interest; exact Ht|].
  split; [rewrite E2; exact Htt|].
  split; [rewrite E1; exact Hbt|].
  split; [rewrite applyPrepayment_yearlyInterest; exact Hyi|].
  repeat (split; [assumption|]).
  rewrite applyPrepayment_schedule. split; [|exact Hint].
  apply (nonincreasing_replace _ _ (Fin b)); [exact Hdesc| |].
  - apply nle_0_fin. destruct (_ && _); [apply prepaid_nonneg | exact Hb0].
  - apply nle_fin. destruct (ngtb _ _) eqn:Ea; cbn [andb];
      [|apply Qcle_refl].
    destruct (Qcltb 0 b); [|apply Qcle_refl].
    apply prepaid_le; [apply Hpre0; reflexivity | exact Hb0].
Qed.

Lemma sound_scheduleLoop :
  soundLocals M
    (scheduleLoop principal annualInterestRate amortizationYears paymentAmount
       paymentsPerYear_ term_ extraPayment_ paymentIncrease_ annualPrepayment_).
Proof.
  apply scheduleLoop_preserves.
  - intros l H. exact H.
  - intros y i l H Hpos. apply sound_payment; assumption.
  - intros l (b & t & tt & bt & yi & Hb & Ht & Htt & Hbt & Hyi
              & H1 & H2 & H3 & H4 & H5 & Hdesc & Hint).
    exists b, t, tt, bt, 0%Qc. cbn.
    repeat (split; [assumption || reflexivity || apply Qcle_refl|]).
    exact Hint.
  - apply sound_prepay.
  - intros y l (b & t & tt & bt & yi & Hb & Ht & Htt & Hbt & Hyi
                & H1 & H2 & H3 & H4 & H5 & Hdesc & Hint).
    exists b, t, tt, bt, yi. unfold pushYear; cbn.
    repeat (split; [assumption|]). split.
    + rewrite map_app. cbn [map endingBalance]. rewrite Hb.
      apply nonincreasing_push. exact Hdesc.
    + apply Forall_app. split; [exact Hint|].
      constructor; [|constructor]. cbn [interestPaid]. rewrite Hyi.
      apply nle_0_fin. exact H5.
  - exists M, 0%Qc, 0%Qc, 0%Qc, 0%Qc. cbn.
    repeat (split; [assumption || reflexivity || apply Qcle_refl|]).
    split; [|constructor].
    repeat split.
    + apply nle_0_fin. exact HM0.
    + apply nle_fin, Qcle_refl.
Qed.

End Sound.

(** In a scenario with non-negative amounts (and not both the rate 0 and
    an accelerated frequency) the loop keeps [soundLocals]. *)
Lemma scenario_soundLocals (s : ScenarioState) (m R e inc a : Qc) :
  mortgageAmount s = Fin m -> (0 <= m)%Qc ->
  interestRate s = Fin R -> (0 <= R)%Qc ->
  extraPayment s = Fin e ->
  paymentIncrease s = Fin inc -> (0 <= inc)%Qc ->
  annualPrepayment s = Fin a ->
  1 <= amortizationPeriod s ->
  (is_zero (interestRate s) = true -> accelerated (paymentFrequency s) = false) ->
  soundLocals m
    (scheduleLoop (mortgageAmount s) (interestRate s) (amortizationPeriod s)
       (paymentAmountOf s) (paymentsPerYearOf s) (term s) (extraPayment s)
       (paymentIncrease s) (annualPrepayment s)).
Proof.
  intros Hm Hm0 HR HR0 He Hinc Hinc0 Ha HY Hsound.
  pose proof (paymentsPerYearOf_pos s) as Hppy.
  destruct (payment_pays_off s m R inc Hm Hm0 HR HR0 Hinc Hinc0 HY Hsound)
    as (p & Hp & Href).
  assert (Hr : interestRatePerPayment (interestRate s) (paymentsPerYearOf s)
               = Fin (R / Q2Qc 100 / Q2Qc (inject_Z (paymentsPerYearOf s)))).
  { unfold interestRatePerPayment. rewrite HR. apply periodic_fin. assumption. }
  assert (HA : adjustedPayment (paymentAmountOf s) (paymentIncrease s)
               = Fin (p * (1 + inc / Q2Qc 100))).
  { rewrite Hp, Hinc. apply adjustedPayment_fin. }
  assert (Hpre : (mortgageAmount s * (annualPrepayment s / ofZ 100))%num
                 = Fin (m * (a / Q2Qc 100))).
  { rewrite Hm, Ha. apply prepaymentAmount_fin. }
  assert (Hpre0 : ngtb (annualPrepayment s) (ofZ 0) = true ->
                  (0 <= m * (a / Q2Qc 100))%Qc).
  { rewrite Ha. unfold ngtb, nltb, ofZ. intros Hgt. apply Qcltb_lt in Hgt.
    change (Q2Qc (inject_Z 0)) with 0%Qc in Hgt.
    apply Qcmult_nonneg; [exact Hm0|].
    apply Qcdiv_nonneg; [apply Qclt_le_weak; exact Hgt|].
    apply (Q2Qc_inject_pos 100). lia. }
  pose proof (periodic_nonneg R _ HR0 Hppy) as Hr0.
  apply (sound_scheduleLoop _ _ _ _ _ _ _ _ _ _ _ e _ m Hr HA He Hpre Hm Hr0 Hm0 Hpre0).
  destruct (Qclt_le_dec (p * (1 + inc / Q2Qc 100))
              (m * (R / Q2Qc 100 / Q2Qc (inject_Z (paymentsPerYearOf s)))))
    as [Hlt|Hle]; [exfalso | exact Hle].
  assert (Hn : (1 <= Z.to_nat (totalPayments s))%nat)
    by (unfold totalPayments; nia).
  pose proof (refBalance_above _ _ m _ Hr0 Hm0 Hlt Hn) as Habove.
  apply (Qclt_not_le _ _ Habove). eapply Qcle_trans; [exact Href | exact Hm0].
Qed.





(** ** What the term leaves as it is *)

(** Two loops whose bodies keep a relation between their states, and
    break together, end in related states. *)
Lemma for_range_rel {St : Type} (R : St -> St -> Prop)
    (f g : Z -> St -> St * bool) :
  (forall i s s', R s s' ->
     R (fst (f i s)) (fst (g i s')) /\ snd (f i s) = snd (g i s')) ->
  forall n i s s', R s s' -> R (for_range f n i s) (for_range g n i s').
Proof.
  intros H. induction n as [|n IH]; intros i s s' HR; [exact HR|].
  cbn [for_range]. destruct (H i s s' HR) as [HR' Hb].
  destruct (f i s) as [s1 b1], (g i s') as [s1' b1']. cbn [fst snd] in *.
  subst b1'. destruct b1; [exact HR'|]. apply IH. exact HR'.
Qed.

Section TermFrame.

Variables (principal annualInterestRate : num) (amortizationYears : Z)
          (paymentAmount : num) (paymentsPerYear_ term1 term2 : Z)
          (extraPayment_ paymentIncrease_ annualPrepayment_ : num).

Lemma sameButTermEnd_scheduleLoop :
  sameButTermEnd
    (scheduleLoop principal annualInterestRate amortizationYears paymentAmount
       paymentsPerYear_ term1 extraPayment_ paymentIncrease_ annualPrepayment_)
    (scheduleLoop principal annualInterestRate amortizationYears paymentAmount
       paymentsPerYear_ term2 extraPayment_ paymentIncrease_ annualPrepayment_).
Proof.
  unfold scheduleLoop. apply (for_range_rel sameButTermEnd);
    [|repeat split].
  intros y l l' Hl. unfold yearIter; cbn [fst snd].
  assert (H1 : sameButTermEnd
            (paymentsOfYear annualInterestRate paymentAmount paymentsPerYear_
               term1 extraPayment_ paymentIncrease_ y (yearStart l))
            (paymentsOfYear annualInterestRate paymentAmount paymentsPerYear_
               term2 extraPayment_ paymentIncrease_ y (yearStart l'))).
  { unfold paymentsOfYear. apply (for_range_rel sameButTermEnd).
    - intros i s s' (E1 & E2 & E3 & E4 & E5 & E6 & E7).
      unfold paymentIter. cbn [countPayment Var.balance]. rewrite E1.
      destruct (nleb _ _); cbn [fst snd]; (split; [|reflexivity]).
      + unfold sameButTermEnd, countPayment; cbn. rewrite E4.
        repeat split; assumption.
      + unfold sameButTermEnd, payment, principalForPayment, extraPrincipalPaid,
          regularPrincipal, interestForPayment, countPayment; cbn.
        rewrite E1, E2, E5, E6, E7. repeat split; try assumption.
        rewrite E4. reflexivity.
    - destruct Hl as (E1 & E2 & E3 & E4 & E5 & E6 & E7).
      unfold sameButTermEnd, yearStart; cbn. repeat split; assumption. }
  destruct H1 as (E1 & E2 & E3 & E4 & E5 & E6 & E7).
  assert (H2 : sameButTermEnd
            (applyPrepayment principal annualPrepayment_
               (paymentsOfYear annualInterestRate paymentAmount paymentsPerYear_
                  term1 extraPayment_ paymentIncrease_ y (yearStart l)))
            (applyPrepayment principal annualPrepayment_
               (paymentsOfYear annualInterestRate paymentAmount paymentsPerYear_
                  term2 extraPayment_ paymentIncrease_ y (yearStart l')))).
  { unfold applyPrepayment, annualPrepaymentAmount. rewrite E1.
    destruct (_ && _); unfold sameButTermEnd; cbn;
      rewrite ?E1, ?E5, ?E7; repeat split; assumption. }
  destruct H2 as (F1 & F2 & F3 & F4 & F5 & F6 & F7).
  unfold sameButTermEnd, pushYear; cbn. rewrite F1, F3, F5, F6, F7.
  repeat split; assumption.
Qed.

End TermFrame.

(** X26.  The term sets the balance at the end of the term and the
    interest over the term and nothing else: with another term the
    payment, the principal, the lifetime interest, the effective
    amortization and the schedule are the same. *)
Theorem term_sets_term_fields_only (s : ScenarioState) (t : Z) :
  let r := calculateMortgage s in
  let r' := calculateMortgage (withTerm t s) in
  monthlyPayment r' = monthlyPayment r /\
  totalMortgage r' = totalMortgage r /\
  totalInterestLifetime r' = totalInterestLifetime r /\
  effectiveAmortization r' = effectiveAmortization r /\
  amortizationSchedule r' = amortizationSchedule r.
Proof.
  cbv zeta.
  destruct (sameButTermEnd_scheduleLoop (mortgageAmount s) (interestRate s)
              (amortizationPeriod s) (paymentAmountOf s) (paymentsPerYearOf s)
              (term s) t (extraPayment s) (paymentIncrease s)
              (annualPrepayment s))
    as (E1 & E2 & E3 & E4 & E5 & E6 & E7).
  unfold calculateMortgage, generateAmortizationSchedule;
    cbn [monthlyPayment totalMortgage totalInterestLifetime
         effectiveAmortization amortizationSchedule Sched.yearlySchedule
         Sched.totalInterestPaid Sched.effectiveAmortizationYears
         paymentFrequency withTerm interestRate amortizationPeriod term
         extraPayment paymentIncrease annualPrepayment].
  change (mortgageAmount (withTerm t s)) with (mortgageAmount s).
  change (paymentAmountOf (withTerm t s)) with (paymentAmountOf s).
  fold (paymentsPerYearOf s). rewrite E2, E3, E4. repeat split.
Qed.

(** ** The balance chart *)

Lemma chart_loop (f : Z -> Point.t) n :
  forall i data,
    for_range (fun i data => (data ++ [f i], false)) n i data
    = data ++ map (fun k => f (i + Z.of_nat k)) (seq 0 n).
Proof.
  induction n as [|n IH]; intros i data.
  - cbn. rewrite app_nil_r. reflexivity.
  - cbn [for_range]. rewrite IH. cbn [seq map]. rewrite Z.add_0_r.
    rewrite <- app_assoc. cbn [app]. do 2 f_equal.
    rewrite <- seq_shift, map_map. apply map_ext. intros k. f_equal. lia.
Qed.

(** X11.  The balance chart has no point when either schedule is empty;
    otherwise it has one point per year of the longer schedule, numbered
    from 1, and the point of a year holds the ending balance of that year in
    each schedule, and 0 for a schedule that has ended before. *)
Theorem balance_chart_points (c : ComparisonState) :
  let scheduleA := amortizationSchedule (scenarioA c) in
  let scheduleB := amortizationSchedule (scenarioB c) in
  let data := prepareBalanceComparisonData c in
  (scheduleA = [] \/ scheduleB = [] -> data = []) /\
  (scheduleA <> [] -> scheduleB <> [] ->
   length data = Nat.max (length scheduleA) (length scheduleB) /\
   forall k p, nth_error data k = Some p ->
     Point.year p = Z.of_nat k + 1 /\
     Point.scenarioA p
     = match nth_error scheduleA k with
       | Some it => endingBalance it
       | None => ofZ 0
       end /\
     Point.scenarioB p
     = match nth_error scheduleB k with
       | Some it => endingBalance it
       | None => ofZ 0
       end).
Proof.
  cbv zeta. unfold prepareBalanceComparisonData.
  set (sa := amortizationSchedule (scenarioA c)).
  set (sb := amortizationSchedule (scenarioB c)).
  assert (Hat : forall (sch : list AmortizationItem) k,
            endingBalanceAt sch (Z.of_nat k)
            = match nth_error sch k with
              | Some it => endingBalance it
              | None => ofZ 0
              end).
  { intros sch k. unfold endingBalanceAt. rewrite Nat2Z.id.
    destruct (Z.ltb_spec (Z.of_nat k) (Z.of_nat (length sch))) as [H|H].
    - destruct (nth_error sch k) eqn:E; [reflexivity|].
      apply nth_error_None in E. lia.
    - assert (E : nth_error sch k = None) by (apply nth_error_None; lia).
      rewrite E. reflexivity. }
  split.
  - intros [H|H]; rewrite H; cbn [length Nat.eqb orb]; [reflexivity|].
    rewrite orb_true_r. reflexivity.
  - intros Ha Hb.
    destruct sa as [|a sa']; [congruence|].
    destruct sb as [|b sb']; [congruence|].
    cbn [length Nat.eqb orb]. rewrite chart_loop. cbn [app].
    split; [rewrite length_map, length_seq; reflexivity|].
    intros k p Hk. rewrite nth_error_map in Hk.
    destruct (nth_error (seq 0 _) k) as [j|] eqn:Ej; [|discriminate].
    pose proof (nth_error_Some (seq 0 (Nat.max (S (length sa')) (S (length sb')))) k) as Hlt.
    rewrite Ej in Hlt. destruct Hlt as [Hlt _]. specialize (Hlt ltac:(discriminate)).
    rewrite length_seq in Hlt.
    rewrite nth_error_nth' with (d := O) in Ej by (rewrite length_seq; exact Hlt).
    rewrite seq_nth in Ej by exact Hlt. injection Ej as <-.
    cbn [option_map] in Hk. injection Hk as <-.
    cbn [Point.year Point.scenarioA Point.scenarioB]. cbn [Nat.add Z.add].
    rewrite !Hat. repeat split.
Qed.

(** The schedule of a scenario has at most [amortizationPeriod] years, and
    at least one when [amortizationPeriod] is 1 or more. *)
Lemma schedule_length_bounds (s : ScenarioState) :
  let sched := amortizationSchedule (calculateMortgage s) in
  Z.of_nat (length sched) <= Z.max 0 (amortizationPeriod s) /\
  (1 <= amortizationPeriod s -> sched <> []).
Proof.
  cbv zeta.
  unfold calculateMortgage, generateAmortizationSchedule;
    cbn [amortizationSchedule Sched.yearlySchedule]. unfold scheduleLoop.
  destruct (yearLoop_years (mortgageAmount s) (interestRate s)
              (paymentAmountOf s) (paymentsPerYearOf s) (term s)
              (extraPayment s) (paymentIncrease s) (annualPrepayment s)
              (Z.to_nat (amortizationPeriod s)) 1 (initLocals (mortgageAmount s)))
    as (rest & Hr & Hlen & Hne & _).
  unfold paymentsPerYearOf in Hr. rewrite Hr.
  cbn [initLocals Var.yearlySchedule app].
  split; [lia|]. intros HY. apply Hne. lia.
Qed.

(** X12.  The balance chart of two scenarios: it is empty when either
    amortization period is less than 1; when both are 1 or more it has at
    least one point and at most as many as the longer amortization period,
    and its points are numbered 1, 2, ... in order. *)
Theorem balance_chart_of_scenarios (a b : ScenarioState) :
  let data := prepareBalanceComparisonData (calculateComparison a b) in
  (amortizationPeriod a < 1 \/ amortizationPeriod b < 1 -> data = []) /\
  (1 <= amortizationPeriod a -> 1 <= amortizationPeriod b ->
   1 <= Z.of_nat (length data)
     <= Z.max (amortizationPeriod a) (amortizationPeriod b)) /\
  map Point.year data = map (fun k => Z.of_nat k + 1) (seq 0 (length data)).
Proof.
  cbv zeta.
  destruct (schedule_length_bounds a) as [Ha Hane].
  destruct (schedule_length_bounds b) as [Hb Hbne].
  cbv zeta in *.
  unfold prepareBalanceComparisonData.
  cbn [calculateComparison scenarioA scenarioB].
  set (sa := amortizationSchedule (calculateMortgage a)) in *.
  set (sb := amortizationSchedule (calculateMortgage b)) in *.
  split; [|split].
  - intros [H|H].
    + destruct sa; [reflexivity | cbn [length] in Ha; lia].
    + destruct sb; [|cbn [length] in Hb; lia].
      cbn [length Nat.eqb]. rewrite orb_true_r. reflexivity.
  - intros HA HB.
    destruct sa as [|x sa']; [exfalso; apply (Hane HA); reflexivity|].
    destruct sb as [|y sb']; [exfalso; apply (Hbne HB); reflexivity|].
    cbn [length Nat.eqb orb] in *. rewrite chart_loop. cbn [app].
    rewrite length_map, length_seq. lia.
  - destruct (_ || _); [reflexivity|].
    rewrite chart_loop. cbn [app]. rewrite length_map, length_seq, map_map.
    apply map_ext. intros k. cbn [Point.year]. lia.
Qed.

(** ** The interest chart and the summary card *)

Lemma nsub_swap (x y : num) : (x - y)%num = nneg (y - x)%num.
Proof.
  destruct x as [a| | |], y as [b| | |]; try reflexivity.
  unfold nsub. cbn [nneg nadd]. f_equal. ring.
Qed.

Lemma nabs_nneg (x : num) : nabs (nneg x) = nabs x.
Proof.
  destruct x as [a| | |]; try reflexivity. cbn [nneg nabs].
  destruct (Qcltb (- a) 0) eqn:E1, (Qcltb a 0) eqn:E2; reflect_cmp;
    f_equal; qc_lra.
Qed.

Lemma nabs_nonneg (x : num) : x <> NaN -> nle (ofZ 0) (nabs x).
Proof.
  destruct x as [a| | |]; try reflexivity; [|congruence]. intros _.
  cbn [nabs]. destruct (Qcltb a 0) eqn:E; reflect_cmp; apply nle_0_fin; qc_lra.
Qed.

(** X13.  Comparing the scenarios the other way round negates the five
    differences and leaves the savings of the interest chart as they
    are. *)
Theorem comparison_swap (a b : ScenarioState) :
  let ab := calculateComparison a b in
  let ba := calculateComparison b a in
  Diff.monthlyPayment (differences ba)
  = nneg (Diff.monthlyPayment (differences ab)) /\
  Diff.totalInterestTerm (differences ba)
  = nneg (Diff.totalInterestTerm (differences ab)) /\
  Diff.totalInterestLifetime (differences ba)
  = nneg (Diff.totalInterestLifetime (differences ab)) /\
  Diff.balanceAtEndOfTerm (differences ba)
  = nneg (Diff.balanceAtEndOfTerm (differences ab)) /\
  Diff.timeShaved (differences ba) = nneg (Diff.timeShaved (differences ab)) /\
  map InterestRow.savings (prepareInterestComparisonData ba)
  = map InterestRow.savings (prepareInterestComparisonData ab).
Proof.
  cbv zeta. unfold prepareInterestComparisonData, calculateComparison.
  cbn [differences Diff.monthlyPayment Diff.totalInterestTerm
       Diff.totalInterestLifetime Diff.balanceAtEndOfTerm Diff.timeShaved
       map InterestRow.savings].
  repeat split; try apply nsub_swap.
  rewrite (nsub_swap (totalInterestTerm (calculateMortgage a))),
    (nsub_swap (totalInterestLifetime (calculateMortgage a))), !nabs_nneg.
  reflexivity.
Qed.

Lemma nsub_nleb_0 (x y : num) :
  finite x -> finite y -> ((x - y)%num <=? ofZ 0)%num = (x <=? y)%num.
Proof.
  destruct x as [a| | |], y as [b| | |]; try contradiction. intros _ _.
  unfold nsub. cbn [nneg nadd]. rewrite nleb_fin_0. cbn [nleb].
  destruct (Qcleb a b) eqn:E; reflect_cmp.
  - apply Qcleb_le. qc_lra.
  - apply Qcleb_gt. qc_lra.
Qed.

Lemma nabs_nsub (x y : num) :
  finite x -> finite y ->
  nabs (x - y)%num = if (x <=? y)%num then (y - x)%num else (x - y)%num.
Proof.
  destruct x as [a| | |], y as [b| | |]; try contradiction. intros _ _.
  unfold nsub. cbn [nneg nadd nabs nleb].
  destruct (Qcltb (a + - b) 0) eqn:E1, (Qcleb a b) eqn:E2; reflect_cmp;
    f_equal; qc_lra.
Qed.

(** X14.  The summary card: when both lifetime interests are finite, the
    "Better Option" reads Scenario A exactly when the lifetime interest of
    scenario B is [<=] that of scenario A, and Scenario B when it is
    larger; the "Lifetime Savings" are the larger lifetime interest minus
    the smaller. *)
Theorem better_option_label (a b : ScenarioState) :
  let ia := totalInterestLifetime (calculateMortgage a) in
  let ib := totalInterestLifetime (calculateMortgage b) in
  let c := calculateComparison a b in
  finite ia -> finite ib ->
  betterOption c
  = (if (ib <=? ia)%num then "Scenario A" else "Scenario B")%string /\
  lifetimeSavings c = if (ib <=? ia)%num then (ia - ib)%num else (ib - ia)%num.
Proof.
  cbv zeta. intros Ha Hb. unfold betterOption, lifetimeSavings, calculateComparison.
  cbn [differences Diff.totalInterestLifetime].
  rewrite (nsub_nleb_0 _ _ Hb Ha), (nabs_nsub _ _ Hb Ha). split; reflexivity.
Qed.

(** The loan at rate 0 against the loan at 6% cleared by its second
    payment. *)
Lemma better_option_label_witness :
  let ia := totalInterestLifetime (calculateMortgage zeroRateExtra) in
  let ib := totalInterestLifetime (calculateMortgage quickPayoff) in
  let c := calculateComparison zeroRateExtra quickPayoff in
  betterOption c
  = (if (ib <=? ia)%num then "Scenario A" else "Scenario B")%string /\
  lifetimeSavings c = if (ib <=? ia)%num then (ia - ib)%num else (ib - ia)%num.
Proof.
  apply (better_option_label zeroRateExtra quickPayoff); vm_compute; exact I.
Defined.

(** ** The input handlers *)

Lemma get_set_same (o : object) k v : get (set o k v) k = Some v.
Proof.
  induction o as [|[k' v'] o IH]; cbn.
  - rewrite String.eqb_refl. reflexivity.
  - destruct (String.eqb k' k) eqn:E; cbn; rewrite E; [reflexivity | exact IH].
Qed.

Lemma get_set_other (o : object) k k' v :
  k <> k' -> get (set o k v) k' = get o k'.
Proof.
  intros Hne. induction o as [|[k0 v0] o IH]; cbn.
  - apply String.eqb_neq in Hne. rewrite Hne. reflexivity.
  - destruct (String.eqb k0 k) eqn:E; cbn.
    + apply String.eqb_eq in E. subst k0.
      apply String.eqb_neq in Hne. rewrite Hne. reflexivity.
    + destruct (String.eqb k0 k'); [reflexivity | exact IH].
Qed.

Lemma nltb_irrefl (x : num) : nltb x x = false.
Proof.
  destruct x as [a| | |]; try reflexivity. cbn.
  apply Qcltb_ge, Qcle_refl.
Qed.

(** [Math.round] of a finite value is an integer within 1/2 of it. *)
Lemma nround_fin (a : Qc) :
  exists z : Z,
    nround (Fin a) = ofZ z /\
    (a - Q2Qc (1 # 2) < Q2Qc (inject_Z z))%Qc /\
    (Q2Qc (inject_Z z) <= a + Q2Qc (1 # 2))%Qc.
Proof.
  exists (Qfloor (this a + (1 # 2))). split; [reflexivity|].
  pose proof (Qfloor_le (this a + (1 # 2))) as Hle.
  pose proof (Qlt_floor (this a + (1 # 2))) as Hlt.
  rewrite inject_Z_plus in Hlt.
  generalize dependent (inject_Z (Qfloor (this a + (1 # 2)))). intros q Hle Hlt.
  split.
  - unfold Qclt. rewrite this_minus, !this_Q2Qc.
    change (inject_Z 1) with 1%Q in Hlt. lra.
  - unfold Qcle. rewrite this_plus, !this_Q2Qc. lra.
Qed.

Section HandlerProperties.

Variable Number_ : string -> num.
Variable String_ : num -> string.

Let handle := handleScenarioChange Number_ String_.

(** The fields other than [name] and [downPayment] are left as they
    are. *)
Lemma handle_other_fields o name value k :
  k <> name -> k <> "downPayment"%string ->
  get (handle o name value) k = get o k.
Proof.
  intros Hn Hd. unfold handle, handleScenarioChange.
  assert (Hn' : name <> k) by congruence.
  assert (Hd' : "downPayment"%string <> k) by congruence.
  repeat match goal with
         | |- context [if ?c then _ else _] => destruct c
         end;
    repeat first [rewrite get_set_other by assumption | reflexivity].
Qed.

(** X15.  Entering a down payment stores a number that is not above the
    bound of its type, 100 for a percentage and the purchase price for an
    amount (0 when the purchase price field holds no number); the other
    fields are left as they are.  A negative entry and [NaN] are stored as
    they are. *)
Theorem down_payment_clamped (o : object) (value : jsvalue) :
  isString "" value = false ->
  let o' := handle o "downPayment" value in
  let bound :=
    if fieldIs o "downPaymentType" "percent" then ofZ 100
    else numberOrZero (get o "purchasePrice") in
  (exists d, get o' "downPayment" = Some (JNum d) /\ ngtb d bound = false) /\
  (forall k, k <> "downPayment"%string -> get o' k = get o k).
Proof.
  intros Hne. cbv zeta. split.
  - unfold handle, handleScenarioChange. rewrite Hne.
    cbn [String.eqb Ascii.eqb Bool.eqb andb].
    set (v := if isNumberField o "downPayment" then _ else value).
    destruct (fieldIs o "downPaymentType" "percent").
    + rewrite get_set_same. eexists. split; [reflexivity|].
      destruct (ngtb (toNumber Number_ v) (ofZ 100)) eqn:E;
        [apply nltb_irrefl | exact E].
    + rewrite get_set_same. eexists. split; [reflexivity|].
      destruct (ngtb (toNumber Number_ v) _) eqn:E;
        [apply nltb_irrefl | exact E].
  - intros k Hk. apply handle_other_fields; assumption.
Qed.

(** Clearing a field of a scenario, then leaving it. *)
Lemma clear_then_blur_object (o : object) (name : string) :
  let cleared := handle o name (JStr "") in
  get cleared name = Some (JStr "") /\
  someEmpty cleared = true /\
  get (blurField cleared name) name = Some (JNum (ofZ 0)) /\
  (forall k, k <> name -> get (blurField cleared name) k = get o k).
Proof.
  cbv zeta. unfold handle, handleScenarioChange. cbn [isString String.eqb].
  assert (Hget : get (set o name (JStr "")) name = Some (JStr ""))
    by apply get_set_same.
  split; [exact Hget|]. split.
  - unfold someEmpty. apply existsb_exists.
    exists (name, JStr ""). split; [|reflexivity].
    clear Hget. induction o as [|[k v] o IH]; cbn; [left; reflexivity|].
    destruct (String.eqb k name) eqn:E.
    + left. apply String.eqb_eq in E. subst k. reflexivity.
    + right. exact IH.
  - unfold blurField, fieldIs. rewrite Hget. cbn [isString String.eqb].
    split; [apply get_set_same|].
    intros k Hk. rewrite !get_set_other by congruence. reflexivity.
Qed.

(** X16.  Clearing a field of a scenario stores the empty string in it,
    which stops the comparison from being calculated; leaving the field
    then stores 0 in it.  The other fields of the scenario and the other
    scenario are as they were. *)
Theorem clear_then_blur (st : Inputs) (name : string) :
  let clearedA := handleScenarioAChange Number_ String_ name (JStr "") st in
  let clearedB := handleScenarioBChange Number_ String_ name (JStr "") st in
  let leftA := handleBlur true name clearedA in
  let leftB := handleBlur false name clearedB in
  (get (inputA clearedA) name = Some (JStr "") /\
   someEmpty (inputA clearedA) = true /\
   get (inputA leftA) name = Some (JNum (ofZ 0)) /\
   (forall k, k <> name -> get (inputA leftA) k = get (inputA st) k) /\
   inputB leftA = inputB st) /\
  (get (inputB clearedB) name = Some (JStr "") /\
   someEmpty (inputB clearedB) = true /\
   get (inputB leftB) name = Some (JNum (ofZ 0)) /\
   (forall k, k <> name -> get (inputB leftB) k = get (inputB st) k) /\
   inputA leftB = inputA st).
Proof.
  cbv zeta.
  destruct (clear_then_blur_object (inputA st) name) as (A1 & A2 & A3 & A4).
  destruct (clear_then_blur_object (inputB st) name) as (B1 & B2 & B3 & B4).
  unfold handleScenarioAChange, handleScenarioBChange, handleBlur;
    cbn [inputA inputB].
  repeat split; assumption.
Qed.

(** X17.  A value typed into a field that has been cleared and not left
    since is stored as the string typed, not as a number: the conversion
    to a number is made only when the field holds a number.  The down
    payment, which is converted again, is the exception. *)
Theorem typed_after_clear_is_string (o : object) (name s : string) :
  name <> "downPayment"%string -> s <> ""%string ->
  let cleared := handle o name (JStr "") in
  get (handle cleared name (JStr s)) name = Some (JStr s).
Proof.
  intros Hname Hs. cbv zeta.
  assert (Hc : handle o name (JStr "") = set o name (JStr "")) by reflexivity.
  rewrite Hc. unfold handle, handleScenarioChange. cbn [isString].
  apply String.eqb_neq in Hs. rewrite Hs.
  unfold isNumberField. rewrite get_set_same.
  assert (Hd : String.eqb name "downPayment" = false)
    by (apply String.eqb_neq; exact Hname).
  rewrite Hd.
  repeat match goal with
         | |- context [if ?c then _ else _] => destruct c
         end;
    try rewrite get_set_other by congruence; apply get_set_same.
Qed.

Lemma Q2Qc_100 : Q2Qc (inject_Z 100) <> 0%Qc.
Proof. apply (Q2Qc_inject_neq0 100). lia. Qed.

(** [Math.round(x / 100) * 100] is within 50 of [x]. *)
Lemma round_to_hundreds (x : Qc) :
  exists d : Qc,
    (nround (Fin x / ofZ 100) * ofZ 100)%num = Fin d /\
    (x - Q2Qc 50 <= d)%Qc /\ (d <= x + Q2Qc 50)%Qc.
Proof.
  unfold ofZ. rewrite ndiv_fin by apply Q2Qc_100.
  destruct (nround_fin (x / Q2Qc (inject_Z 100))) as (z & Hz & Hlo & Hhi).
  rewrite Hz. unfold ofZ. rewrite nmul_fin. eexists. split; [reflexivity|].
  revert Hlo Hhi. generalize (Q2Qc (inject_Z z)). intros q Hlo Hhi.
  unfold Qclt, Qcle in *.
  rewrite this_minus, this_div, !this_Q2Qc in Hlo.
  rewrite this_plus, this_div, !this_Q2Qc in Hhi.
  rewrite this_mult, this_minus, this_plus, !this_Q2Qc.
  unfold inject_Z in *.
  assert (E : (this x == this x / (100 # 1) * (100 # 1))%Q) by (field; discriminate).
  generalize dependent (this x / (100 # 1))%Q. intros y Hlo Hhi E.
  rewrite E. lra.
Qed.

(** X18.  Switching the type of the down payment to percent and back to
    amount, on a positive purchase price: the amount that comes back is
    within 0.5% of the purchase price plus 50 of the amount that was
    there. *)
Theorem down_payment_type_round_trip (o : object) (P d : Qc) (t : string) :
  get o "purchasePrice" = Some (JNum (Fin P)) ->
  get o "downPayment" = Some (JNum (Fin d)) ->
  get o "downPaymentType" = Some (JStr t) ->
  (0 < P)%Qc ->
  let o1 := handle o "downPaymentType" (JStr "percent") in
  let o2 := handle o1 "downPaymentType" (JStr "amount") in
  get o2 "downPaymentType" = Some (JStr "amount") /\
  exists d' : Qc,
    get o2 "downPayment" = Some (JNum (Fin d')) /\
    (d - (P / Q2Qc 200 + Q2Qc 50) <= d')%Qc /\
    (d' <= d + (P / Q2Qc 200 + Q2Qc 50))%Qc.
Proof.
  intros HP Hd Ht HP0. cbv zeta.
  assert (HPne : P <> 0%Qc) by (intros E; subst P; discriminate HP0).
  (* to percent *)
  destruct (nround_fin (d / P * Q2Qc (inject_Z 100))) as (z & Hz & Hlo & Hhi).
  assert (H1 : handle o "downPaymentType" (JStr "percent")
               = set (set o "downPaymentType" (JStr "percent")) "downPayment"
                   (JNum (ofZ z))).
  { unfold handle, handleScenarioChange. cbn [isString String.eqb Ascii.eqb Bool.eqb].
    unfold isNumberField. rewrite Ht, HP, Hd. cbn [numberOrZero andb].
    rewrite ndiv_fin by exact HPne. unfold ofZ at 1. rewrite nmul_fin, Hz.
    reflexivity. }
  rewrite H1. set (o1 := set (set o _ _) _ _).
  assert (HP1 : get o1 "purchasePrice" = Some (JNum (Fin P))).
  { unfold o1. rewrite !get_set_other by discriminate. exact HP. }
  assert (Hd1 : get o1 "downPayment" = Some (JNum (ofZ z)))
    by apply get_set_same.
  assert (Ht1 : get o1 "downPaymentType" = Some (JStr "percent")).
  { unfold o1. rewrite get_set_other by discriminate. apply get_set_same. }
  (* back to amount *)
  destruct (round_to_hundreds (P * (Q2Qc (inject_Z z) / Q2Qc (inject_Z 100))))
    as (d' & Hd' & Hlo' & Hhi').
  assert (H2 : handle o1 "downPaymentType" (JStr "amount")
               = set (set o1 "downPaymentType" (JStr "amount")) "downPayment"
                   (JNum (Fin d'))).
  { unfold handle, handleScenarioChange.
    cbn [isString String.eqb Ascii.eqb Bool.eqb andb].
    unfold isNumberField. rewrite Ht1, HP1, Hd1.
    cbn [numberOrZero isString String.eqb Ascii.eqb Bool.eqb andb].
    change (ofZ z / ofZ 100)%num
      with (Fin (Q2Qc (inject_Z z)) / Fin (Q2Qc (inject_Z 100)))%num.
    rewrite (ndiv_fin (Q2Qc (inject_Z z))) by apply Q2Qc_100.
    rewrite nmul_fin, Hd'. reflexivity. }
  rewrite H2. split.
  - rewrite get_set_other by discriminate. apply get_set_same.
  - exists d'. split; [apply get_set_same|].
    revert Hlo Hhi Hlo' Hhi'. generalize (Q2Qc (inject_Z z)). intros q.
    unfold Qclt, Qcle.
    rewrite ?this_minus, ?this_plus, ?this_mult, ?this_div, ?this_mult,
      ?this_div, ?this_Q2Qc.
    unfold inject_Z.
    assert (HPq : (0 < this P)%Q) by exact HP0.
    generalize dependent (this P). generalize (this d) (this d') (this q).
    clear. intros d d' q P HP Hlo Hhi Hlo' Hhi'.
    assert (E : (d == d / P * P)%Q) by (field; lra).
    set (x := (d / P)%Q) in *.
    assert (E1 : (P * (q / (100 # 1)) == P * q / (100 # 1))%Q) by (field; discriminate).
    assert (E2 : (P / (200 # 1) == P * (1 # 200))%Q) by (field; discriminate).
    rewrite E1 in Hlo', Hhi'. rewrite E2.
    assert (E3 : (P * q / (100 # 1) == P * q * (1 # 100))%Q) by (field; discriminate).
    rewrite E3 in Hlo', Hhi'.
    assert (Hq1 : (P * (x * (100 # 1) - (1 # 2)) <= P * q)%Q)
      by (apply Qmult_le_l; [exact HP | lra]).
    assert (Hq2 : (P * q <= P * (x * (100 # 1) + (1 # 2)))%Q)
      by (apply Qmult_le_l; [exact HP | lra]).
    rewrite E. lra.
Qed.


End HandlerProperties.

(** The zeros removed from the head of a string do not change the number
    its digits write. *)
Lemma digitsValue_strip (s : string) :
  digitsValue 0 (stripLeadingZeros s) = digitsValue 0 s.
Proof.
  induction s as [|c s IH]; [reflexivity|].
  cbn [stripLeadingZeros].
  destruct (Ascii.eqb c "0") eqn:Ec.
  - apply Ascii.eqb_eq in Ec. subst c.
    destruct s as [|c' s']; [reflexivity|].
    destruct (isDigit c') eqn:Ed; [|reflexivity].
    rewrite IH. cbn [digitsValue]. rewrite Ed.
    change (isDigit "0") with true. cbn match. reflexivity.
  - destruct c as [b0 b1 b2 b3 b4 b5 b6 b7].
    destruct b0, b1, b2, b3, b4, b5, b6, b7; try discriminate Ec; reflexivity.
Qed.

(** ** Leading zeros, and examples of the handlers *)

Lemma stripLeadingZeros_head (s : string) :
  leadingZero (stripLeadingZeros s) = false.
Proof.
  induction s as [|c s IH]; [reflexivity|].
  cbn [stripLeadingZeros].
  destruct (Ascii.eqb c "0") eqn:Ec.
  - apply Ascii.eqb_eq in Ec. subst c.
    destruct s as [|c' s']; [reflexivity|].
    destruct (isDigit c') eqn:Ed; [exact IH|].
    cbn [leadingZero]. exact Ed.
  - destruct c as [b0 b1 b2 b3 b4 b5 b6 b7].
    destruct b0, b1, b2, b3, b4, b5, b6, b7; try discriminate Ec; reflexivity.
Qed.

Lemma stripLeadingZeros_fixed (s : string) :
  leadingZero s = false -> stripLeadingZeros s = s.
Proof.
  destruct s as [|c s]; [reflexivity|].
  destruct c as [b0 b1 b2 b3 b4 b5 b6 b7].
  destruct b0, b1, b2, b3, b4, b5, b6, b7; try reflexivity.
  destruct s as [|c' s']; [reflexivity|].
  cbn [leadingZero stripLeadingZeros]. intros ->. reflexivity.
Qed.

(** X20.  The zeros removed from the head of an entry: what is left does
    not start with a zero followed by a digit, removing again changes
    nothing, a string of digits still writes the same number, and an entry
    that is not empty is not emptied. *)
Theorem leading_zeros_removed (s : string) :
  leadingZero (stripLeadingZeros s) = false /\
  stripLeadingZeros (stripLeadingZeros s) = stripLeadingZeros s /\
  digitsValue 0 (stripLeadingZeros s) = digitsValue 0 s /\
  (s <> ""%string -> stripLeadingZeros s <> ""%string).
Proof.
  split; [apply stripLeadingZeros_head|].
  split; [apply stripLeadingZeros_fixed, stripLeadingZeros_head|].
  split; [apply digitsValue_strip|].
  induction s as [|c s IH]; [congruence|]. intros _.
  cbn [stripLeadingZeros].
  destruct c as [b0 b1 b2 b3 b4 b5 b6 b7].
  destruct b0, b1, b2, b3, b4, b5, b6, b7; try discriminate.
  destruct s as [|c' s']; [discriminate|].
  destruct (isDigit c'); [apply IH|]; discriminate.
Qed.

(** A down payment of 600000 entered on a purchase price of 500000. *)
Lemma down_payment_clamped_witness :
  let o' := handleScenarioChange numberOfDigits stringOfInteger
              (objectOf initialScenarioA) "downPayment" (JStr "600000") in
  (exists d, get o' "downPayment" = Some (JNum d) /\
             ngtb d (ofZ 500000) = false) /\
  (forall k, k <> "downPayment"%string ->
             get o' k = get (objectOf initialScenarioA) k).
Proof.
  apply (down_payment_clamped numberOfDigits stringOfInteger
           (objectOf initialScenarioA) (JStr "600000")).
  reflexivity.
Defined.

(** The interest rate cleared, then 0 typed. *)
Lemma typed_after_clear_is_string_witness :
  let cleared := handleScenarioChange numberOfDigits stringOfInteger
                   (objectOf initialScenarioA) "interestRate" (JStr "") in
  get (handleScenarioChange numberOfDigits stringOfInteger cleared
         "interestRate" (JStr "0"))
      "interestRate"
  = Some (JStr "0").
Proof.
  apply (typed_after_clear_is_string numberOfDigits stringOfInteger
           (objectOf initialScenarioA) "interestRate" "0"); discriminate.
Defined.

(** The first scenario of the component: 100000 down on 500000. *)
Lemma down_payment_type_round_trip_witness :
  let o1 := handleScenarioChange numberOfDigits stringOfInteger
              (objectOf initialScenarioA) "downPaymentType" (JStr "percent") in
  let o2 := handleScenarioChange numberOfDigits stringOfInteger
              o1 "downPaymentType" (JStr "amount") in
  get o2 "downPaymentType" = Some (JStr "amount") /\
  exists d' : Qc,
    get o2 "downPayment" = Some (JNum (Fin d')) /\
    (Q2Qc 100000 - (Q2Qc 500000 / Q2Qc 200 + Q2Qc 50) <= d')%Qc /\
    (d' <= Q2Qc 100000 + (Q2Qc 500000 / Q2Qc 200 + Q2Qc 50))%Qc.
Proof.
  apply (down_payment_type_round_trip numberOfDigits stringOfInteger
           (objectOf initialScenarioA) (Q2Qc 500000) (Q2Qc 100000) "amount");
    reflexivity.
Defined.

